(** * btc-brute-force: a shallow embedding of bitcoin-wallet-bruteforce-offline.go

    The development follows the Go source function by function:
    [readAddresses], [generateKeyAndAddress] with its [bufferPool], the
    [worker] loop, the [matchWriter] consumer, [statsReporter] and the
    start-up part of [main].  The goroutines are put together as a labelled
    transition system whose labels are the scheduling choices and the
    outcomes delivered by the environment (random generator, pool, file
    system, clock).

    Data.  Go strings are byte sequences: they are modelled by [string],
    whose characters are the 8-bit [ascii]; [[]byte] values are lists of
    [byte]; [uint64] values are [Z] with the wrap-around written out; the
    map[string]bool is a [gmap string bool].

    Libraries.  The parts of the Go library the program relies on are
    modelled after their documented behaviour: bufio.Scanner with
    ScanLines, bufio.Writer, sync.Pool, strconv.Atoi, encoding/hex, the
    buffered channel with its queue of parked senders.  The cryptographic
    libraries are an interface ([Crypto]).

    Left out: the banner main prints, runtime.GOMAXPROCS, and the
    WaitGroups.  The loop of [worker] has no exit, so main never gets past
    workerWg.Wait(), the channel is never closed and the deferred Flush and
    Close of [matchWriter] never run. *)

From Stdlib Require Import ZArith Lia List Ascii String SpecFloat.
From Stdlib.Strings Require Import Byte.
From stdpp Require Import base tactics option list gmap strings.

Local Open Scope Z_scope.

(** ** Common data *)

(** The Go [error] values the program can meet, by origin. *)
Inductive error : Type :=
  | ErrNotExist      (* os.Open: no such file *)
  | ErrPermission    (* os.Open / os.OpenFile: permission denied *)
  | ErrIO            (* read or write failed on the device *)
  | ErrShortWrite    (* io.ErrShortWrite *)
  | ErrTooLong       (* bufio.Scanner: token too long *)
  | ErrSyntax        (* strconv.ErrSyntax *)
  | ErrRange         (* strconv.ErrRange *)
  | ErrRand.         (* crypto/rand failure inside btcec.NewPrivateKey *)

Definition uint64_mod : Z := 2 ^ 64.
Definition wrap64 (z : Z) : Z := z mod uint64_mod.

Definition newline : ascii := "010"%char.
Definition carriage_return : ascii := "013"%char.

(** ** File system seen by the program *)

(** A file as [os.Open] and [os.OpenFile] see it.  [read_fault] is the
    error a [Read] reports once [content] has been delivered ([None] is a
    plain end of file). *)
Record file : Type := mkFile {
  content : string;
  can_read : bool;
  can_write : bool;
  read_fault : option error
}.

Record filesystem : Type := mkFS {
  files : gmap string file;
  can_create : bool
}.

Module ReadAddresses.

(** *** bufio.ScanLines and the Scanner loop *)

Definition maxTokenSize : nat := 64 * 1024.   (* bufio.MaxScanTokenSize *)

(** bytes.IndexByte; [None] stands for -1. *)
Fixpoint indexByte (data : list ascii) (c : ascii) : option nat :=
  match data with
  | [] => None
  | x :: rest => if decide (x = c) then Some 0%nat else S <$> indexByte rest c
  end.

(** dropCR drops a terminal \r from the data. *)
Definition dropCR (data : list ascii) : list ascii :=
  match last data with
  | Some c => if decide (c = carriage_return) then removelast data else data
  | None => data
  end.

(** ScanLines: the split function; returns the advance and the token. *)
Definition ScanLines (data : list ascii) (atEOF : bool) : nat * option (list ascii) :=
  if atEOF && bool_decide (length data = 0%nat) then (0%nat, None)
  else match indexByte data newline with
       | Some i => (S i, Some (dropCR (take i data)))
       | None => if atEOF then (length data, Some (dropCR data)) else (0%nat, None)
       end.

(** The Scanner over an opened file: the bytes not yet consumed, the error
    the reader reports after them, and the sticky error of the scanner. *)
Record Scanner : Type := mkScanner {
  unread : list ascii;
  reader_err : option error;
  scan_err : option error
}.

Definition NewScanner (f : file) : Scanner :=
  mkScanner (list_ascii_of_string (content f)) (read_fault f) None.

(** One call of [Scanner.Scan].  The buffer grows up to [maxTokenSize]
    bytes; the split function sees at most that window of the unread input
    and is told [atEOF] once the reader has delivered everything.  A window
    that is full and holds no token is [ErrTooLong]. *)
Definition Scan (s : Scanner) : option string * Scanner :=
  match scan_err s with
  | Some _ => (None, s)
  | None =>
    let window := take maxTokenSize (unread s) in
    let atEOF := bool_decide (length (unread s) < maxTokenSize)%nat in
    match ScanLines window atEOF with
    | (adv, Some tok) =>
        (Some (string_of_list_ascii tok),
         mkScanner (drop adv (unread s)) (reader_err s) None)
    | (_, None) =>
        if atEOF
        then (None, mkScanner [] (reader_err s) (reader_err s))
        else (None, mkScanner (unread s) (reader_err s) (Some ErrTooLong))
    end
  end.

(** [for scanner.Scan() { addresses[scanner.Text()] = true }]; every
    successful Scan consumes at least one byte, [fuel] bounds the calls. *)
Fixpoint scanLoop (fuel : nat) (s : Scanner) (addresses : gmap string bool)
  : Scanner * gmap string bool :=
  match fuel with
  | O => (s, addresses)
  | S fuel' =>
    match Scan s with
    | (Some text, s') => scanLoop fuel' s' (<[text := true]> addresses)
    | (None, s') => (s', addresses)
    end
  end.

Definition osOpen (fs : filesystem) (path : string) : error + file :=
  match files fs !! path with
  | None => inl ErrNotExist
  | Some f => if can_read f then inr f else inl ErrPermission
  end.

(** readAddresses(filePath) returns the map[string]bool and an error. *)
Definition readAddresses (fs : filesystem) (filePath : string)
  : error + gmap string bool :=
  match osOpen fs filePath with
  | inl err => inl err
  | inr f =>
    let scanner := NewScanner f in
    let '(scanner', addresses) :=
      scanLoop (S (length (unread scanner))) scanner ∅ in
    match scan_err scanner' with
    | Some err => inl err
    | None => inr addresses
    end
  end.

(** The map after the loop has inserted the tokens of the given lines. *)
Definition insert_all (ls : list (list ascii)) (m : gmap string bool)
  : gmap string bool :=
  foldl (λ acc l, <[string_of_list_ascii (dropCR l) := true]> acc) m ls.

(** The membership test of the worker: [_, exists := btcAddresses[a]]. *)
Definition exists_in (btcAddresses : gmap string bool) (a : string) : bool :=
  bool_decide (is_Some (btcAddresses !! a)).

(** *** The lines of a source, as the specification speaks of them *)

(** Lines are the maximal runs between line feeds; a line may end in a
    carriage return, which is not part of it; no line follows the last line
    feed when nothing comes after it. *)
Fixpoint raw_lines_go (cur : list ascii) (data : list ascii) : list (list ascii) :=
  match data with
  | [] => match cur with [] => [] | _ => [cur] end
  | c :: rest =>
      if decide (c = newline) then cur :: raw_lines_go [] rest
      else raw_lines_go (cur ++ [c]) rest
  end.

Definition raw_lines (src : string) : list (list ascii) :=
  raw_lines_go [] (list_ascii_of_string src).

Definition lines_of (src : string) : list string :=
  (fun l => string_of_list_ascii (dropCR l)) <$> raw_lines src.

End ReadAddresses.

(** ** encoding/hex *)

Module Hex.

Definition hextable : string := "0123456789abcdef".

Definition hexdigit (n : N) : ascii :=
  match String.get (N.to_nat n) hextable with
  | Some c => c
  | None => "0"%char
  end.

(** hex.EncodeToString: for every byte [v] the digits [hextable[v>>4]]
    and [hextable[v&0x0f]]. *)
Fixpoint EncodeToString (src : list byte) : string :=
  match src with
  | [] => ""
  | v :: rest =>
      String (hexdigit (N.shiftr (Byte.to_N v) 4))
        (String (hexdigit (N.land (Byte.to_N v) 15)) (EncodeToString rest))
  end.

End Hex.

(** ** The external cryptographic capability *)

(** btcec, btcutil, sha256-simd and base58 are libraries outside the
    repository; the program only composes them.  They are taken as an
    interface. *)
Class Crypto : Type := mkCrypto {
  PrivateKey : Type;
  Serialize : PrivateKey -> list byte;            (* privateKey.Serialize() *)
  SerializeCompressed : PrivateKey -> list byte;  (* privateKey.PubKey().SerializeCompressed() *)
  Hash160 : list byte -> list byte;               (* btcutil.Hash160 *)
  Sum256 : list byte -> list byte;                (* sha256simd.Sum256 *)
  base58Encode : list byte -> string              (* base58.Encode *)
}.

(** A deterministic stand-in for the libraries, to run the program on
    concrete inputs: keys are their own serialisation. *)
Definition stubCrypto : Crypto :=
  mkCrypto (list byte) id id (take 20) (take 32) Hex.EncodeToString.

(** ** bufferPool and generateKeyAndAddress *)

Module KeyGen.

(** A byte slice: the identity of its backing array, the visible elements
    ([len] is their number) and the capacity. *)
Record slice : Type := mkSlice {
  array : nat;
  elems : list byte;
  capacity : nat
}.

(** What the pool was asked to do, in order (a history variable). *)
Inductive PoolEvent : Type :=
  | PoolGet (a : nat)
  | PoolPut (a : nat).

Record PoolState : Type := mkPool {
  idle : list slice;          (* the items the pool holds *)
  next_array : nat;           (* the allocator: next fresh backing array *)
  history : list PoolEvent
}.

(** New: func() interface{} { return make([]byte, 0, 128) } *)
Definition poolNew (st : PoolState) : slice * PoolState :=
  (mkSlice (next_array st) [] 128,
   mkPool (idle st) (S (next_array st)) (history st)).

(** sync.Pool.Get: removes an arbitrary item ([pick] is the choice of the
    runtime, which may also ignore the pool) or calls New. *)
Definition poolGet (pick : option nat) (st : PoolState) : slice * PoolState :=
  match pick ≫= (λ i, (λ x, (i, x)) <$> idle st !! i) with
  | Some (i, x) =>
      (x, mkPool (delete i (idle st)) (next_array st)
                 (history st ++ [PoolGet (array x)]))
  | None =>
      let '(x, st') := poolNew st in
      (x, mkPool (idle st') (next_array st') (history st' ++ [PoolGet (array x)]))
  end.

(** sync.Pool.Put *)
Definition poolPut (x : slice) (st : PoolState) : PoolState :=
  mkPool (x :: idle st) (next_array st) (history st ++ [PoolPut (array x)]).

(** buf[:0] *)
Definition reslice0 (s : slice) : slice := mkSlice (array s) [] (capacity s).

(** append(buf, bs...): in place while the capacity suffices, otherwise a
    fresh backing array (the exact capacity the runtime picks for it is not
    relied upon). *)
Definition append (s : slice) (bs : list byte) (st : PoolState)
  : slice * PoolState :=
  if bool_decide (length (elems s) + length bs ≤ capacity s)%nat
  then (mkSlice (array s) (elems s ++ bs) (capacity s), st)
  else (mkSlice (next_array st) (elems s ++ bs)
          (Nat.max (2 * capacity s) (length (elems s) + length bs)),
        mkPool (idle st) (S (next_array st)) (history st)).

Section WithCrypto.
Context `{Crypto}.

(** generateKeyAndAddress returns the key, the address and an error.  [rng] is
    what btcec.NewPrivateKey returns, [pick] the choice of the pool. *)
Definition generateKeyAndAddress (rng : error + PrivateKey) (pick : option nat)
    (st : PoolState) : (error + PrivateKey * string) * PoolState :=
  match rng with
  | inl err => (inl err, st)
  | inr privateKey =>
    let pubKeyBytes := SerializeCompressed privateKey in
    let hash160 := Hash160 pubKeyBytes in
    let '(got, st) := poolGet pick st in
    let buf := reslice0 got in
    (* defer bufferPool.Put(buf): the argument is evaluated here *)
    let deferred := buf in
    let '(buf, st) := append buf [x00] st in
    let '(buf, st) := append buf hash160 st in
    let h1 := Sum256 (elems buf) in
    let h2 := Sum256 h1 in
    let '(buf, st) := append buf (take 4 h2) st in
    let address := base58Encode (elems buf) in
    (inr (privateKey, address), poolPut deferred st)
  end.

(** The address as a function of the key alone: Base58 of the version
    byte, the hash and the first four bytes of the double SHA256. *)
Definition address_of (key : PrivateKey) : string :=
  let payload := x00 :: Hash160 (SerializeCompressed key) in
  base58Encode (payload ++ take 4 (Sum256 (Sum256 payload))).

End WithCrypto.

(** The number of buffers taken from the pool and not yet given back. *)
Fixpoint outstanding (h : list PoolEvent) : Z :=
  match h with
  | [] => 0
  | PoolGet _ :: h' => outstanding h' + 1
  | PoolPut _ :: h' => outstanding h' - 1
  end.

End KeyGen.

(** ** bufio.Writer over the output file *)

Module Bufio.

Definition stake (n : nat) (s : string) : string :=
  string_of_list_ascii (take n (list_ascii_of_string s)).
Definition sdrop (n : nat) (s : string) : string :=
  string_of_list_ascii (drop n (list_ascii_of_string s)).

(** What one [Write] on the file does: all of it, or [n] bytes and an
    error.  The device decides; the outcomes to come are an oracle. *)
Inductive WriteOutcome : Type :=
  | WriteOk
  | WriteFail (n : nat) (err : error).

(** The file opened with O_APPEND|O_CREATE|O_WRONLY: every write lands at
    the end of [data]. *)
Record OutFile : Type := mkOutFile {
  data : string;
  outcomes : list WriteOutcome
}.

(** file.Write(p) / file.WriteString(p): bytes written, error, file. *)
Definition fileWrite (p : string) (f : OutFile) : nat * option error * OutFile :=
  match outcomes f with
  | [] => (String.length p, None, mkOutFile (data f +:+ p) [])
  | WriteOk :: rest => (String.length p, None, mkOutFile (data f +:+ p) rest)
  | WriteFail n err :: rest =>
      (Nat.min n (String.length p), Some err,
       mkOutFile (data f +:+ stake n p) rest)
  end.

Definition defaultBufSize : nat := 4096.

(** bufio.Writer: the buffered bytes ([b.n] is their number) and the
    sticky error [b.err]. *)
Record Writer : Type := mkWriter {
  wbuf : string;
  werr : option error
}.

Definition NewWriter : Writer := mkWriter "" None.
Definition Buffered (b : Writer) : nat := String.length (wbuf b).
Definition Available (b : Writer) : nat := (defaultBufSize - Buffered b)%nat.

(** func (b *Writer) Flush() error *)
Definition Flush (b : Writer) (f : OutFile) : option error * Writer * OutFile :=
  match werr b with
  | Some err => (Some err, b, f)
  | None =>
    if bool_decide (Buffered b = 0%nat) then (None, b, f)
    else
      let '(n, err, f') := fileWrite (wbuf b) f in
      let err := match err with
                 | None => if bool_decide (n < Buffered b)%nat
                           then Some ErrShortWrite else None
                 | Some e => Some e
                 end in
      match err with
      | Some e => (Some e, mkWriter (sdrop n (wbuf b)) (Some e), f')
      | None => (None, mkWriter "" None, f')
      end
  end.

(** The loop of WriteString:
    [for len(s) > b.Available() && b.err == nil { ... }].  With an empty
    buffer the string goes to the file directly (the file is an
    io.StringWriter), otherwise the buffer is filled and flushed. *)
Fixpoint WriteString_loop (fuel : nat) (s : string) (b : Writer) (f : OutFile)
  : string * Writer * OutFile :=
  match fuel with
  | O => (s, b, f)
  | S fuel' =>
    if bool_decide (Available b < String.length s)%nat
       && bool_decide (werr b = None)
    then
      if bool_decide (Buffered b = 0%nat)
      then
        let '(n, err, f') := fileWrite s f in
        WriteString_loop fuel' (sdrop n s) (mkWriter (wbuf b) err) f'
      else
        let n := Available b in
        let '(_, b', f') := Flush (mkWriter (wbuf b +:+ stake n s) (werr b)) f in
        WriteString_loop fuel' (sdrop n s) b' f'
    else (s, b, f)
  end.

(** func (b *Writer) WriteString(s string) (int, error); only the error is
    looked at by the caller. *)
Definition WriteString (s : string) (b : Writer) (f : OutFile)
  : option error * Writer * OutFile :=
  let '(s', b', f') := WriteString_loop (S (S (String.length s))) s b f in
  match werr b' with
  | Some err => (Some err, b', f')
  | None => (None, mkWriter (wbuf b' +:+ s') None, f')
  end.

End Bufio.

(** ** The goroutines: worker, matchWriter and their shared state *)

Module Pipeline.
Import Bufio KeyGen.

Definition updateInterval : Z := 10000.
Definition matchChanCap : nat := 100.   (* make(chan MatchResult, 100) *)

(** What log.Printf / log.Fatalf and fmt.Printf put out. *)
Inductive LogEntry : Type :=
  | LogGenerateFailed (id : nat) (err : error)
      (* Worker %d: Failed to generate key and address: %s *)
  | LogWriteFailed (err : error)
      (* Failed to write match to file: %s *)
  | LogFatalOpenOutput (err : error).
      (* Failed to open output file: %s *)

Inductive Printed : Type :=
  | PrintMatchFound (address : string)
  | PrintSavedToFile (privKeyHex address : string).

Section WithCrypto.
Context `{Crypto}.

Record MatchResult : Type := mkMatch {
  privateKey : PrivateKey;
  address : string
}.

(** A worker goroutine between two statements of its loop: its private
    counter and, when it is parked in the send statement, the record it is
    sending.  [generated] and [added] are history variables: the successful
    generator calls so far and the sum of what it added to the counter. *)
Record WorkerState : Type := mkWorker {
  localCounter : Z;
  parked : option MatchResult;
  generated : Z;
  added : Z
}.

(** The matchWriter goroutine: before os.OpenFile, or in its loop. *)
Inductive Consumer : Type :=
  | Starting
  | Draining (writer : Writer) (out : OutFile).

Record System : Type := mkSystem {
  counter : Z;                       (* var counter uint64 *)
  matchChan : list MatchResult;      (* the buffer of the channel *)
  sendq : list nat;                  (* parked senders, first come first *)
  workers : list WorkerState;
  pool : PoolState;
  consumer : Consumer;
  logs : list LogEntry;
  stdout : list Printed;
  exited : option Z;                 (* os.Exit was called with this code *)
  submitted : list MatchResult;      (* history: send statements reached *)
  dequeued : list MatchResult        (* history: records received *)
}.

(** What main hands to the goroutines and what the environment holds. *)
Record Config : Type := mkConfig {
  btcAddresses : gmap string bool;
  outputFile : string;
  disk : filesystem;
  write_outcomes : list WriteOutcome
}.

Definition initial (numThreads : nat) : System :=
  mkSystem 0 [] [] (replicate numThreads (mkWorker 0 None 0 0))
           (mkPool [] 0 []) Starting [] [] None [] [].

(** The scheduling choices and what the environment delivers with them. *)
Inductive Label : Type :=
  | WorkerIter (id : nat) (rng : error + PrivateKey) (pick : option nat)
  | WriterOpen
  | WriterRecv.

(** [matchChan <- r] by worker [id]: into the buffer when there is room,
    otherwise the goroutine parks at the end of the sender queue. *)
Definition send (id : nat) (w : WorkerState) (r : MatchResult) (s : System)
  : System :=
  if bool_decide (length (matchChan s) < matchChanCap)%nat
  then mkSystem (counter s) (matchChan s ++ [r]) (sendq s)
         (<[id := w]> (workers s)) (pool s) (consumer s) (logs s) (stdout s)
         (exited s) (submitted s ++ [r]) (dequeued s)
  else mkSystem (counter s) (matchChan s) (sendq s ++ [id])
         (<[id := mkWorker (localCounter w) (Some r) (generated w) (added w)]>
            (workers s))
         (pool s) (consumer s) (logs s) (stdout s)
         (exited s) (submitted s ++ [r]) (dequeued s).

(** One iteration of the loop of [worker], from the call of the generator
    to the send statement. *)
Definition worker_iter (cfg : Config) (id : nat) (rng : error + PrivateKey)
    (pick : option nat) (w : WorkerState) (s : System) : System :=
  match generateKeyAndAddress rng pick (pool s) with
  | (inl err, pool') =>
      (* log.Printf(...); continue *)
      mkSystem (counter s) (matchChan s) (sendq s) (workers s) pool'
        (consumer s) (logs s ++ [LogGenerateFailed id err]) (stdout s)
        (exited s) (submitted s) (dequeued s)
  | (inr (key, publicAddress), pool') =>
      let lc := wrap64 (localCounter w + 1) in
      let flush := bool_decide (lc mod updateInterval = 0) in
      let counter' := if flush then wrap64 (counter s + updateInterval)
                      else counter s in
      let w' := mkWorker (if flush then 0 else lc) None (generated w + 1)
                  (if flush then added w + updateInterval else added w) in
      if ReadAddresses.exists_in (btcAddresses cfg) publicAddress
      then
        send id w' (mkMatch key publicAddress)
          (mkSystem counter' (matchChan s) (sendq s) (workers s) pool'
             (consumer s) (logs s)
             (stdout s ++ [PrintMatchFound publicAddress])
             (exited s) (submitted s) (dequeued s))
      else
        mkSystem counter' (matchChan s) (sendq s) (<[id := w']> (workers s))
          pool' (consumer s) (logs s) (stdout s) (exited s)
          (submitted s) (dequeued s)
  end.

(** os.OpenFile(outputFile, O_APPEND|O_CREATE|O_WRONLY, 0644) *)
Definition openOutput (cfg : Config) : error + OutFile :=
  match files (disk cfg) !! outputFile cfg with
  | Some f => if can_write f
              then inr (mkOutFile (content f) (write_outcomes cfg))
              else inl ErrPermission
  | None => if can_create (disk cfg)
            then inr (mkOutFile "" (write_outcomes cfg))
            else inl ErrPermission
  end.

(** The start of [matchWriter]: open the file or log.Fatalf. *)
Definition writer_open (cfg : Config) (s : System) : System :=
  match openOutput cfg with
  | inl err =>
      mkSystem (counter s) (matchChan s) (sendq s) (workers s) (pool s)
        (consumer s) (logs s ++ [LogFatalOpenOutput err]) (stdout s)
        (Some 1) (submitted s) (dequeued s)
  | inr f =>
      mkSystem (counter s) (matchChan s) (sendq s) (workers s) (pool s)
        (Draining NewWriter f) (logs s) (stdout s)
        (exited s) (submitted s) (dequeued s)
  end.

(** The line written for a match: fmt.Sprintf("%s:%s\n", privKeyHex, address). *)
Definition render (m : MatchResult) : string :=
  Hex.EncodeToString (Serialize (privateKey m)) +:+ ":" +:+ address m
    +:+ String newline "".

(** The body of [for match := range matchChan]. *)
Definition write_match (m : MatchResult) (b : Writer) (f : OutFile)
  : list LogEntry * Printed * Writer * OutFile :=
  let privKeyBytes := Serialize (privateKey m) in
  let privKeyHex := Hex.EncodeToString privKeyBytes in
  let '(err, b, f) := WriteString (render m) b f in
  let logged := match err with
                | Some e => [LogWriteFailed e]
                | None => []
                end in
  (* writer.Flush(): the result is not looked at *)
  let '(_, b, f) := Flush b f in
  (logged, PrintSavedToFile privKeyHex (address m), b, f).

(** The receive of the channel: the head of the buffer; the first parked
    sender, if any, puts its record into the slot that became free and
    runs again. *)
Definition recv (s : System) : option (MatchResult * System) :=
  match matchChan s with
  | [] => None
  | m :: rest =>
    match sendq s with
    | [] =>
        Some (m, mkSystem (counter s) rest [] (workers s) (pool s)
                   (consumer s) (logs s) (stdout s) (exited s)
                   (submitted s) (dequeued s ++ [m]))
    | id :: waiting =>
        match workers s !! id with
        | Some w =>
          match parked w with
          | Some r =>
            Some (m, mkSystem (counter s) (rest ++ [r]) waiting
                       (<[id := mkWorker (localCounter w) None (generated w)
                                  (added w)]> (workers s))
                       (pool s) (consumer s) (logs s) (stdout s) (exited s)
                       (submitted s) (dequeued s ++ [m]))
          | None => None
          end
        | None => None
        end
    end
  end.

(** A step of the system; [None] when the goroutine cannot run: a parked
    worker, a consumer with an empty channel, a process that has exited. *)
Definition step (cfg : Config) (l : Label) (s : System) : option System :=
  match exited s with
  | Some _ => None
  | None =>
    match l with
    | WorkerIter id rng pick =>
        match workers s !! id with
        | Some w =>
            match parked w with
            | Some _ => None
            | None => Some (worker_iter cfg id rng pick w s)
            end
        | None => None
        end
    | WriterOpen =>
        match consumer s with
        | Starting => Some (writer_open cfg s)
        | Draining _ _ => None
        end
    | WriterRecv =>
        match consumer s with
        | Starting => None
        | Draining b f =>
            match recv s with
            | None => None
            | Some (m, s') =>
                let '(logged, printed, b', f') := write_match m b f in
                Some (mkSystem (counter s') (matchChan s') (sendq s')
                        (workers s') (pool s') (Draining b' f')
                        (logs s' ++ logged) (stdout s' ++ [printed])
                        (exited s') (submitted s') (dequeued s'))
            end
        end
    end
  end.

Fixpoint run (cfg : Config) (t : list Label) (s : System) : option System :=
  match t with
  | [] => Some s
  | l :: t' =>
      match step cfg l s with
      | Some s' => run cfg t' s'
      | None => None
      end
  end.

(** Observations on a state. *)
Definition out_data (s : System) : option string :=
  match consumer s with
  | Starting => None
  | Draining _ f => Some (data f)
  end.

Definition buffered (s : System) : option string :=
  match consumer s with
  | Starting => None
  | Draining b _ => Some (wbuf b)
  end.

(** A record whose address is in the membership index. *)
Definition member (cfg : Config) (r : MatchResult) : Prop :=
  ReadAddresses.exists_in (btcAddresses cfg) (address r) = true.

(** The lines of a list of records, one after the other. *)
Fixpoint render_all (ms : list MatchResult) : string :=
  match ms with
  | [] => ""
  | m :: ms' => render m +:+ render_all ms'
  end.

(** The state of the consumer while no write has failed: nothing is left
    in the buffer of the writer and the file holds what it held when it was
    opened, followed by the lines of the records received so far. *)
Definition OutInv (cfg : Config) (s : System) : Prop :=
  match consumer s with
  | Starting => True
  | Draining b f =>
      b = NewWriter
      ∧ Forall (λ o, o = WriteOk) (outcomes f)
      ∧ ∃ f0, openOutput cfg = inr f0
              ∧ data f = data f0 +:+ render_all (dequeued s)
  end.

(** The records of the parked senders, in queue order. *)
Definition waiting (s : System) : list MatchResult :=
  omap (λ id, workers s !! id ≫= parked) (sendq s).

Fixpoint sumZ (f : WorkerState → Z) (ws : list WorkerState) : Z :=
  match ws with
  | [] => 0
  | w :: ws' => f w + sumZ f ws'
  end.

(** The true total of successful generator calls, the sum of what the
    workers added to the counter, and the sum of their private counters. *)
Definition total_generated (s : System) : Z := sumZ generated (workers s).
Definition total_added (s : System) : Z := sumZ added (workers s).
Definition total_private (s : System) : Z := sumZ localCounter (workers s).

(** What the counters of a worker satisfy between two iterations. *)
Definition worker_ok (w : WorkerState) : Prop :=
  0 ≤ localCounter w < updateInterval
  ∧ 0 ≤ added w
  ∧ generated w = added w + localCounter w
  ∧ (updateInterval | added w).

(** Whether the next successful call completes a batch. *)
Definition flushes (w : WorkerState) : bool :=
  bool_decide (wrap64 (localCounter w + 1) mod updateInterval = 0).

(** The worker after a successful call of the generator (the statements
    [localCounter++] and [if localCounter%updateInterval == 0 {...}]). *)
Definition bump (w : WorkerState) : WorkerState :=
  let lc := wrap64 (localCounter w + 1) in
  let flush := bool_decide (lc mod updateInterval = 0) in
  mkWorker (if flush then 0 else lc) None (generated w + 1)
           (if flush then added w + updateInterval else added w).

(** The invariant of the goroutines' shared state. *)
Record Inv (s : System) : Prop := mkInv {
  inv_workers : Forall worker_ok (workers s);
  inv_counter : counter s = wrap64 (total_added s);
  inv_cap : (length (matchChan s) ≤ matchChanCap)%nat;
  inv_full : sendq s ≠ [] → length (matchChan s) = matchChanCap;
  inv_nodup : NoDup (sendq s);
  inv_parked : ∀ id, id ∈ sendq s ↔
                 ∃ w r, workers s !! id = Some w ∧ parked w = Some r;
  inv_conserve : submitted s = dequeued s ++ matchChan s ++ waiting s;
  inv_starting : consumer s = Starting → dequeued s = []
}.

Definition is_recv (l : Label) : bool :=
  match l with WriterRecv => true | _ => false end.

End WithCrypto.

Arguments MatchResult {_}.
Arguments System {_}.
Arguments Label {_}.
Arguments WorkerState {_}.

End Pipeline.

(** ** statsReporter *)

Module Stats.

(** The arithmetic of the rates: [float64(x)], [Duration.Seconds()] and
    the quotient. *)
Class RateArith : Type := mkRateArith {
  F : Type;
  of_uint64 : Z -> F;        (* float64(total) *)
  seconds : Z -> F;          (* time.Duration(d).Seconds(), d in nanoseconds *)
  fdiv : F -> F -> F
}.

(** IEEE 754 binary64, as the Go program computes. *)
Definition b64_of_Z (z : Z) : spec_float := binary_normalize 53 1024 z 0 false.
Definition b64_div : spec_float -> spec_float -> spec_float := SFdiv 53 1024.
Definition b64_add : spec_float -> spec_float -> spec_float := SFadd 53 1024.

(** func (d Duration) Seconds() float64:
    [sec := d / Second; nsec := d % Second; float64(sec) + float64(nsec)/1e9] *)
Definition b64_seconds (d : Z) : spec_float :=
  let sec := Z.quot d 1000000000 in
  let nsec := Z.rem d 1000000000 in
  b64_add (b64_of_Z sec) (b64_div (b64_of_Z nsec) (b64_of_Z 1000000000)).

Definition binary64 : RateArith :=
  mkRateArith spec_float b64_of_Z b64_seconds b64_div.

(** A positive normal binary64 number of moderate size: the sign bit is
    clear, the mantissa has its 53 bits, the exponent is within 900 of 0
    (a magnitude between 2^-848 and 2^953). *)
Definition normal64 (f : spec_float) : bool :=
  match f with
  | S754_finite false m e =>
      (2 ^ 52 <=? Zpos m) && (Zpos m <? 2 ^ 53) && (-900 <=? e) && (e <=? 900)
  | _ => false
  end.

(** The positive normal number [M * 2^E] is a nearest binary64 number to
    the quotient of [N] by [D * 2^2000]: within half a unit in the last
    place, and within a quarter below when [M] is the power of two, where
    the numbers below are twice as dense.  (The scale 2^2000 keeps the
    statement in the integers.) *)
Definition nearest64 (M : positive) (E : Z) (N D : Z) : Prop :=
  2 * N <= (2 * Zpos M + 1) * 2 ^ (E + 2000) * D
  ∧ (2 ^ 52 < Zpos M → (2 * Zpos M - 1) * 2 ^ (E + 2000) * D <= 2 * N)
  ∧ (Zpos M = 2 ^ 52 → (4 * Zpos M - 1) * 2 ^ (E + 2000) * D <= 4 * N).

(** The value of a nonnegative binary64 number, on that scale. *)
Definition sval (f : spec_float) : Z :=
  match f with
  | S754_finite false m e => Zpos m * 2 ^ (e + 2000)
  | _ => 0
  end.

(** What one turn of the loop reads: the counter and the clock, the latter
    twice ([time.Now()] and then [time.Since(startTime)]), in nanoseconds. *)
Record Tick : Type := mkTick {
  total : Z;
  now : Z;
  since_clock : Z
}.

Record Reporter : Type := mkReporter {
  lastTotal : Z;
  lastTime : Z
}.

Section WithArith.
Context {A : RateArith}.

(** The line of [fmt.Printf("[Stats] Total: %d | Overall: ... ")]. *)
Record StatsLine : Type := mkLine {
  line_total : Z;
  overallRate : F;
  instantRate : F;
  runtime : F
}.

(** The body of [for range ticker.C]. *)
Definition report (startTime : Z) (t : Tick) (r : Reporter)
  : StatsLine * Reporter :=
  let elapsed := seconds (since_clock t - startTime) in
  let overallRate := fdiv (of_uint64 (total t)) elapsed in
  let intervalKeys := wrap64 (total t - lastTotal r) in
  let intervalTime := seconds (now t - lastTime r) in
  let instantRate := fdiv (of_uint64 intervalKeys) intervalTime in
  (mkLine (total t) overallRate instantRate elapsed,
   mkReporter (total t) (now t)).

Fixpoint report_all (startTime : Z) (ticks : list Tick) (r : Reporter)
  : list StatsLine :=
  match ticks with
  | [] => []
  | t :: rest =>
      let '(line, r') := report startTime t r in
      line :: report_all startTime rest r'
  end.

(** statsReporter(counter, startTime) over the ticks it lives through. *)
Definition statsReporter (startTime : Z) (ticks : list Tick) : list StatsLine :=
  report_all startTime ticks (mkReporter 0 startTime).

End WithArith.

Arguments StatsLine : clear implicits.

(** The values the loop holds in [lastTotal] and [lastTime] when it meets
    tick number [i]: those of the tick before, or the initial ones. *)
Definition baseline (startTime : Z) (ticks : list Tick) (i : nat) : Reporter :=
  match i with
  | O => mkReporter 0 startTime
  | S j => match ticks !! j with
           | Some p => mkReporter (total p) (now p)
           | None => mkReporter 0 startTime
           end
  end.

End Stats.

(** ** strconv.Atoi and the start of main *)

Module Main.
Import Pipeline.

Definition digit_val (ch : ascii) : option Z :=
  let d := Z.of_N (N_of_ascii ch) - 48 in
  if bool_decide (0 ≤ d ≤ 9) then Some d else None.

Fixpoint parse_digits (n : Z) (s : string) : option Z :=
  match s with
  | EmptyString => Some n
  | String ch rest =>
      match digit_val ch with
      | Some d => parse_digits (n * 10 + d) rest
      | None => None
      end
  end.

Definition split_sign (s : string) : bool * string :=
  match s with
  | String ch rest =>
      if bool_decide (ch = "-"%char) then (true, rest)
      else if bool_decide (ch = "+"%char) then (false, rest)
      else (false, s)
  | EmptyString => (false, s)
  end.

(** strconv.Atoi on a 64-bit platform: an optional sign, then decimal
    digits only; the value has to fit an int. *)
Definition Atoi (s : string) : error + Z :=
  let '(neg, ds) := split_sign s in
  match ds with
  | EmptyString => inl ErrSyntax
  | _ =>
    match parse_digits 0 ds with
    | None => inl ErrSyntax
    | Some n =>
        let v := if neg then - n else n in
        if bool_decide (- 2 ^ 63 ≤ v < 2 ^ 63) then inr v else inl ErrRange
    end
  end.

Inductive StartupMessage : Type :=
  | UsageText
  | FatalInvalidThreads (err : error)   (* Invalid number of threads: %s *)
  | FatalThreadsBelowOne                (* Number of threads must be at least 1 *)
  | FatalReadAddresses (err : error).   (* Failed to read BTC addresses: %s *)

(** How main leaves its start-up part: os.Exit with a code after a
    message, or the goroutines are started. *)
Inductive Startup : Type :=
  | Exit (code : Z) (msg : StartupMessage)
  | Started (numThreads : nat) (cfg : Config).

(** main up to the start of the goroutines; [osArgs] is os.Args. *)
Definition main (osArgs : list string) (fs : filesystem)
    (dev : list Bufio.WriteOutcome) : Startup :=
  if negb (bool_decide (length osArgs = 4%nat)) then Exit 1 UsageText
  else
    match Atoi (default "" (osArgs !! 1%nat)) with
    | inl err => Exit 1 (FatalInvalidThreads err)
    | inr numThreads =>
      if bool_decide (numThreads < 1) then Exit 1 FatalThreadsBelowOne
      else
        let outputFile := default "" (osArgs !! 2%nat) in
        let btcAddressesFile := default "" (osArgs !! 3%nat) in
        match ReadAddresses.readAddresses fs btcAddressesFile with
        | inl err => Exit 1 (FatalReadAddresses err)
        | inr btcAddresses =>
            Started (Z.to_nat numThreads)
                    (mkConfig btcAddresses outputFile fs dev)
        end
    end.

(** A command-line word that denotes a positive integer: decimal digits,
    possibly after a plus sign, with a value of at least one. *)
Definition all_digits (ds : string) : Prop :=
  ds ≠ EmptyString ∧ ∀ c, In c (list_ascii_of_string ds) → is_Some (digit_val c).

Definition denotes_positive (s : string) : Prop :=
  ∃ ds n, (s = ds ∨ s = String "+"%char ds) ∧ all_digits ds
          ∧ parse_digits 0 ds = Some n ∧ 1 ≤ n.

End Main.

(** ** Concrete inputs *)

(** A small run of the program with the stand-in for the libraries: one
    key, a membership list with a repeated line, an output file that
    already holds a line. *)
Module Demo.
Import Bufio Pipeline.

Definition key1 : list byte := [x01].

Definition key1_address : string := "00010001".

Definition listing : string :=
  "00010001" +:+ String newline
    ("1BvBMSEYstWetqTFn5Au4m4GFg7xJaNVN2" +:+ String newline
       ("00010001" +:+ String newline "")).

Definition earlier : string := "ff:old" +:+ String newline "".

Definition fs : filesystem :=
  mkFS (<["addresses.txt" := mkFile listing true true None]>
          (<["matches.txt" := mkFile earlier true true None]> ∅))
       true.

Definition osArgs : list string :=
  ["btc-brute-force"; "1"; "matches.txt"; "addresses.txt"].

Definition addresses : gmap string bool :=
  gset_to_gmap true (list_to_set (ReadAddresses.lines_of listing)).

Definition cfg (dev : list WriteOutcome) : Config :=
  mkConfig addresses "matches.txt" fs dev.

(** The same program with an empty membership list. *)
Definition cfg_empty : Config := mkConfig ∅ "matches.txt" fs [].

Definition found : @Label stubCrypto := @WorkerIter stubCrypto 0 (inr key1) None.

(** The consumer opens the file, the worker finds the key of the list, the
    consumer receives the record. *)
Definition first_match : list (@Label stubCrypto) :=
  [@WriterOpen stubCrypto; found; @WriterRecv stubCrypto].

Definition match1 : @MatchResult stubCrypto := @mkMatch stubCrypto key1 key1_address.

(** The state after [WriterOpen; found], and after [first_match]. *)
Definition found_state : @System stubCrypto :=
  @mkSystem stubCrypto 0 [match1] []
    [@mkWorker stubCrypto 1 None 1 0]
    (KeyGen.mkPool [KeyGen.mkSlice 0 [] 128] 1
       [KeyGen.PoolGet 0; KeyGen.PoolPut 0])
    (Draining NewWriter (mkOutFile earlier []))
    [] [PrintMatchFound key1_address] None [match1] [].

Definition saved_state : @System stubCrypto :=
  @mkSystem stubCrypto 0 [] []
    [@mkWorker stubCrypto 1 None 1 0]
    (KeyGen.mkPool [KeyGen.mkSlice 0 [] 128] 1
       [KeyGen.PoolGet 0; KeyGen.PoolPut 0])
    (Draining NewWriter
       (mkOutFile (earlier +:+ @render stubCrypto match1) []))
    [] [PrintMatchFound key1_address; PrintSavedToFile "01" key1_address]
    None [match1] [match1].

(** Two ticks, ten seconds apart, that read a counter still at zero, and
    two that read the same positive counter. *)
Definition idle_ticks : list Stats.Tick :=
  [Stats.mkTick 0 10000000000 10000000000;
   Stats.mkTick 0 20000000000 20000000000].

Definition stalled_ticks : list Stats.Tick :=
  [Stats.mkTick 30000 10000000000 10000000000;
   Stats.mkTick 30000 20000000000 20000000000].

(** Two ticks one nanosecond apart after 5 * 10^18 ns, reading the same
    positive counter, and one tick three seconds after the start. *)
Definition late_ticks : list Stats.Tick :=
  [Stats.mkTick 10000 5000000000000000000 5000000000000000000;
   Stats.mkTick 10000 5000000000000000001 5000000000000000001].

Definition third_ticks : list Stats.Tick :=
  [Stats.mkTick 10000 3000000000 3000000000].

(** The number of successful generations after which 10000 times the
    number of batches passes 2^64. *)
Definition past_wrap : Z := 18446744073709560000.

End Demo.

(** ** Notions used to state further properties of the code *)

Module Observed.
Import Bufio KeyGen Pipeline.

(** A text made of the given lines, each followed by the line ending. *)
Fixpoint unlines (eol : list ascii) (ls : list (list ascii)) : list ascii :=
  match ls with
  | [] => []
  | l :: ls' => l ++ eol ++ unlines eol ls'
  end.

Definition LF : list ascii := [newline].
Definition CRLF : list ascii := [carriage_return; newline].

(** A line as a text file holds it: no line feed inside, no carriage
    return at its end. *)
Definition plain (l : list ascii) : Prop :=
  (newline ∉ l) ∧ last l ≠ Some carriage_return.

(** What is in the pool between two calls of the generator: empty slices
    of the capacity New gives them, over backing arrays that were allocated
    and are distinct from one another; nothing is borrowed. *)
Definition pool_ok (st : PoolState) : Prop :=
  Forall (λ b, elems b = [] ∧ capacity b = 128%nat
               ∧ (array b < next_array st)%nat) (idle st)
  ∧ NoDup (array <$> idle st)
  ∧ outstanding (history st) = 0.

(** The lines reported as saved on the console. *)
Definition reported (p : Printed) : option (string * string) :=
  match p with
  | PrintMatchFound _ => None
  | PrintSavedToFile h a => Some (h, a)
  end.

(** The write failures in a log. *)
Definition write_failure (e : LogEntry) : bool :=
  match e with
  | LogWriteFailed _ => true
  | _ => false
  end.

Section WithCrypto.
Context `{Crypto}.

(** The record an iteration of a worker submits, if any: the generator
    succeeded and the address is in the index. *)
Definition candidate (cfg : Config) (l : Label) : option MatchResult :=
  match l with
  | WorkerIter _ (inr key) _ =>
      if ReadAddresses.exists_in (btcAddresses cfg) (address_of key)
      then Some (mkMatch key (address_of key))
      else None
  | _ => None
  end.

Definition matches_of (cfg : Config) (t : list Label) : list MatchResult :=
  omap (candidate cfg) t.

(** The file and the writer, whatever the device does: the file holds an
    initial part of the lines of the records received; while the writer
    holds no error it is empty and nothing is missing. *)
Definition FileInv (cfg : Config) (s : System) : Prop :=
  match consumer s with
  | Starting => dequeued s = []
  | Draining b f =>
      ∃ f0 k rest,
        openOutput cfg = inr f0
        ∧ data f = data f0 +:+ k
        ∧ render_all (dequeued s) = k +:+ rest
        ∧ (werr b = None → b = NewWriter ∧ rest = "")
  end.

(** The bytes handed to base58.Encode for a key. *)
Definition payload_of (key : PrivateKey) : list byte :=
  let versioned := x00 :: Hash160 (SerializeCompressed key) in
  versioned ++ take 4 (Sum256 (Sum256 versioned)).

End WithCrypto.

End Observed.

(** ** Further concrete inputs *)

Module Scenario.
Import Bufio Pipeline Demo.

(** A device that takes three bytes of the first write and fails. *)
Definition failing : Config := cfg [WriteFail 3 ErrIO].

(** The state after [first_match] on that device, and after one more match
    has been found and received. *)
Definition torn_state : @System stubCrypto :=
  @mkSystem stubCrypto 0 [] []
    [@mkWorker stubCrypto 1 None 1 0]
    (KeyGen.mkPool [KeyGen.mkSlice 0 [] 128] 1
       [KeyGen.PoolGet 0; KeyGen.PoolPut 0])
    (Draining (mkWriter ("00010001" +:+ String newline "") (Some ErrIO))
       (mkOutFile (earlier +:+ "01:") []))
    [] [PrintMatchFound key1_address; PrintSavedToFile "01" key1_address]
    None [match1] [match1].

Definition torn_again : @System stubCrypto :=
  @mkSystem stubCrypto 0 [] []
    [@mkWorker stubCrypto 2 None 2 0]
    (KeyGen.mkPool [KeyGen.mkSlice 1 [] 128; KeyGen.mkSlice 0 [] 128] 2
       [KeyGen.PoolGet 0; KeyGen.PoolPut 0; KeyGen.PoolGet 1; KeyGen.PoolPut 1])
    (Draining (mkWriter ("00010001" +:+ String newline "") (Some ErrIO))
       (mkOutFile (earlier +:+ "01:") []))
    [LogWriteFailed ErrIO]
    [PrintMatchFound key1_address; PrintSavedToFile "01" key1_address;
     PrintMatchFound key1_address; PrintSavedToFile "01" key1_address]
    None [match1; match1] [match1; match1].

(** The pool after one call of the generator. *)
Definition used_pool : KeyGen.PoolState :=
  KeyGen.mkPool [KeyGen.mkSlice 0 [] 128] 1
    [KeyGen.PoolGet 0; KeyGen.PoolPut 0].

(** The three lines of [Demo.listing]. *)
Definition listed : list (list ascii) :=
  list_ascii_of_string
    <$> ["00010001"; "1BvBMSEYstWetqTFn5Au4m4GFg7xJaNVN2"; "00010001"].

(** The same lines as a Windows editor writes them, the last one left
    without a terminator. *)
Definition listing_crlf : string :=
  string_of_list_ascii
    (Observed.unlines Observed.CRLF
       (list_ascii_of_string
          <$> ["00010001"; "1BvBMSEYstWetqTFn5Au4m4GFg7xJaNVN2"])
     ++ list_ascii_of_string "00010001").

(** Files on which loading fails: one that may not be read and one whose
    device fails after the content; beside them the file written with
    carriage returns. *)
Definition fs_bad : filesystem :=
  mkFS (<["locked.txt" := mkFile listing false true None]>
          (<["faulty.txt" := mkFile listing true true (Some ErrIO)]>
             (<["crlf.txt" := mkFile listing_crlf true true None]> ∅)))
       true.

(** A file that is one line of 64 KiB. *)
Definition oversized : file :=
  mkFile (string_of_list_ascii (replicate ReadAddresses.maxTokenSize "a"%char))
         true true None.

Definition fs_oversized : filesystem :=
  mkFS (<["oversized.txt" := oversized]> ∅) true.

End Scenario.

(** * Properties *)

(** ** readAddresses *)

Section ReadAddressesFacts.
Import ReadAddresses.

Lemma maxTokenSize_pos : (0 < maxTokenSize)%nat.
Proof. unfold maxTokenSize. apply Nat.mul_pos_pos; lia. Qed.

Lemma indexByte_Some d c i :
  indexByte d c = Some i →
  d = take i d ++ c :: drop (S i) d ∧ (c ∉ take i d) ∧ (i < length d)%nat.
Proof.
  revert i. induction d as [|x d IH]; intros i; cbn [indexByte]; [done|].
  case_decide as Hx.
  - subst x. intros [= <-]. cbn. split_and!; [done|apply not_elem_of_nil|lia].
  - destruct (indexByte d c) as [j|] eqn:E; cbn; [|done].
    intros [= <-]. destruct (IH j eq_refl) as (Hd & Hnot & Hlt).
    cbn. split_and!; [by f_equal| |lia].
    rewrite elem_of_cons. intros [?|?]; [congruence|done].
Qed.

Lemma indexByte_None d c : indexByte d c = None → c ∉ d.
Proof.
  induction d as [|x d IH]; cbn [indexByte]; [intros; apply not_elem_of_nil|].
  case_decide; [done|].
  destruct (indexByte d c); cbn; [done|]. intros _.
  rewrite elem_of_cons. intros [?|?]; [congruence|by apply IH].
Qed.

Lemma indexByte_take d c i n :
  indexByte d c = Some i → (i < n)%nat → indexByte (take n d) c = Some i.
Proof.
  revert i n. induction d as [|x d IH]; intros i n; cbn [indexByte]; [done|].
  destruct n as [|n]; [lia|]. cbn [take indexByte].
  case_decide; [done|].
  destruct (indexByte d c) as [j|] eqn:E; cbn; [|done].
  intros [= <-] Hlt. rewrite (IH j n) by (done || lia). done.
Qed.

Lemma raw_lines_go_newline cur pre rest :
  newline ∉ pre →
  raw_lines_go cur (pre ++ newline :: rest) = (cur ++ pre) :: raw_lines_go [] rest.
Proof.
  revert cur. induction pre as [|x pre IH]; intros cur Hn; cbn [raw_lines_go app].
  - case_decide; [|done]. by rewrite app_nil_r.
  - rewrite not_elem_of_cons in Hn. destruct Hn as [Hx Hp].
    case_decide; [congruence|]. rewrite IH by done.
    by rewrite <- app_assoc.
Qed.

Lemma raw_lines_go_last cur d :
  newline ∉ d → cur ++ d ≠ [] → raw_lines_go cur d = [cur ++ d].
Proof.
  revert cur. induction d as [|x d IH]; intros cur Hn Hne; cbn [raw_lines_go].
  - rewrite app_nil_r in *. by destruct cur.
  - rewrite not_elem_of_cons in Hn. destruct Hn as [Hx Hp].
    case_decide; [congruence|]. rewrite IH; [|done|].
    + by rewrite <- app_assoc.
    + by destruct cur.
Qed.

Lemma scanLoop_lines fuel d rerr acc :
  (length d < fuel)%nat →
  Forall (λ l, (length l < maxTokenSize)%nat) (raw_lines_go [] d) →
  scanLoop fuel (mkScanner d rerr None) acc
  = (mkScanner [] rerr rerr, insert_all (raw_lines_go [] d) acc).
Proof.
  revert d acc. induction fuel as [|fuel IH]; intros d acc Hfuel Hall; [lia|].
  cbn [scanLoop]. unfold Scan. cbn [scan_err unread reader_err].
  destruct d as [|x d'] eqn:Ed.
  { (* nothing left: the reader reports its end *)
    rewrite bool_decide_true by (pose proof maxTokenSize_pos; cbn [length]; lia).
    cbn. by destruct rerr. }
  rewrite <- Ed in *. assert (d ≠ []) as Hd by (by subst).
  clear Ed x d'.
  destruct (indexByte d newline) as [i|] eqn:Ei.
  - destruct (indexByte_Some _ _ _ Ei) as (Hsplit & Hfresh & Hi).
    rewrite Hsplit in Hall. rewrite raw_lines_go_newline in Hall by done.
    apply Forall_cons in Hall as [Hlen Hall]. cbn [app] in Hlen.
    rewrite length_take in Hlen.
    assert (i < maxTokenSize)%nat as HiM by lia.
    pose proof (indexByte_take _ _ _ maxTokenSize Ei HiM) as Ew.
    unfold ScanLines. rewrite Ew.
    assert (length (take maxTokenSize d) ≠ 0%nat) as Hw.
    { rewrite length_take. pose proof maxTokenSize_pos.
      destruct d; [done|]. cbn [length]. lia. }
    rewrite (bool_decide_false (length _ = 0%nat)) by done.
    rewrite andb_false_r.
    rewrite take_take. replace (i `min` maxTokenSize)%nat with i by lia.
    rewrite IH.
    + f_equal.
      assert (raw_lines_go [] d = take i d :: raw_lines_go [] (drop (S i) d))
        as ->; [|done].
      transitivity (raw_lines_go [] (take i d ++ newline :: drop (S i) d));
        [by rewrite <- Hsplit|].
      by rewrite raw_lines_go_newline.
    + rewrite length_drop. lia.
    + done.
  - pose proof (indexByte_None _ _ Ei) as Hfresh.
    rewrite raw_lines_go_last in Hall by done.
    rewrite Forall_singleton in Hall. cbn [app] in Hall.
    rewrite (bool_decide_true (length d < maxTokenSize)%nat) by lia.
    rewrite take_ge by lia.
    unfold ScanLines. rewrite Ei.
    rewrite (bool_decide_false (length d = 0%nat)) by (by destruct d).
    cbn [andb]. rewrite drop_all.
    assert (0 < length d)%nat by (destruct d; [done|cbn [length]; lia]).
    destruct fuel as [|fuel]; [lia|].
    rewrite raw_lines_go_last by done. cbn [insert_all foldl app].
    cbn [scanLoop]. unfold Scan. cbn [scan_err unread reader_err].
    rewrite bool_decide_true by (pose proof maxTokenSize_pos; cbn [length]; lia).
    cbn. by destruct rerr.
Qed.

Lemma insert_all_lookup ls m a :
  insert_all ls m !! a
  = if decide (a ∈ (λ l, string_of_list_ascii (dropCR l)) <$> ls)
    then Some true else m !! a.
Proof.
  revert m. induction ls as [|l ls IH]; intros m;
    cbn [insert_all foldl fmap list_fmap].
  - case_decide as Hin; [|done]. by apply elem_of_nil in Hin.
  - fold (insert_all ls (<[string_of_list_ascii (dropCR l):=true]> m)).
    rewrite IH.
    destruct (decide (a ∈ (λ l, string_of_list_ascii (dropCR l)) <$> ls))
      as [Hin|Hnin].
    + rewrite decide_True by (apply elem_of_cons; by right). done.
    + destruct (decide (a = string_of_list_ascii (dropCR l))) as [->|Hne].
      * rewrite decide_True by (apply elem_of_cons; by left).
        by rewrite lookup_insert_eq.
      * rewrite decide_False by (rewrite elem_of_cons; by intros [?|?]).
        by rewrite lookup_insert_ne.
Qed.

Lemma insert_all_set ls :
  insert_all ls ∅
  = gset_to_gmap true (list_to_set ((λ l, string_of_list_ascii (dropCR l)) <$> ls)).
Proof.
  apply map_eq. intros a. rewrite insert_all_lookup, lookup_gset_to_gmap.
  case_decide as Hin.
  - rewrite option_guard_True; [done|]. by apply elem_of_list_to_set.
  - rewrite option_guard_False; [by rewrite lookup_empty|].
    by rewrite elem_of_list_to_set.
Qed.

Lemma size_set_of_list (ls : list string) :
  size (list_to_set ls : gset string) = length (remove_dups ls).
Proof.
  rewrite <- (size_list_to_set (C:=gset string) (remove_dups ls))
    by apply NoDup_remove_dups.
  f_equal. apply set_eq. intros x.
  by rewrite !elem_of_list_to_set, elem_of_remove_dups.
Qed.

Lemma readAddresses_loads fs filePath f :
  files fs !! filePath = Some f →
  can_read f = true →
  read_fault f = None →
  Forall (λ l, (length l < maxTokenSize)%nat) (raw_lines (content f)) →
  ∃ addresses,
    readAddresses fs filePath = inr addresses
    ∧ addresses = gset_to_gmap true (list_to_set (lines_of (content f)))
    ∧ size addresses = length (remove_dups (lines_of (content f)))
    ∧ ∀ a, exists_in addresses a = true ↔ a ∈ lines_of (content f).
Proof.
  intros Hf Hr Hfault Hshort.
  unfold readAddresses, osOpen. rewrite Hf, Hr.
  unfold NewScanner. cbn [unread]. rewrite Hfault.
  rewrite scanLoop_lines by (done || lia). cbn [scan_err].
  eexists. split; [done|].
  fold (raw_lines (content f)). rewrite insert_all_set. fold (lines_of (content f)).
  split_and!; [done| |].
  - rewrite <- size_dom, dom_gset_to_gmap. apply size_set_of_list.
  - intros a. unfold exists_in. rewrite bool_decide_eq_true.
    rewrite lookup_gset_to_gmap. rewrite <- (elem_of_list_to_set (C:=gset string)).
    destruct (decide (a ∈ (list_to_set (lines_of (content f)) : gset string))).
    + rewrite option_guard_True by done. split; [done|by eexists].
    + rewrite option_guard_False by done. split; [by intros [? ?]|done].
Qed.

Lemma indexByte_take_None d c i n :
  indexByte d c = Some i → (n ≤ i)%nat → indexByte (take n d) c = None.
Proof.
  revert i n. induction d as [|x d IH]; intros i n; cbn [indexByte]; [done|].
  destruct n as [|n]; [done|]. cbn [take indexByte].
  case_decide; [intros [= <-]; lia|].
  destruct (indexByte d c) as [j|] eqn:E; cbn; [|done].
  intros [= <-] Hle. rewrite (IH j n) by (done || lia). done.
Qed.

Lemma indexByte_take_fresh d c n :
  indexByte d c = None → indexByte (take n d) c = None.
Proof.
  revert n. induction d as [|x d IH]; intros n; cbn [indexByte].
  - by destruct n.
  - destruct n as [|n]; [done|]. cbn [take indexByte].
    case_decide; [done|].
    destruct (indexByte d c) eqn:E; cbn; [done|]. intros _.
    by rewrite IH.
Qed.

(** A line that does not fit the buffer stops the Scanner with
    ErrTooLong. *)
Lemma scanLoop_too_long fuel d rerr acc :
  (length d < fuel)%nat →
  ¬ Forall (λ l, (length l < maxTokenSize)%nat) (raw_lines_go [] d) →
  scan_err (scanLoop fuel (mkScanner d rerr None) acc).1 = Some ErrTooLong.
Proof.
  revert d acc. induction fuel as [|fuel IH]; intros d acc Hfuel Hlong; [lia|].
  pose proof maxTokenSize_pos as HM.
  cbn [scanLoop]. unfold Scan. cbn [scan_err unread reader_err].
  destruct (decide (d = [])) as [->|Hd].
  { exfalso. apply Hlong. constructor. }
  assert (0 < length d)%nat as Hpos by (destruct d; [done|cbn [length]; lia]).
  destruct (indexByte d newline) as [i|] eqn:Ei.
  - destruct (indexByte_Some _ _ _ Ei) as (Hsplit & Hfresh & Hi).
    assert (raw_lines_go [] d = take i d :: raw_lines_go [] (drop (S i) d))
      as Hraw.
    { transitivity (raw_lines_go [] (take i d ++ newline :: drop (S i) d));
        [by rewrite <- Hsplit|]. by rewrite raw_lines_go_newline. }
    rewrite Hraw in Hlong.
    destruct (decide (i < maxTokenSize)%nat) as [HiM|HiM].
    + pose proof (indexByte_take _ _ _ maxTokenSize Ei HiM) as Ew.
      unfold ScanLines. rewrite Ew.
      rewrite (bool_decide_false (length _ = 0%nat))
        by (rewrite length_take; lia).
      rewrite andb_false_r. apply IH; [rewrite length_drop; lia|].
      intros Hrest. apply Hlong. constructor; [|done].
      rewrite length_take. lia.
    + pose proof (indexByte_take_None _ _ _ maxTokenSize Ei ltac:(lia)) as Ew.
      unfold ScanLines. rewrite Ew.
      rewrite (bool_decide_false (length d < maxTokenSize)%nat) by lia.
      done.
  - pose proof (indexByte_None _ _ Ei) as Hfresh.
    rewrite raw_lines_go_last in Hlong by done.
    rewrite Forall_singleton in Hlong. cbn [app] in Hlong.
    unfold ScanLines. rewrite (indexByte_take_fresh _ _ _ Ei).
    rewrite (bool_decide_false (length d < maxTokenSize)%nat) by lia.
    done.
Qed.

(** C5 (as amended): for every source that can be read and whose lines
    each fit the buffer of the Scanner (less than 64 KiB), loading yields
    a set, and whenever loading yields a set its members are exactly the
    distinct lines of the source: the map is the set of the lines
    (duplicates collapse, the order plays no part), its size is the number
    of distinct lines, and the membership test of the worker is exact,
    case-sensitive, equality with one of the lines.  A readable source
    with a line of 64 KiB or more is not loaded: the error of the Scanner
    is returned and no set. *)
Theorem readAddresses_distinct_lines fs filePath :
  (∀ addresses,
     readAddresses fs filePath = inr addresses →
     ∃ f, files fs !! filePath = Some f
          ∧ addresses = gset_to_gmap true (list_to_set (lines_of (content f)))
          ∧ size addresses = length (remove_dups (lines_of (content f)))
          ∧ ∀ a, exists_in addresses a = true ↔ a ∈ lines_of (content f))
  ∧ (∀ f, files fs !! filePath = Some f →
          can_read f = true → read_fault f = None →
          Forall (λ l, (length l < maxTokenSize)%nat) (raw_lines (content f)) →
          ∃ addresses, readAddresses fs filePath = inr addresses)
  ∧ (∀ f, files fs !! filePath = Some f →
          can_read f = true →
          ¬ Forall (λ l, (length l < maxTokenSize)%nat) (raw_lines (content f)) →
          readAddresses fs filePath = inl ErrTooLong).
Proof.
  assert (∀ f, files fs !! filePath = Some f → can_read f = true →
               ¬ Forall (λ l, (length l < maxTokenSize)%nat)
                   (raw_lines (content f)) →
               readAddresses fs filePath = inl ErrTooLong) as Hlong.
  { intros f Hf Hr Hlong. unfold readAddresses, osOpen. rewrite Hf, Hr.
    pose proof (scanLoop_too_long
                  (S (length (unread (NewScanner f))))
                  (unread (NewScanner f)) (read_fault f) ∅
                  ltac:(lia) Hlong) as Herr.
    unfold NewScanner in *. cbn [unread] in *.
    destruct (scanLoop _ _ _) as [s' m]. cbn [fst] in Herr.
    by rewrite Herr. }
  split_and!; [| |exact Hlong].
  - intros addresses Hload.
    destruct (files fs !! filePath) as [f|] eqn:Hf;
      [|by unfold readAddresses, osOpen in Hload; rewrite Hf in Hload].
    exists f. split; [done|].
    assert (can_read f = true) as Hr.
    { unfold readAddresses, osOpen in Hload. rewrite Hf in Hload.
      by destruct (can_read f). }
    destruct (decide (Forall (λ l, (length l < maxTokenSize)%nat)
                        (raw_lines (content f)))) as [Hshort|Hnot].
    + assert (read_fault f = None) as Hfault.
      { unfold readAddresses, osOpen in Hload. rewrite Hf, Hr in Hload.
        unfold NewScanner in Hload. cbn [unread] in Hload.
        rewrite scanLoop_lines in Hload by (done || lia).
        cbn [scan_err] in Hload. by destruct (read_fault f). }
      destruct (readAddresses_loads fs filePath f Hf Hr Hfault Hshort)
        as (addresses' & Hload' & Hrest).
      rewrite Hload in Hload'. injection Hload' as <-. exact Hrest.
    + by rewrite (Hlong f eq_refl Hr Hnot) in Hload.
  - intros f Hf Hr Hfault Hshort.
    destruct (readAddresses_loads fs filePath f Hf Hr Hfault Hshort)
      as (addresses & Hload & _). by exists addresses.
Qed.
End ReadAddressesFacts.

(** ** bufferPool and generateKeyAndAddress *)

Section KeyGenFacts.
Import KeyGen.
Context `{Crypto}.

Lemma outstanding_app h1 h2 :
  outstanding (h1 ++ h2) = outstanding h1 + outstanding h2.
Proof.
  induction h1 as [|[a|a] h1 IH]; cbn [app outstanding]; lia.
Qed.

Lemma append_history s bs st :
  history (append s bs st).2 = history st ∧ idle (append s bs st).2 = idle st.
Proof. unfold append. by case_bool_decide. Qed.

Lemma poolGet_history pick st :
  history (poolGet pick st).2 = history st ++ [PoolGet (array (poolGet pick st).1)].
Proof.
  unfold poolGet.
  destruct (pick ≫= _) as [[i x]|]; cbn; done.
Qed.

Lemma append_elems s bs st : elems (append s bs st).1 = elems s ++ bs.
Proof. unfold append. by case_bool_decide. Qed.

Lemma generateKeyAndAddress_result rng pick st :
  (generateKeyAndAddress rng pick st).1
  = match rng with
    | inl err => inl err
    | inr key => inr (key, address_of key)
    end.
Proof.
  destruct rng as [err|key]; cbn [generateKeyAndAddress]; [done|].
  destruct (poolGet pick st) as [got st1].
  destruct (append (reslice0 got) [x00] st1) as [b1 st2] eqn:E1.
  destruct (append b1 (Hash160 (SerializeCompressed key)) st2) as [b2 st3] eqn:E2.
  destruct (append b2 (take 4 (Sum256 (Sum256 (elems b2)))) st3) as [b3 st4] eqn:E3.
  pose proof (append_elems (reslice0 got) [x00] st1) as He1.
  pose proof (append_elems b1 (Hash160 (SerializeCompressed key)) st2) as He2.
  pose proof (append_elems b2 (take 4 (Sum256 (Sum256 (elems b2)))) st3) as He3.
  rewrite E1 in He1. rewrite E2 in He2. rewrite E3 in He3. cbn [fst snd] in *.
  unfold address_of. rewrite He3, He2, He1. done.
Qed.

(** C9: every invocation of generateKeyAndAddress gives back what it took
    from the pool.  When btcec.NewPrivateKey fails nothing has been taken
    and the pool is untouched; otherwise exactly one buffer is taken, and
    the same buffer, emptied, is put back as the last action, whatever the
    appends did in between; the pair returned holds the key and a fresh
    string, which do not depend on the state of the pool. *)
Theorem generateKeyAndAddress_returns_buffer rng pick st :
  let '(res, st') := generateKeyAndAddress rng pick st in
  outstanding (history st') = outstanding (history st)
  ∧ match rng with
    | inl err => res = inl err ∧ st' = st
    | inr key =>
        let buf := (poolGet pick st).1 in
        history st' = history st ++ [PoolGet (array buf); PoolPut (array buf)]
        ∧ idle st' = reslice0 buf :: idle (poolGet pick st).2
        ∧ res = inr (key, address_of key)
    end.
Proof.
  destruct rng as [err|key]; cbn [generateKeyAndAddress]; [done|].
  destruct (poolGet pick st) as [got st1] eqn:Eg.
  destruct (append (reslice0 got) [x00] st1) as [b1 st2] eqn:E1.
  destruct (append b1 (Hash160 (SerializeCompressed key)) st2) as [b2 st3] eqn:E2.
  destruct (append b2 (take 4 (Sum256 (Sum256 (elems b2)))) st3) as [b3 st4] eqn:E3.
  pose proof (poolGet_history pick st) as Hg. rewrite Eg in Hg. cbn in Hg.
  pose proof (append_history (reslice0 got) [x00] st1) as [Hh1 Hi1].
  pose proof (append_history b1 (Hash160 (SerializeCompressed key)) st2) as [Hh2 Hi2].
  pose proof (append_history b2 (take 4 (Sum256 (Sum256 (elems b2)))) st3) as [Hh3 Hi3].
  pose proof (append_elems (reslice0 got) [x00] st1) as He1.
  pose proof (append_elems b1 (Hash160 (SerializeCompressed key)) st2) as He2.
  pose proof (append_elems b2 (take 4 (Sum256 (Sum256 (elems b2)))) st3) as He3.
  rewrite E1 in Hh1, Hi1, He1. rewrite E2 in Hh2, Hi2, He2.
  rewrite E3 in Hh3, Hi3, He3. cbn [fst snd] in *.
  assert (history (poolPut (reslice0 got) st4)
          = history st ++ [PoolGet (array got); PoolPut (array got)]) as Hhist.
  { cbn [poolPut history reslice0 array]. rewrite Hh3, Hh2, Hh1, Hg.
    by rewrite <- app_assoc. }
  split_and!.
  - rewrite Hhist, outstanding_app. cbn [outstanding]. lia.
  - done.
  - cbn [poolPut idle]. by rewrite Hi3, Hi2, Hi1.
  - unfold address_of. rewrite He3, He2, He1. cbn [reslice0 elems app]. done.
Qed.

End KeyGenFacts.

(** ** The worker loop and the shared counter *)

Section PipelineFacts.
Import Bufio KeyGen Pipeline.
Context `{Crypto}.
Variable cfg : Config.

Local Opaque uint64_mod.

Lemma sumZ_insert f ws i w w' :
  ws !! i = Some w → sumZ f (<[i := w']> ws) = sumZ f ws - f w + f w'.
Proof.
  revert i. induction ws as [|x ws IH]; intros [|i] Hi; try done.
  - injection Hi as ->. change (<[0%nat:=w']> (w :: ws)) with (w' :: ws).
    cbn [sumZ]. lia.
  - change (<[S i:=w']> (x :: ws)) with (x :: <[i:=w']> ws).
    cbn [sumZ]. rewrite (IH i Hi). lia.
Qed.

Lemma sumZ_nonneg f ws : Forall (λ w, 0 ≤ f w) ws → 0 ≤ sumZ f ws.
Proof. induction 1; cbn; lia. Qed.

Lemma sumZ_zero f ws :
  Forall (λ w, 0 ≤ f w) ws → sumZ f ws = 0 → Forall (λ w, f w = 0) ws.
Proof.
  induction 1 as [|w ws Hw Hws IH]; cbn [sumZ]; [constructor|].
  intros Hsum. pose proof (sumZ_nonneg f ws Hws).
  constructor; [lia|apply IH; lia].
Qed.

Lemma sumZ_replicate f n w : sumZ f (replicate n w) = Z.of_nat n * f w.
Proof. induction n as [|n IH]; cbn [replicate sumZ]; lia. Qed.

Lemma worker_ok_floor w :
  worker_ok w →
  added w = updateInterval * (generated w / updateInterval)
  ∧ localCounter w = generated w mod updateInterval.
Proof.
  unfold worker_ok, updateInterval. intros (Hlc & Hadd & Hgen & [q Hq]).
  assert (generated w = 10000 * q + localCounter w) as Hg by lia.
  rewrite <- (Z.div_unique_pos _ _ _ _ Hlc Hg).
  rewrite <- (Z.mod_unique_pos _ _ _ _ Hlc Hg). lia.
Qed.

Lemma wrap64_small z : 0 ≤ z < 2 ^ 64 → wrap64 z = z.
Proof. intros. unfold wrap64. Transparent uint64_mod. unfold uint64_mod. Opaque uint64_mod. by apply Z.mod_small. Qed.

Lemma bump_ok w : worker_ok w → worker_ok (bump w).
Proof.
  unfold worker_ok, bump, updateInterval. intros (Hlc & Hadd & Hgen & [q Hq]).
  rewrite wrap64_small by lia. cbn [localCounter added generated].
  case_bool_decide as Hm.
  - assert (localCounter w + 1 = 10000) as Hfull.
    { destruct (decide (localCounter w + 1 = 10000)) as [|Hne]; [done|].
      rewrite Z.mod_small in Hm by lia. lia. }
    split_and!; try lia. exists (q + 1). lia.
  - split_and!; try lia.
    + destruct (decide (localCounter w + 1 = 10000)) as [E|]; [|lia].
      rewrite E in Hm. done.
    + by exists q.
Qed.

Lemma wrap64_add_l a b : wrap64 (wrap64 a + b) = wrap64 (a + b).
Proof. unfold wrap64. apply Zplus_mod_idemp_l. Qed.

Lemma wrap64_range z : 0 ≤ wrap64 z < 2 ^ 64.
Proof.
  unfold wrap64. Transparent uint64_mod. unfold uint64_mod. Opaque uint64_mod.
  apply Z.mod_pos_bound. lia.
Qed.

(** *** The parked senders *)

Lemma waiting_insert_fresh (ws : list WorkerState) id w' (q : list nat) :
  id ∉ q →
  omap (λ j, <[id := w']> ws !! j ≫= parked) q = omap (λ j, ws !! j ≫= parked) q.
Proof.
  induction q as [|j q IH]; [done|].
  rewrite not_elem_of_cons. intros [Hne Hq]. cbn [omap list_omap].
  rewrite list_lookup_insert_ne by done. by rewrite IH.
Qed.

Lemma waiting_park (ws : list WorkerState) id w' r (q : list nat) :
  id ∉ q → (id < length ws)%nat → parked w' = Some r →
  omap (λ j, <[id := w']> ws !! j ≫= parked) (q ++ [id])
  = omap (λ j, ws !! j ≫= parked) q ++ [r].
Proof.
  intros Hq Hlt Hr. rewrite omap_app, waiting_insert_fresh by done.
  f_equal. cbn [omap list_omap]. rewrite list_lookup_insert_eq by done.
  cbn. by rewrite Hr.
Qed.

(** *** One iteration of a worker *)

Lemma worker_iter_fail id err pick w s :
  worker_iter cfg id (inl err) pick w s
  = mkSystem (counter s) (matchChan s) (sendq s) (workers s) (pool s)
      (consumer s) (logs s ++ [LogGenerateFailed id err]) (stdout s)
      (exited s) (submitted s) (dequeued s).
Proof. done. Qed.

Lemma worker_iter_ok id key pick w s :
  ∃ pool',
    worker_iter cfg id (inr key) pick w s
    = let counter' := if flushes w then wrap64 (counter s + updateInterval)
                      else counter s in
      if ReadAddresses.exists_in (btcAddresses cfg) (address_of key)
      then send id (bump w) (mkMatch key (address_of key))
             (mkSystem counter' (matchChan s) (sendq s) (workers s) pool'
                (consumer s) (logs s)
                (stdout s ++ [PrintMatchFound (address_of key)])
                (exited s) (submitted s) (dequeued s))
      else mkSystem counter' (matchChan s) (sendq s)
             (<[id := bump w]> (workers s)) pool' (consumer s) (logs s)
             (stdout s) (exited s) (submitted s) (dequeued s).
Proof.
  unfold worker_iter.
  pose proof (generateKeyAndAddress_result (inr key) pick (pool s)) as Hres.
  destruct (generateKeyAndAddress (inr key) pick (pool s)) as [res pool'].
  cbn [fst] in Hres. subst res. exists pool'. done.
Qed.

Lemma counter_after_bump s w i :
  counter s = wrap64 (total_added s) → workers s !! i = Some w →
  (if flushes w then wrap64 (counter s + updateInterval) else counter s)
  = wrap64 (sumZ added (<[i := bump w]> (workers s))).
Proof.
  intros Hc Hi. rewrite (sumZ_insert _ _ _ _ _ Hi).
  unfold bump, flushes. cbn [added]. fold (total_added s).
  case_bool_decide.
  - rewrite Hc, wrap64_add_l. f_equal. lia.
  - rewrite Hc. f_equal. lia.
Qed.


Lemma lookup_insert_parked (ws : list WorkerState) id w' id' :
  (id < length ws)%nat →
  (∃ w r, <[id := w']> ws !! id' = Some w ∧ parked w = Some r)
  ↔ (id' = id ∧ ∃ r, parked w' = Some r)
    ∨ (id' ≠ id ∧ ∃ w r, ws !! id' = Some w ∧ parked w = Some r).
Proof.
  intros Hlt. destruct (decide (id' = id)) as [->|Hne].
  - rewrite list_lookup_insert_eq by done. split.
    + intros (w & r & [= <-] & Hr). left. eauto.
    + intros [[_ [r Hr]]|[? _]]; [eauto|done].
  - rewrite list_lookup_insert_ne by done. split.
    + intros Hex. right. eauto.
    + intros [[? _]|[_ Hex]]; [done|eauto].
Qed.

Lemma sumZ_insert_ext f (ws : list WorkerState) i w w1 w2 :
  ws !! i = Some w → f w1 = f w2 →
  sumZ f (<[i := w1]> ws) = sumZ f (<[i := w2]> ws).
Proof. intros Hi Hf. rewrite !(sumZ_insert _ _ _ _ _ Hi). lia. Qed.

Lemma worker_ok_counters w w' :
  localCounter w' = localCounter w → generated w' = generated w →
  added w' = added w → worker_ok w → worker_ok w'.
Proof. unfold worker_ok. by intros -> -> ->. Qed.

Lemma not_parked_not_queued s id w :
  Inv s → workers s !! id = Some w → parked w = None → id ∉ sendq s.
Proof.
  intros HI Hw Hp Hin. apply (inv_parked s HI) in Hin as (w' & r & Hw' & Hr).
  congruence.
Qed.

Lemma worker_iter_inv s id w rng pick :
  Inv s → workers s !! id = Some w → parked w = None →
  Inv (worker_iter cfg id rng pick w s).
Proof.
  intros HI Hw Hp.
  pose proof (not_parked_not_queued s id w HI Hw Hp) as Hnq.
  pose proof (lookup_lt_Some _ _ _ Hw) as Hlt.
  assert (worker_ok w) as Hok
    by (eapply Forall_lookup_1; [apply (inv_workers s HI)|done]).
  destruct HI as [Hws Hc Hcap Hfull Hnd Hpk Hcons Hst].
  destruct rng as [err|key].
  { rewrite worker_iter_fail. by constructor. }
  destruct (worker_iter_ok id key pick w s) as [pool' ->]. cbn zeta.
  destruct (ReadAddresses.exists_in _ _).
  - unfold send. cbn [matchChan sendq workers counter pool consumer logs
                        stdout exited submitted dequeued].
    case_bool_decide as Hroom.
    + assert (sendq s = []) as Hq.
      { destruct (sendq s) eqn:E; [done|]. rewrite Hfull in Hroom by done. lia. }
      constructor; cbn [matchChan sendq workers counter consumer submitted dequeued].
      * apply Forall_insert; [done|by apply bump_ok].
      * unfold total_added. cbn [workers]. by apply counter_after_bump.
      * rewrite length_app. cbn [length]. lia.
      * by rewrite Hq.
      * done.
      * intros id'. rewrite lookup_insert_parked by done. rewrite Hpk.
        split.
        -- intros Hex. right. split; [|done]. intros ->.
           destruct Hex as (? & ? & ? & ?). congruence.
        -- intros [[_ [r Hr]]|[_ Hex]]; [done|done].
      * unfold waiting in *. cbn [workers sendq]. rewrite Hq in *. cbn in *.
        rewrite Hcons. by rewrite ?app_nil_r, <- ?app_assoc.
      * done.
    + constructor; cbn [matchChan sendq workers counter consumer submitted dequeued].
      * apply Forall_insert; [done|].
        eapply worker_ok_counters; [..|by apply (bump_ok w)]; done.
      * unfold total_added. cbn [workers].
        rewrite (sumZ_insert_ext added _ _ w _ (bump w)) by done.
        by apply counter_after_bump.
      * done.
      * intros _. lia.
      * apply NoDup_app. split_and!; [done| |apply NoDup_singleton].
        intros x Hx ->%list_elem_of_singleton. done.
      * intros id'. rewrite lookup_insert_parked by done.
        rewrite elem_of_app, list_elem_of_singleton, Hpk. cbn [parked].
        split.
        -- intros [Hex| ->]; [|left; eauto].
           right. split; [|done]. intros ->.
           destruct Hex as (? & ? & ? & ?). congruence.
        -- intros [[-> _]|[_ Hex]]; [by right|by left].
      * unfold waiting in *. cbn [workers sendq].
        rewrite (waiting_park _ _ _ (mkMatch key (address_of key))) by done.
        rewrite Hcons. by rewrite <- !app_assoc.
      * done.
  - constructor; cbn [matchChan sendq workers counter consumer submitted dequeued].
    + apply Forall_insert; [done|by apply bump_ok].
    + unfold total_added. cbn [workers]. by apply counter_after_bump.
    + done.
    + done.
    + done.
    + intros id'. rewrite lookup_insert_parked by done. rewrite Hpk.
      split.
      * intros Hex. right. split; [|done]. intros ->.
        destruct Hex as (? & ? & ? & ?). congruence.
      * intros [[_ [r Hr]]|[_ Hex]]; [done|done].
    + unfold waiting in *. cbn [workers sendq].
      by rewrite waiting_insert_fresh.
    + done.
Qed.


(** *** The receive of the consumer *)

Lemma recv_inv s m s' :
  Inv s → consumer s ≠ Starting → recv s = Some (m, s') →
  Inv s' ∧ (∃ rest, matchChan s = m :: rest) ∧ dequeued s' = dequeued s ++ [m]
  ∧ consumer s' = consumer s ∧ exited s' = exited s ∧ logs s' = logs s
  ∧ stdout s' = stdout s ∧ counter s' = counter s
  ∧ submitted s' = submitted s.
Proof.
  intros [Hws Hc Hcap Hfull Hnd Hpk Hcons Hst] Hdr. unfold recv.
  destruct (matchChan s) as [|m0 rest] eqn:Ech; [done|].
  destruct (sendq s) as [|id q] eqn:Eq.
  - intros [= <- <-]. split_and!; try done; [|by eexists].
    constructor; cbn [matchChan sendq workers counter consumer submitted dequeued].
    + done.
    + done.
    + cbn [length] in Hcap. lia.
    + done.
    + constructor.
    + intros id. rewrite <- Hpk. done.
    + unfold waiting in *. rewrite Eq in Hcons. cbn [workers sendq] in *.
      rewrite Hcons. by rewrite <- !app_assoc.
    + done.
  - destruct (workers s !! id) as [w|] eqn:Ew; [|done].
    destruct (parked w) as [r|] eqn:Er; [|done].
    intros [= <- <-]. split_and!; try done; [|by eexists].
    pose proof (lookup_lt_Some _ _ _ Ew) as Hlt.
    apply NoDup_cons in Hnd as [Hidq Hndq].
    constructor; cbn [matchChan sendq workers counter consumer submitted dequeued].
    + apply Forall_insert; [done|].
      eapply worker_ok_counters;
        [..|eapply Forall_lookup_1; [apply Hws|apply Ew]]; done.
    + rewrite Hc. unfold total_added. cbn [workers]. f_equal. symmetry.
      rewrite (sumZ_insert _ _ _ _ _ Ew). cbn [added]. lia.
    + rewrite length_app. cbn [length] in *. lia.
    + intros _. rewrite length_app. cbn [length].
      rewrite <- Hfull by done. cbn [length]. lia.
    + done.
    + intros id'. rewrite lookup_insert_parked by done. cbn [parked].
      rewrite <- Hpk, elem_of_cons. split.
      * intros Hin. right. split; [|by right]. by intros ->.
      * intros [[_ [? ?]]|[Hne [?|?]]]; done.
    + unfold waiting in *. rewrite Eq in Hcons. cbn [workers sendq] in *.
      rewrite waiting_insert_fresh by done.
      cbn [omap list_omap] in Hcons. rewrite Ew in Hcons. cbn in Hcons.
      rewrite Er in Hcons. rewrite Hcons. by rewrite <- !app_assoc.
    + done.
Qed.

Lemma initial_inv n : Inv (initial n).
Proof.
  constructor; cbn; try done.
  - apply Forall_replicate. unfold worker_ok, updateInterval. cbn.
    split_and!; try lia. by exists 0.
  - unfold total_added. cbn [workers initial]. rewrite sumZ_replicate. cbn.
    rewrite Z.mul_0_r. by rewrite wrap64_small.
  - unfold matchChanCap. lia.
  - constructor.
  - intros id. rewrite elem_of_nil. split; [done|].
    intros (w & r & Hw & Hr). apply lookup_replicate in Hw as [-> _]. done.
Qed.

Lemma step_inv l s s' : Inv s → step cfg l s = Some s' → Inv s'.
Proof.
  intros HI. unfold step. destruct (exited s); [done|].
  destruct l as [id rng pick| |].
  - destruct (workers s !! id) as [w|] eqn:Ew; [|done].
    destruct (parked w) eqn:Ep; [done|]. intros [= <-].
    by apply worker_iter_inv.
  - destruct (consumer s) eqn:Ec; [|done]. intros [= <-].
    unfold writer_open. destruct HI. destruct (openOutput cfg);
      constructor; cbn; done.
  - destruct (consumer s) as [|b f] eqn:Ec; [done|].
    destruct (recv s) as [[m s1]|] eqn:Er; [|done].
    destruct (write_match m b f) as [[[logged printed] b'] f'].
    intros [= <-].
    destruct (recv_inv _ _ _ HI ltac:(by rewrite Ec) Er) as (HI1 & _).
    destruct HI1. constructor; cbn; try done.
Qed.

Lemma run_inv t s s' : Inv s → run cfg t s = Some s' → Inv s'.
Proof.
  revert s. induction t as [|l t IH]; intros s HI; cbn [run].
  - by intros [= <-].
  - destruct (step cfg l s) as [s1|] eqn:Es; [|done].
    intros Hr. eapply IH; [|done]. by eapply step_inv.
Qed.

Lemma reachable_inv n t s : run cfg t (initial n) = Some s → Inv s.
Proof. apply run_inv, initial_inv. Qed.


(** *** The counter along a run *)

Lemma sumZ_ok ws :
  Forall worker_ok ws →
  sumZ generated ws = sumZ added ws + sumZ localCounter ws
  ∧ 0 ≤ sumZ added ws
  ∧ 0 ≤ sumZ localCounter ws ≤ (updateInterval - 1) * Z.of_nat (length ws)
  ∧ (updateInterval | sumZ added ws).
Proof.
  induction 1 as [|w ws (Hlc & Hadd & Hgen & Hdiv) Hws (IH1 & IH2 & IH3 & IH4)];
    cbn [sumZ length].
  - split_and!; try lia. by exists 0.
  - split_and!; try lia. by apply Z.divide_add_r.
Qed.

Lemma worker_iter_counters id key pick w s :
  workers s !! id = Some w →
  let s' := worker_iter cfg id (inr key) pick w s in
  counter s' = (if flushes w then wrap64 (counter s + updateInterval)
                else counter s)
  ∧ sumZ added (workers s')
    = sumZ added (workers s) + (if flushes w then updateInterval else 0)
  ∧ sumZ generated (workers s') = sumZ generated (workers s) + 1
  ∧ length (workers s') = length (workers s).
Proof.
  intros Hw. cbn zeta.
  destruct (worker_iter_ok id key pick w s) as [pool' ->]. cbn zeta.
  assert (added (bump w) = added w + (if flushes w then updateInterval else 0))
    as Hadd.
  { unfold bump, flushes. cbn [added]. case_bool_decide; lia. }
  destruct (ReadAddresses.exists_in _ _).
  - unfold send. cbn [matchChan sendq workers counter pool consumer logs
                        stdout exited submitted dequeued].
    case_bool_decide; cbn [workers counter];
      rewrite !(sumZ_insert _ _ _ _ _ Hw), length_insert;
      cbn [added generated]; rewrite ?Hadd; cbn [bump generated];
      split_and!; try done; lia.
  - cbn [workers counter].
    rewrite !(sumZ_insert _ _ _ _ _ Hw), length_insert;
      cbn [added generated]; rewrite ?Hadd; cbn [bump generated];
      split_and!; try done; lia.
Qed.

Lemma recv_workers s m s' :
  recv s = Some (m, s') →
  sumZ added (workers s') = sumZ added (workers s)
  ∧ sumZ generated (workers s') = sumZ generated (workers s)
  ∧ length (workers s') = length (workers s).
Proof.
  unfold recv. destruct (matchChan s); [done|]. destruct (sendq s) as [|id q].
  - by intros [= <- <-].
  - destruct (workers s !! id) as [w|] eqn:Ew; [|done].
    destruct (parked w); [|done]. intros [= <- <-]. cbn [workers].
    rewrite !(sumZ_insert _ _ _ _ _ Ew), length_insert. cbn. lia.
Qed.

Local Ltac same_counter :=
  split_and!; first [done | lia | left; split; (done || lia)].

(** Every step leaves the counter alone or adds one full batch to it. *)
Lemma step_counter l s s' :
  step cfg l s = Some s' →
  ((counter s' = counter s ∧ total_added s' = total_added s)
   ∨ (counter s' = wrap64 (counter s + updateInterval)
      ∧ total_added s' = total_added s + updateInterval))
  ∧ total_generated s ≤ total_generated s' ≤ total_generated s + 1
  ∧ length (workers s') = length (workers s).
Proof.
  unfold step, total_added, total_generated. destruct (exited s); [done|].
  destruct l as [id rng pick| |].
  - destruct (workers s !! id) as [w|] eqn:Ew; [|done].
    destruct (parked w) eqn:Ep; [done|]. intros [= <-].
    destruct rng as [err|key].
    { rewrite worker_iter_fail. cbn. same_counter. }
    destruct (worker_iter_counters id key pick w s Ew) as (Hc & Ha & Hg & Hl).
    rewrite Hc, Ha, Hg, Hl. destruct (flushes w).
    + split_and!; [right; split; (done || lia)|lia..|done].
    + same_counter.
  - destruct (consumer s); [|done]. intros [= <-]. unfold writer_open.
    destruct (openOutput cfg); cbn; same_counter.
  - destruct (consumer s) as [|b f]; [done|].
    destruct (recv s) as [[m s1]|] eqn:Er; [|done].
    destruct (write_match m b f) as [[[logged printed] b'] f'].
    intros [= <-]. cbn [counter workers].
    destruct (recv_workers _ _ _ Er) as (Ha & Hg & Hl).
    assert (counter s1 = counter s) as ->.
    { revert Er. unfold recv. destruct (matchChan s); [done|].
      destruct (sendq s) as [|id q]; [by intros [= <- <-]|].
      destruct (workers s !! id) as [w|]; [|done].
      destruct (parked w); [|done]. by intros [= <- <-]. }
    rewrite Ha, Hg, Hl. same_counter.
Qed.

Lemma run_app t1 t2 s :
  run cfg (t1 ++ t2) s = run cfg t1 s ≫= run cfg t2.
Proof.
  revert s. induction t1 as [|l t1 IH]; intros s; cbn [app run]; [done|].
  destruct (step cfg l s); [apply IH|done].
Qed.

Lemma run_monotone t s s' :
  run cfg t s = Some s' →
  total_added s ≤ total_added s' ∧ total_generated s ≤ total_generated s'
  ∧ length (workers s') = length (workers s).
Proof.
  revert s. induction t as [|l t IH]; intros s; cbn [run].
  - intros [= <-]. lia.
  - destruct (step cfg l s) as [s1|] eqn:Es; [|done]. intros Hr.
    destruct (step_counter _ _ _ Es) as (Hc & Hg & Hl).
    destruct (IH _ Hr) as (? & ? & ?).
    unfold updateInterval in *. split_and!; [destruct Hc; lia|lia|congruence].
Qed.

(** The counter of a state that satisfies the invariant, while the true
    total is below 2^64. *)
Lemma counter_no_wrap s :
  Inv s → total_generated s < 2 ^ 64 →
  counter s = total_added s
  ∧ total_generated s = counter s + total_private s
  ∧ 0 ≤ total_private s ≤ (updateInterval - 1) * Z.of_nat (length (workers s))
  ∧ (updateInterval | counter s).
Proof.
  intros HI Hlt.
  destruct (sumZ_ok _ (inv_workers s HI)) as (Hsum & Ha & Hp & Hd).
  unfold total_generated, total_private in *.
  assert (counter s = total_added s) as Hc.
  { rewrite (inv_counter s HI). apply wrap64_small. unfold total_added. lia. }
  rewrite Hc. unfold total_added. done.
Qed.


Lemma sumZ_const f (ws : list WorkerState) c :
  (∀ w, w ∈ ws → f w = c) → sumZ f ws = Z.of_nat (length ws) * c.
Proof.
  induction ws as [|w ws IH]; intros Hall; cbn [sumZ length]; [lia|].
  rewrite (Hall w) by apply list_elem_of_here.
  rewrite IH by (intros; apply Hall; by apply list_elem_of_further). lia.
Qed.

Lemma reachable_workers n t s :
  run cfg t (initial n) = Some s → length (workers s) = n.
Proof.
  intros Hr. destruct (run_monotone _ _ _ Hr) as (_ & _ & ->).
  cbn. apply length_replicate.
Qed.

(** A single worker that never finds a match goes on for ever. *)
Lemma run_no_match key pick k s w :
  btcAddresses cfg = ∅ → exited s = None → workers s = [w] →
  parked w = None →
  ∃ s' w', run cfg (replicate k (WorkerIter 0 (inr key) pick)) s = Some s'
           ∧ exited s' = None ∧ workers s' = [w'] ∧ parked w' = None
           ∧ generated w' = generated w + Z.of_nat k.
Proof.
  intros Hbtc. revert s w. induction k as [|k IH]; intros s w Hex Hws Hp.
  - exists s, w. cbn [replicate run]. split_and!; try done. lia.
  - cbn [replicate run]. unfold step. rewrite Hex, Hws. cbn [lookup list_lookup].
    rewrite Hp.
    destruct (worker_iter_ok 0 key pick w s) as [pool' Hiter].
    rewrite Hiter. cbn zeta. unfold ReadAddresses.exists_in.
    rewrite Hbtc, lookup_empty, bool_decide_false by (by intros [? ?]).
    rewrite Hws.
    change (<[0%nat:=bump w]> [w]) with [bump w].
    match goal with
    | |- context [run cfg _ ?s1] =>
        destruct (IH s1 (bump w) Hex eq_refl eq_refl)
          as (s' & w' & Hrun & Hex' & Hws' & Hp' & Hg')
    end.
    exists s', w'. split; [exact Hrun|].
    split_and!; try done. rewrite Hg'. cbn [bump generated]. lia.
Qed.


Lemma sumZ_added_batches ws :
  Forall worker_ok ws →
  sumZ added ws
  = updateInterval * sumZ (λ w, generated w / updateInterval) ws.
Proof.
  induction 1 as [|w ws Hw Hws IH]; cbn [sumZ]; [lia|].
  destruct (worker_ok_floor w Hw) as [-> _]. rewrite IH. lia.
Qed.

(** C10: at every point of a run the shared counter is, as a uint64, the
    batch size 10000 times the number of batches the workers have
    completed, so it is an exact multiple of 10000 (the true total being
    below 2^64, where a uint64 wraps).  Every step leaves the counter alone
    or adds the full batch value to it: no step adds a partial batch, there
    is no flush.  The counter equals the true total of successful
    generations only when every worker's number of successes is a multiple
    of 10000, and then it does. *)
Theorem counter_multiple_of_batch n t s :
  run cfg t (initial n) = Some s →
  counter s
  = wrap64 (updateInterval
            * sumZ (λ w, generated w / updateInterval) (workers s))
  ∧ (total_generated s < 2 ^ 64 → (updateInterval | counter s))
  ∧ (∀ l s', step cfg l s = Some s' →
       counter s' = counter s ∨ counter s' = wrap64 (counter s + updateInterval))
  ∧ (counter s = total_generated s →
       ∀ w, w ∈ workers s → generated w mod updateInterval = 0)
  ∧ (total_generated s < 2 ^ 64 →
       (∀ w, w ∈ workers s → generated w mod updateInterval = 0) →
       counter s = total_generated s).
Proof.
  intros Hr. pose proof (reachable_inv _ _ _ Hr) as HI.
  destruct (sumZ_ok _ (inv_workers s HI)) as (Hsum & Ha & Hp & Hd).
  split_and!.
  - rewrite (inv_counter s HI). unfold total_added.
    by rewrite (sumZ_added_batches _ (inv_workers s HI)).
  - intros Hlt. by destruct (counter_no_wrap s HI Hlt) as (_ & _ & _ & ?).
  - intros l s' Hs. destruct (step_counter _ _ _ Hs) as ([[? _]|[? _]] & _); auto.
  - intros Heq w Hw.
    assert (total_generated s < 2 ^ 64) as Hlt.
    { rewrite <- Heq, (inv_counter s HI). apply wrap64_range. }
    destruct (counter_no_wrap s HI Hlt) as (Hc & Hg & Hpr & _).
    assert (total_private s = 0) as Hz by lia.
    assert (Forall (λ w, localCounter w = 0) (workers s)) as Hall.
    { apply sumZ_zero; [|done].
      eapply Forall_impl; [apply (inv_workers s HI)|].
      intros w' Hok. unfold worker_ok in Hok. lia. }
    rewrite Forall_forall in Hall. specialize (Hall w Hw).
    assert (worker_ok w) as Hok
      by (eapply Forall_forall; [apply (inv_workers s HI)|done]).
    destruct (worker_ok_floor w Hok) as (_ & Hm). congruence.
  - intros Hlt Hall.
    destruct (counter_no_wrap s HI Hlt) as (Hc & Hg & Hpr & _).
    assert (total_private s = 0) as Hz; [|lia].
    unfold total_private.
    rewrite (sumZ_const localCounter (workers s) 0); [lia|].
    intros w Hw.
    assert (worker_ok w) as Hok
      by (eapply Forall_forall; [apply (inv_workers s HI)|done]).
    destruct (worker_ok_floor w Hok) as (_ & ->). by apply Hall.
Qed.

(** *** A failure of the generator *)

(** C7: when the generator fails, the worker logs the failure and does
    nothing else in that iteration: its private counter, the shared
    counter, the channel, the console and the record of what was submitted
    are as before, the process has not exited, and the worker can run its
    next iteration at once.  This holds for any number of failures in a
    row. *)
Theorem worker_generator_failure id s w (errs : list (error * option nat)) :
  exited s = None → workers s !! id = Some w → parked w = None →
  run cfg ((λ e, WorkerIter id (inl e.1) e.2) <$> errs) s
  = Some (mkSystem (counter s) (matchChan s) (sendq s) (workers s) (pool s)
            (consumer s)
            (logs s ++ ((λ e, LogGenerateFailed id e.1) <$> errs))
            (stdout s) None (submitted s) (dequeued s))
  ∧ ∀ rng pick s',
      run cfg ((λ e, WorkerIter id (inl e.1) e.2) <$> errs) s = Some s' →
      is_Some (step cfg (WorkerIter id rng pick) s').
Proof.
  intros Hex Hw Hp.
  assert (run cfg ((λ e, WorkerIter id (inl e.1) e.2) <$> errs) s
          = Some (mkSystem (counter s) (matchChan s) (sendq s) (workers s)
                    (pool s) (consumer s)
                    (logs s ++ ((λ e, LogGenerateFailed id e.1) <$> errs))
                    (stdout s) None (submitted s) (dequeued s))) as Hrun.
  { revert s Hex Hw Hp. induction errs as [|[e pick] errs IH]; intros s Hex Hw Hp.
    - cbn. rewrite app_nil_r. destruct s; cbn in *. by subst.
    - cbn [fmap list_fmap run]. unfold step. rewrite Hex, Hw, Hp.
      rewrite worker_iter_fail. cbn [fst snd]. rewrite IH by done.
      cbn. by rewrite <- app_assoc. }
  split; [done|]. intros rng pick s'. rewrite Hrun. intros [= <-].
  unfold step. cbn. rewrite Hw, Hp. by eexists.
Qed.

End PipelineFacts.

(** ** Strings *)

Section StringFacts.

Lemma str_app_cons x (a b : string) : String x a +:+ b = String x (a +:+ b).
Proof. reflexivity. Qed.

Lemma str_app_nil_l (a : string) : "" +:+ a = a.
Proof. reflexivity. Qed.

Lemma str_app_assoc (a b c : string) : (a +:+ b) +:+ c = a +:+ (b +:+ c).
Proof.
  induction a as [|x a IH]; [done|]. by rewrite !str_app_cons, IH.
Qed.

Lemma str_app_nil_r (a : string) : a +:+ "" = a.
Proof. induction a as [|x a IH]; [done|]. by rewrite str_app_cons, IH. Qed.

Lemma str_length_app (a b : string) :
  String.length (a +:+ b) = (String.length a + String.length b)%nat.
Proof.
  induction a as [|x a IH]; [done|].
  rewrite str_app_cons. cbn [String.length]. by rewrite IH.
Qed.

Lemma length_list_ascii (s : string) :
  length (list_ascii_of_string s) = String.length s.
Proof. induction s as [|x s IH]; cbn; [done|]. by rewrite IH. Qed.

Lemma list_ascii_app (a b : string) :
  list_ascii_of_string (a +:+ b) = list_ascii_of_string a ++ list_ascii_of_string b.
Proof.
  induction a as [|x a IH]; [done|].
  rewrite str_app_cons. cbn [list_ascii_of_string app]. by rewrite IH.
Qed.

Lemma sdrop_all (s : string) : Bufio.sdrop (String.length s) s = "".
Proof.
  unfold Bufio.sdrop. rewrite <- length_list_ascii. by rewrite drop_all.
Qed.

End StringFacts.

(** ** The consumer *)

Section WriterFacts.
Import Bufio KeyGen Pipeline.
Context `{Crypto}.
Variable cfg : Config.

Lemma fileWrite_ok p f :
  Forall (λ o, o = WriteOk) (outcomes f) →
  fileWrite p f
  = (String.length p, None, mkOutFile (data f +:+ p) (tail (outcomes f)))
  ∧ Forall (λ o, o = WriteOk) (tail (outcomes f)).
Proof.
  unfold fileWrite. destruct (outcomes f) as [|o rest]; [done|].
  intros [-> Hrest]%Forall_cons. done.
Qed.

Lemma render_length m : (2 ≤ String.length (render m))%nat.
Proof. unfold render. rewrite !str_length_app. cbn. lia. Qed.

(** Writing a record when no earlier write has failed and the device
    accepts the next one: the line is in the file, nothing is left in the
    buffer, nothing is logged. *)
Lemma write_match_ok m f :
  Forall (λ o, o = WriteOk) (outcomes f) →
  write_match m NewWriter f
  = ([], PrintSavedToFile (Hex.EncodeToString (Serialize (privateKey m)))
           (address m),
     NewWriter, mkOutFile (data f +:+ render m) (tail (outcomes f))).
Proof.
  intros Hok. destruct (fileWrite_ok (render m) f Hok) as [Hw Hok'].
  pose proof (render_length m) as Hlen.
  unfold write_match, WriteString.
  cbn [WriteString_loop]. unfold Available, Buffered, NewWriter.
  cbn [wbuf werr String.length].
  rewrite (bool_decide_true (None = None)) by done. rewrite andb_true_r.
  rewrite (bool_decide_true (0%nat = 0%nat)) by done.
  case_bool_decide as Hbig.
  - (* longer than the buffer: written through *)
    rewrite Hw. rewrite sdrop_all. cbn [WriteString_loop werr wbuf].
    cbn [String.length]. unfold Available, Buffered. cbn [wbuf String.length].
    rewrite bool_decide_false by lia. cbn [andb werr wbuf].
    unfold Flush. cbn [werr wbuf]. unfold Buffered. cbn. done.
  - cbn [werr wbuf]. rewrite str_app_nil_l. unfold Flush. cbn [werr wbuf].
    unfold Buffered. cbn [wbuf].
    rewrite bool_decide_false by lia. rewrite Hw.
    rewrite bool_decide_false by lia. done.
Qed.

(** After a failed write on the device the record is lost and nothing is
    logged for it when its line fits the buffer: WriteString only copies,
    the error comes from Flush, whose result the loop does not look at. *)
Lemma write_match_flush_fails m f n err rest :
  (String.length (render m) ≤ defaultBufSize)%nat →
  outcomes f = WriteFail n err :: rest →
  write_match m NewWriter f
  = ([], PrintSavedToFile (Hex.EncodeToString (Serialize (privateKey m)))
           (address m),
     mkWriter (sdrop (Nat.min n (String.length (render m))) (render m))
              (Some err),
     mkOutFile (data f +:+ stake n (render m)) rest).
Proof.
  intros Hfit Hout. pose proof (render_length m) as Hlen.
  unfold write_match, WriteString.
  cbn [WriteString_loop]. unfold Available, Buffered, NewWriter.
  cbn [wbuf werr String.length].
  rewrite (bool_decide_false (_ < _)%nat) by lia. cbn [andb werr wbuf].
  rewrite str_app_nil_l.
  unfold Flush. cbn [werr wbuf]. unfold Buffered. cbn [wbuf].
  rewrite bool_decide_false by lia.
  unfold fileWrite. rewrite Hout. done.
Qed.

(** Once the writer holds an error, every later record is logged as a
    failed write and never reaches the file. *)
Lemma write_match_sticky m buf err f :
  write_match m (mkWriter buf (Some err)) f
  = ([LogWriteFailed err],
     PrintSavedToFile (Hex.EncodeToString (Serialize (privateKey m)))
       (address m),
     mkWriter buf (Some err), f).
Proof.
  unfold write_match, WriteString. cbn [WriteString_loop werr].
  rewrite (bool_decide_false (Some err = None)) by done.
  rewrite andb_false_r. cbn [werr]. unfold Flush. cbn [werr]. done.
Qed.


Lemma render_all_snoc ms m : render_all (ms ++ [m]) = render_all ms +:+ render m.
Proof.
  induction ms as [|x ms IH]; cbn [app render_all].
  - by rewrite str_app_nil_r.
  - by rewrite IH, str_app_assoc.
Qed.

(** *** What a step does to the histories and to the consumer *)

Lemma worker_iter_frame id rng pick w s :
  let s' := worker_iter cfg id rng pick w s in
  consumer s' = consumer s ∧ dequeued s' = dequeued s ∧ exited s' = exited s
  ∧ (submitted s' = submitted s
     ∨ ∃ r, member cfg r ∧ submitted s' = submitted s ++ [r]).
Proof.
  cbn zeta. destruct rng as [err|key].
  { rewrite worker_iter_fail. cbn. auto. }
  destruct (worker_iter_ok cfg id key pick w s) as [pool' ->]. cbn zeta.
  destruct (ReadAddresses.exists_in _ _) eqn:Em.
  - unfold send. cbn [matchChan]. case_bool_decide; cbn;
      (split_and!; [done..|right; eexists; split; [|done]; exact Em]).
  - cbn. auto.
Qed.

Lemma step_history l s s' :
  Inv s → step cfg l s = Some s' →
  submitted s `prefix_of` submitted s'
  ∧ (Forall (member cfg) (submitted s) → Forall (member cfg) (submitted s'))
  ∧ dequeued s' = dequeued s
                  ++ (if is_recv l then take 1 (matchChan s) else [])
  ∧ exited s = None.
Proof.
  intros HI. unfold step. destruct (exited s); [done|].
  destruct l as [id rng pick| |]; cbn [is_recv].
  - destruct (workers s !! id) as [w|] eqn:Ew; [|done].
    destruct (parked w) eqn:Ep; [done|]. intros [= <-].
    destruct (worker_iter_frame id rng pick w s) as (_ & -> & _ & Hsub).
    rewrite app_nil_r. destruct Hsub as [->|(r & Hr & ->)].
    + done.
    + split_and!; [by eexists| |done..].
      intros Hall. apply Forall_app. split; [done|]. by constructor.
  - destruct (consumer s); [|done]. intros [= <-]. unfold writer_open.
    destruct (openOutput cfg); cbn; by rewrite app_nil_r.
  - destruct (consumer s) as [|b f] eqn:Ec; [done|].
    destruct (recv s) as [[m s1]|] eqn:Er; [|done].
    destruct (write_match m b f) as [[[logged printed] b'] f'].
    intros [= <-]. cbn [submitted dequeued].
    destruct (recv_inv _ _ _ HI ltac:(by rewrite Ec) Er)
      as (_ & [rest Hch] & -> & _ & _ & _ & _ & _ & ->).
    rewrite Hch. done.
Qed.

Lemma step_outinv l s s' :
  Forall (λ o, o = WriteOk) (write_outcomes cfg) →
  Inv s → OutInv cfg s → step cfg l s = Some s' → OutInv cfg s'.
Proof.
  intros Hdev HI HO. unfold step. destruct (exited s); [done|].
  destruct l as [id rng pick| |].
  - destruct (workers s !! id) as [w|] eqn:Ew; [|done].
    destruct (parked w) eqn:Ep; [done|]. intros [= <-].
    destruct (worker_iter_frame id rng pick w s) as (Hc & Hd & _).
    unfold OutInv in *. by rewrite Hc, Hd.
  - destruct (consumer s) eqn:Ec; [|done]. intros [= <-].
    unfold writer_open, OutInv. destruct (openOutput cfg) as [e|f0] eqn:Eo.
    + cbn. by rewrite Ec.
    + cbn. split_and!; [done| |].
      * revert Eo. unfold openOutput.
        repeat case_match; intros [= <-]; done.
      * exists f0. split; [done|].
        rewrite (inv_starting s HI Ec). cbn. by rewrite str_app_nil_r.
  - destruct (consumer s) as [|b f] eqn:Ec; [done|].
    destruct (recv s) as [[m s1]|] eqn:Er; [|done].
    unfold OutInv in HO. rewrite Ec in HO.
    destruct HO as (-> & Hok & f0 & Hf0 & Hdata).
    rewrite (write_match_ok m f Hok). intros [= <-].
    destruct (recv_inv _ _ _ HI ltac:(by rewrite Ec) Er)
      as (_ & _ & Hdq & _).
    unfold OutInv. cbn [consumer dequeued outcomes data].
    split_and!; [done| |].
    + by destruct (fileWrite_ok (render m) f Hok).
    + exists f0. split; [done|].
      by rewrite Hdq, render_all_snoc, Hdata, str_app_assoc.
Qed.

Lemma run_history t s s' :
  Inv s → run cfg t s = Some s' →
  submitted s `prefix_of` submitted s'
  ∧ (Forall (member cfg) (submitted s) → Forall (member cfg) (submitted s'))
  ∧ length (dequeued s') = (length (dequeued s) + length (filter is_recv t))%nat
  ∧ dequeued s `prefix_of` dequeued s'.
Proof.
  revert s. induction t as [|l t IH]; intros s HI; cbn [run].
  - intros [= <-]. cbn. split_and!; [done..|lia|done].
  - destruct (step cfg l s) as [s1|] eqn:Es; [|done]. intros Hr.
    destruct (step_history _ _ _ HI Es) as (Hp & Hm & Hd & _).
    destruct (IH s1 (step_inv cfg _ _ _ HI Es) Hr) as (Hp' & Hm' & Hl' & Hd').
    split_and!.
    + by etrans.
    + auto.
    + rewrite Hl', Hd, length_app.
      destruct l as [id rng pick| |]; cbn [is_recv].
      * rewrite filter_cons_False by (cbn; tauto). cbn [length]. lia.
      * rewrite filter_cons_False by (cbn; tauto). cbn [length]. lia.
      * rewrite filter_cons_True by done. cbn [length].
        assert (matchChan s ≠ []) as Hne.
        { revert Es. unfold step, recv. destruct (exited s); [done|].
          destruct (consumer s); [done|]. by destruct (matchChan s). }
        destruct (matchChan s); [done|]. cbn. rewrite take_0. cbn. lia.
    + etrans; [|done]. rewrite Hd. by eexists.
Qed.

Lemma run_outinv t s s' :
  Forall (λ o, o = WriteOk) (write_outcomes cfg) →
  Inv s → OutInv cfg s → run cfg t s = Some s' → OutInv cfg s'.
Proof.
  intros Hdev. revert s. induction t as [|l t IH]; intros s HI HO; cbn [run].
  - by intros [= <-].
  - destruct (step cfg l s) as [s1|] eqn:Es; [|done].
    apply IH; [by eapply step_inv|by eapply step_outinv].
Qed.


Lemma prefix_take {A} (l1 l2 : list A) :
  l1 `prefix_of` l2 → l1 = take (length l1) l2.
Proof. intros [k ->]. by rewrite take_app_length. Qed.


Lemma recv_enabled s :
  Inv s → matchChan s ≠ [] →
  ∃ m rest s', matchChan s = m :: rest ∧ recv s = Some (m, s').
Proof.
  intros HI Hne. unfold recv. destruct (matchChan s) as [|m rest]; [done|].
  destruct (sendq s) as [|id q] eqn:Eq; [by eauto|].
  destruct (proj1 (inv_parked s HI id)) as (w & r & Hw & Hr).
  { rewrite Eq. apply list_elem_of_here. }
  rewrite Hw, Hr. by eauto.
Qed.


End WriterFacts.

(** ** The Scanner on any input *)

Section ScannerFacts.
Import ReadAddresses.

Lemma elem_of_dropCR c x : c ∈ dropCR x → c ∈ x.
Proof.
  unfold dropCR. destruct (last x) as [y|] eqn:El; [|done].
  case_decide; [|done]. intros Hin.
  destruct x as [|x0 x']; [done|].
  rewrite (app_removelast_last x0 (l:=x0 :: x')) by done.
  apply elem_of_app. by left.
Qed.

Lemma Scan_token s tok s' :
  scan_err s = None → Scan s = (Some tok, s') →
  (newline ∉ list_ascii_of_string tok)
  ∧ (length (unread s') < length (unread s))%nat
  ∧ scan_err s' = None ∧ reader_err s' = reader_err s.
Proof.
  intros He. unfold Scan. rewrite He. unfold ScanLines.
  pose proof maxTokenSize_pos as HM.
  destruct (bool_decide (length (unread s) < maxTokenSize)%nat) eqn:Eeof.
  - apply bool_decide_eq_true in Eeof. rewrite take_ge by lia.
    cbn [andb]. case_bool_decide as Hz; [by intros [=]|].
    destruct (indexByte (unread s) newline) as [i|] eqn:Ei.
    + destruct (indexByte_Some _ _ _ Ei) as (_ & Hfresh & Hi).
      intros [= <- <-]. cbn [unread scan_err reader_err].
      rewrite list_ascii_of_string_of_list_ascii, length_drop.
      split_and!; [|lia|done..].
      intros Hin%elem_of_dropCR. done.
    + pose proof (indexByte_None _ _ Ei) as Hfresh.
      intros [= <- <-]. cbn [unread scan_err reader_err].
      rewrite list_ascii_of_string_of_list_ascii, length_drop.
      split_and!; [|lia|done..].
      intros Hin%elem_of_dropCR. done.
  - apply bool_decide_eq_false in Eeof. cbn [andb].
    destruct (indexByte (take maxTokenSize (unread s)) newline) as [i|] eqn:Ei;
      [|by intros [=]].
    destruct (indexByte_Some _ _ _ Ei) as (_ & Hfresh & Hi).
    intros [= <- <-]. cbn [unread scan_err reader_err].
    rewrite list_ascii_of_string_of_list_ascii, length_drop.
    split_and!; [|lia|done..].
    intros Hin%elem_of_dropCR. done.
Qed.

Lemma Scan_stop s s' :
  scan_err s = None → Scan s = (None, s') →
  scan_err s' = reader_err s ∨ scan_err s' = Some ErrTooLong.
Proof.
  intros He. unfold Scan. rewrite He.
  destruct (ScanLines _ _) as [adv [tok|]]; [by intros [=]|].
  case_bool_decide; intros [= <-]; cbn [scan_err]; [left|by right].
  by destruct (reader_err s).
Qed.

Lemma scanLoop_general fuel s acc :
  scan_err s = None → (length (unread s) < fuel)%nat →
  (scan_err (scanLoop fuel s acc).1 = reader_err s
   ∨ scan_err (scanLoop fuel s acc).1 = Some ErrTooLong)
  ∧ ∀ a, is_Some ((scanLoop fuel s acc).2 !! a) →
         is_Some (acc !! a) ∨ newline ∉ list_ascii_of_string a.
Proof.
  revert s acc. induction fuel as [|fuel IH]; intros s acc He Hfuel; [lia|].
  cbn [scanLoop]. destruct (Scan s) as [[tok|] s1] eqn:Es.
  - destruct (Scan_token _ _ _ He Es) as (Htok & Hlen & He1 & Hre).
    destruct (IH s1 (<[tok:=true]> acc) He1 ltac:(lia)) as [Herr Hkeys].
    rewrite Hre in Herr. split; [done|]. intros a Ha.
    destruct (Hkeys a Ha) as [Hin|?]; [|by right].
    destruct (decide (a = tok)) as [->|Hne]; [by right|].
    left. by rewrite lookup_insert_ne in Hin.
  - cbn [fst snd]. split; [by eapply Scan_stop|auto].
Qed.

Lemma readAddresses_no_newline fs filePath addresses a :
  readAddresses fs filePath = inr addresses →
  is_Some (addresses !! a) → newline ∉ list_ascii_of_string a.
Proof.
  unfold readAddresses. destruct (osOpen fs filePath) as [e|f]; [done|].
  pose proof (scanLoop_general (S (length (unread (NewScanner f))))
                (NewScanner f) ∅ eq_refl ltac:(lia)) as [_ Hkeys].
  destruct (scanLoop _ _ _) as [s' m]. cbn [fst snd] in *.
  destruct (scan_err s'); [done|]. intros [= <-] Ha.
  destruct (Hkeys a Ha) as [Hin|?]; [|done].
  rewrite lookup_empty in Hin. by destruct Hin.
Qed.

(** A list that cannot be opened or whose reading fails is not loaded. *)
Lemma readAddresses_unreadable fs filePath :
  (files fs !! filePath = None
   ∨ (∃ f, files fs !! filePath = Some f
           ∧ (can_read f = false ∨ is_Some (read_fault f)))) →
  ∃ err, readAddresses fs filePath = inl err.
Proof.
  unfold readAddresses, osOpen.
  intros [->|(f & -> & [->|[e He]])]; [by eexists..|].
  destruct (can_read f); [|by eexists].
  pose proof (scanLoop_general (S (length (unread (NewScanner f))))
                (NewScanner f) ∅ eq_refl ltac:(lia)) as [Herr _].
  destruct (scanLoop _ _ _) as [s' m]. cbn [fst snd] in *.
  cbn [NewScanner reader_err] in Herr. rewrite He in Herr.
  destruct Herr as [->| ->]; by eexists.
Qed.

End ScannerFacts.

(** ** The start of main *)

Section MainFacts.
Import Bufio KeyGen Pipeline Main.
Context `{Crypto}.

Lemma digit_val_range c d : digit_val c = Some d → 0 ≤ d ≤ 9.
Proof. unfold digit_val. case_bool_decide; [|done]. intros [= <-]. done. Qed.

Lemma parse_digits_Some acc ds n :
  parse_digits acc ds = Some n →
  (∀ c, In c (list_ascii_of_string ds) → is_Some (digit_val c))
  ∧ (0 ≤ acc → acc ≤ n).
Proof.
  revert acc. induction ds as [|c ds IH]; intros acc; cbn [parse_digits].
  - intros [= <-]. split; [by intros c []|lia].
  - destruct (digit_val c) as [d|] eqn:Ed; [|done]. intros Hp.
    destruct (IH _ Hp) as [Hall Hle]. pose proof (digit_val_range _ _ Ed).
    split; [|lia]. cbn [list_ascii_of_string]. intros c' [<-|Hin]; [by eexists|auto].
Qed.

(** A word that Atoi turns into a number of at least one denotes a
    positive integer. *)
Lemma Atoi_positive s n : Atoi s = inr n → 1 ≤ n → denotes_positive s.
Proof.
  unfold Atoi. destruct (split_sign s) as [neg ds] eqn:Es.
  destruct ds as [|c ds'] eqn:Eds; [done|]. rewrite <- Eds in *.
  destruct (parse_digits 0 ds) as [n0|] eqn:Ep; [|done].
  case_bool_decide; [|done]. intros [= <-] Hpos.
  destruct (parse_digits_Some _ _ _ Ep) as [Hall Hle].
  destruct neg; [specialize (Hle ltac:(lia)); lia|].
  exists ds, n0. split_and!; [|split; [by subst|done]|done..].
  revert Es. unfold split_sign. destruct s as [|ch rest]; [by intros [= <-]; left|].
  repeat case_bool_decide; intros [= <-]; subst; auto.
Qed.

Lemma worker_iter_consumer cfg id rng pick w s :
  consumer (worker_iter cfg id rng pick w s) = consumer s.
Proof. by destruct (worker_iter_frame cfg id rng pick w s) as (? & _). Qed.

Lemma step_opened cfg l s s' :
  Inv s → step cfg l s = Some s' →
  (consumer s ≠ Starting → consumer s' ≠ Starting)
  ∧ (consumer s' ≠ Starting → consumer s = Starting →
       ∃ f0, openOutput cfg = inr f0).
Proof.
  intros HI. unfold step. destruct (exited s); [done|].
  destruct l as [id rng pick| |].
  - destruct (workers s !! id) as [w|]; [|done].
    destruct (parked w); [done|]. intros [= <-].
    rewrite worker_iter_consumer. done.
  - destruct (consumer s) eqn:Ec; [|done]. intros [= <-].
    unfold writer_open. destruct (openOutput cfg) as [e|f0]; cbn.
    + by rewrite Ec.
    + split; [done|]. by eauto.
  - destruct (consumer s) as [|b f] eqn:Ec; [done|].
    destruct (recv s) as [[m s1]|]; [|done].
    destruct (write_match m b f) as [[[logged printed] b'] f'].
    intros [= <-]. cbn. done.
Qed.

Lemma run_opened cfg t s s' :
  Inv s → run cfg t s = Some s' → consumer s = Starting →
  consumer s' ≠ Starting → ∃ f0, openOutput cfg = inr f0.
Proof.
  revert s. induction t as [|l t IH]; intros s HI; cbn [run].
  - intros [= <-] Hs Hd. done.
  - destruct (step cfg l s) as [s1|] eqn:Es; [|done]. intros Hr Hs Hd.
    destruct (step_opened _ _ _ _ HI Es) as [Hkeep Hopen].
    destruct (consumer s1) as [|b1 f1] eqn:Hs1.
    + eapply IH; [by eapply step_inv|done..].
    + by apply Hopen.
Qed.

(** C6: with a wrong number of arguments main prints the usage text and
    exits with code 1; with a worker count that is not a positive integer,
    or a membership list that cannot be read, it logs a fatal message and
    exits with code 1 before any goroutine is started; when the output file
    cannot be opened the consumer, at its first step, logs a fatal message
    and exits the process with code 1, after which no goroutine runs. *)
Theorem startup_failures osArgs fs dev :
  (length osArgs ≠ 4%nat → main osArgs fs dev = Exit 1 UsageText)
  ∧ (length osArgs = 4%nat →
     ¬ denotes_positive (default "" (osArgs !! 1%nat)) →
     main osArgs fs dev = Exit 1 FatalThreadsBelowOne
     ∨ ∃ err, main osArgs fs dev = Exit 1 (FatalInvalidThreads err))
  ∧ (length osArgs = 4%nat →
     ∀ numThreads, Atoi (default "" (osArgs !! 1%nat)) = inr numThreads →
     1 ≤ numThreads →
     (∀ err, ReadAddresses.readAddresses fs (default "" (osArgs !! 3%nat)) = inl err →
        main osArgs fs dev = Exit 1 (FatalReadAddresses err))
     ∧ ((files fs !! default "" (osArgs !! 3%nat) = None
         ∨ ∃ f, files fs !! default "" (osArgs !! 3%nat) = Some f
                ∧ (can_read f = false ∨ is_Some (read_fault f))) →
        ∃ err, main osArgs fs dev = Exit 1 (FatalReadAddresses err)))
  ∧ (∀ n cfg err t s,
       main osArgs fs dev = Started n cfg →
       openOutput cfg = inl err →
       run cfg t (initial n) = Some s →
       consumer s = Starting
       ∧ (exited s = None →
          ∃ s', step cfg WriterOpen s = Some s'
                ∧ exited s' = Some 1
                ∧ logs s' = logs s ++ [LogFatalOpenOutput err]
                ∧ ∀ l, step cfg l s' = None)).
Proof.
  split_and!.
  - intros Hlen. unfold main. by rewrite bool_decide_false.
  - intros Hlen Hnot. unfold main. rewrite bool_decide_true by done. cbn [negb].
    destruct (Atoi _) as [err|numThreads] eqn:Ea; [right; by eexists|].
    case_bool_decide as Hlt; [by left|].
    exfalso. apply Hnot. eapply Atoi_positive; [done|lia].
  - intros Hlen numThreads Ha Hpos.
    assert (∀ err, ReadAddresses.readAddresses fs (default "" (osArgs !! 3%nat)) = inl err →
               main osArgs fs dev = Exit 1 (FatalReadAddresses err)) as Hfail.
    { intros err Hr. unfold main. rewrite bool_decide_true by done. cbn [negb].
      rewrite Ha. rewrite bool_decide_false by lia. by rewrite Hr. }
    split; [done|]. intros Hbad.
    destruct (readAddresses_unreadable _ _ Hbad) as [err Herr].
    exists err. by apply Hfail.
  - intros n cfg err t s Hmain Hopen Hr.
    pose proof (reachable_inv cfg _ _ _ Hr) as HI.
    assert (consumer s = Starting) as Hs.
    { destruct (consumer s) as [|b f] eqn:Hd; [done|].
      destruct (run_opened _ _ _ _ (initial_inv n) Hr eq_refl
                  ltac:(by rewrite Hd)) as [f0 Hf0].
      congruence. }
    split; [done|]. intros Hex. unfold step at 1. rewrite Hex, Hs.
    eexists. split; [done|]. unfold writer_open. rewrite Hopen.
    cbn [exited logs]. split_and!; [done..|].
    intros l. unfold step. done.
Qed.


(** *** The line of a match *)

Lemma hexdigit_not_newline n : Hex.hexdigit n ≠ newline.
Proof.
  unfold Hex.hexdigit. generalize (N.to_nat n). intros k.
  do 17 (destruct k as [|k]; [by cbn|]). by cbn.
Qed.

Lemma EncodeToString_no_newline bs :
  newline ∉ list_ascii_of_string (Hex.EncodeToString bs).
Proof.
  induction bs as [|b bs IH]; cbn [Hex.EncodeToString list_ascii_of_string].
  - apply not_elem_of_nil.
  - rewrite !not_elem_of_cons. split_and!; [| |done];
      intros Heq; symmetry in Heq; by apply hexdigit_not_newline in Heq.
Qed.

Lemma run_members cfg n t s :
  run cfg t (initial n) = Some s → Forall (member cfg) (submitted s).
Proof.
  intros Hr.
  destruct (run_history cfg _ _ _ (initial_inv n) Hr) as (_ & Hm & _).
  apply Hm. constructor.
Qed.

(** C4: for every record the consumer receives (the device accepting the
    write), the file grows by exactly the line
    [<hex of the key bytes>:<address>] followed by one line feed, the line
    holding no other line feed, and nothing is left in the buffer of the
    writer when the step ends: the flush is done for this record alone.
    The file was opened once, for appending: what it held before is still
    there, in front of the lines of the records received so far. *)
Theorem match_line_appended_and_flushed osArgs fs dev n cfg t s s' :
  main osArgs fs dev = Started n cfg →
  Forall (λ o, o = WriteOk) dev →
  run cfg t (initial n) = Some s →
  step cfg WriterRecv s = Some s' →
  ∃ m rest f0 body,
    matchChan s = m :: rest
    ∧ openOutput cfg = inr f0
    ∧ data f0 = match files fs !! outputFile cfg with
                | Some f => content f
                | None => ""
                end
    ∧ out_data s = Some (data f0 +:+ render_all (dequeued s))
    ∧ out_data s' = Some ((data f0 +:+ render_all (dequeued s)) +:+ render m)
    ∧ render m = body +:+ String newline ""
    ∧ body = Hex.EncodeToString (Serialize (privateKey m)) +:+ ":"
             +:+ address m
    ∧ (newline ∉ list_ascii_of_string body)
    ∧ buffered s' = Some "".
Proof.
  intros Hmain Hdev Hr Hs.
  pose proof (reachable_inv cfg _ _ _ Hr) as HI.
  assert (btcAddresses cfg
          = match ReadAddresses.readAddresses fs (default "" (osArgs !! 3%nat)) with
            | inr a => a | inl _ => ∅ end
          ∧ disk cfg = fs ∧ write_outcomes cfg = dev
          ∧ is_Some (match ReadAddresses.readAddresses fs (default "" (osArgs !! 3%nat)) with
                     | inr a => Some a | inl _ => None end)) as (Hbtc & Hdisk & Hwo & Hload).
  { revert Hmain. unfold main. case_bool_decide; [|done]. cbn [negb].
    destruct (Atoi _); [done|]. case_bool_decide; [done|].
    destruct (ReadAddresses.readAddresses _ _); [done|].
    intros [= <- <-]. cbn. by eauto. }
  assert (OutInv cfg s) as HO.
  { eapply run_outinv; [by rewrite Hwo|apply initial_inv| |done]. by cbn. }
  revert Hs. unfold step. destruct (exited s); [done|].
  unfold OutInv in HO. unfold out_data, buffered.
  destruct (consumer s) as [|b f] eqn:Ec; [done|].
  destruct HO as (-> & Hok & f0 & Hf0 & Hdata).
  destruct (recv s) as [[m s1]|] eqn:Er; [|done].
  rewrite (write_match_ok m f Hok). intros [= <-].
  destruct (recv_inv _ _ _ HI ltac:(by rewrite Ec) Er)
    as (_ & [rest Hch] & Hdq & _).
  exists m, rest, f0,
    (Hex.EncodeToString (Serialize (privateKey m)) +:+ ":" +:+ address m).
  cbn [consumer data wbuf NewWriter].
  split_and!; try done.
  - revert Hf0. unfold openOutput. rewrite Hdisk.
    repeat case_match; intros [= <-]; done.
  - by rewrite Hdata.
  - by rewrite Hdata.
  - unfold render. by rewrite !str_app_assoc.
  - rewrite !list_ascii_app. rewrite !not_elem_of_app. split_and!.
    + apply EncodeToString_no_newline.
    + cbn. rewrite not_elem_of_cons. split; [done|apply not_elem_of_nil].
    + pose proof (run_members _ _ _ _ Hr) as Hmem.
      rewrite (inv_conserve s HI), Hch in Hmem.
      rewrite !Forall_app, Forall_cons in Hmem.
      destruct Hmem as (_ & (Hm & _) & _).
      unfold member, ReadAddresses.exists_in in Hm.
      apply bool_decide_eq_true in Hm. rewrite Hbtc in Hm.
      destruct (ReadAddresses.readAddresses fs _) as [e|a] eqn:Hra.
      * by destruct Hload.
      * by eapply readAddresses_no_newline.
Qed.

End MainFacts.
(** ** binary64: rounding, division and conversion *)

Section Binary64Facts.

Lemma digits2_pos_bounds p :
  (2 ^ (Zpos (digits2_pos p) - 1) <= Zpos p < 2 ^ Zpos (digits2_pos p))%Z.
Proof.
  induction p as [p IH|p IH|]; cbn [digits2_pos]; [| |by vm_compute].
  - rewrite Pos2Z.inj_succ.
    replace (Z.succ (Zpos (digits2_pos p)) - 1) with (Zpos (digits2_pos p)) by lia.
    rewrite Z.pow_succ_r by lia.
    replace (2 ^ Zpos (digits2_pos p))
      with (2 * 2 ^ (Zpos (digits2_pos p) - 1)) in *
      by (rewrite <- Z.pow_succ_r by lia; f_equal; lia).
    lia.
  - rewrite Pos2Z.inj_succ.
    replace (Z.succ (Zpos (digits2_pos p)) - 1) with (Zpos (digits2_pos p)) by lia.
    rewrite Z.pow_succ_r by lia.
    replace (2 ^ Zpos (digits2_pos p))
      with (2 * 2 ^ (Zpos (digits2_pos p) - 1)) in *
      by (rewrite <- Z.pow_succ_r by lia; f_equal; lia).
    lia.
Qed.

Lemma digits2_pos_eq p d :
  (2 ^ (d - 1) <= Zpos p < 2 ^ d)%Z → Zpos (digits2_pos p) = d.
Proof.
  intros [Hlo Hhi]. pose proof (digits2_pos_bounds p) as [Hlo' Hhi'].
  assert (0 < d) as Hd.
  { destruct (Z_lt_le_dec 0 d) as [|Hn]; [done|].
    assert (2 ^ d <= 2 ^ 0)%Z by (apply Z.pow_le_mono_r; lia).
    change (2 ^ 0) with 1 in *. lia. }
  assert (Zpos (digits2_pos p) - 1 < d).
  { apply (Z.pow_lt_mono_r_iff 2); lia. }
  assert (d - 1 < Zpos (digits2_pos p)).
  { apply (Z.pow_lt_mono_r_iff 2); lia. }
  lia.
Qed.

Lemma loc_of_shr_record_of_loc m l :
  loc_of_shr_record (shr_record_of_loc m l) = l
  ∧ shr_m (shr_record_of_loc m l) = m.
Proof. by destruct l as [|[]]. Qed.

Lemma shr_record_of_loc_of_shr r :
  shr_record_of_loc (shr_m r) (loc_of_shr_record r) = r.
Proof. by destruct r as [m [] []]. Qed.

Lemma shr_fexp_53 m e l :
  (2 ^ 52 <= m < 2 ^ 53)%Z → (-1074 <= e)%Z →
  shr_fexp 53 1024 m e l = (shr_record_of_loc m l, e).
Proof.
  intros Hm He. unfold shr_fexp.
  destruct m as [|p|p]; [lia| |lia]. cbn [Zdigits2].
  rewrite (digits2_pos_eq p 53) by (change (53 - 1) with 52; lia).
  unfold fexp, emin.
  replace (Z.max (53 + e - 53) (3 - 1024 - 53) - e) with 0 by lia.
  reflexivity.
Qed.

Lemma shr_fexp_54 m e l :
  (2 ^ 53 <= m < 2 ^ 54)%Z → (-1075 <= e)%Z →
  shr_fexp 53 1024 m e l = (shr_1 (shr_record_of_loc m l), e + 1).
Proof.
  intros Hm He. unfold shr_fexp.
  destruct m as [|p|p]; [lia| |lia]. cbn [Zdigits2].
  rewrite (digits2_pos_eq p 54) by (change (54 - 1) with 53; lia).
  unfold fexp, emin.
  replace (Z.max (54 + e - 53) (3 - 1024 - 53) - e) with 1 by lia.
  reflexivity.
Qed.

Lemma round_nearest_even_cases m l :
  round_nearest_even m l = m ∨ round_nearest_even m l = m + 1.
Proof. destruct l as [|[]]; cbn; auto. destruct (Z.even m); auto. Qed.

(** Rounding a mantissa of 53 digits: the mantissa goes up by one or not,
    and 2^53 is renormalised. *)
Lemma binary_round_aux_53 m e l :
  (2 ^ 52 <= m < 2 ^ 53)%Z → (-1074 <= e <= 970)%Z →
  binary_round_aux 53 1024 false m e l
  = if round_nearest_even m l =? 2 ^ 53
    then S754_finite false (Z.to_pos (2 ^ 52)) (e + 1)
    else S754_finite false (Z.to_pos (round_nearest_even m l)) e.
Proof.
  intros Hm He. unfold binary_round_aux.
  rewrite shr_fexp_53 by lia.
  destruct (loc_of_shr_record_of_loc m l) as [-> ->].
  destruct (Z.eqb_spec (round_nearest_even m l) (2 ^ 53)) as [Heq|Hne].
  - rewrite Heq. rewrite shr_fexp_54 by lia.
    cbn [shr_record_of_loc]. change (2 ^ 53) with 9007199254740992.
    cbn [shr_1 shr_m].
    destruct (Z.leb_spec (e + 1) (1024 - 53)); [reflexivity|lia].
  - assert (2 ^ 52 <= round_nearest_even m l < 2 ^ 53)%Z as Hr
      by (destruct (round_nearest_even_cases m l) as [E|E]; rewrite E in *; lia).
    rewrite shr_fexp_53 by lia. cbn [shr_record_of_loc shr_m].
    destruct (round_nearest_even m l) as [|p|p]; [lia| |lia].
    destruct (Z.leb_spec e (1024 - 53)); [reflexivity|lia].
Qed.

Lemma binary_round_aux_54 m e l :
  (2 ^ 53 <= m < 2 ^ 54)%Z → (-1075 <= e)%Z →
  binary_round_aux 53 1024 false m e l
  = binary_round_aux 53 1024 false (Z.div2 m) (e + 1)
      (loc_of_shr_record (shr_1 (shr_record_of_loc m l))).
Proof.
  intros Hm He. unfold binary_round_aux at 1 2.
  rewrite shr_fexp_54 by lia.
  assert (shr_m (shr_1 (shr_record_of_loc m l)) = Z.div2 m) as Hsm.
  { destruct m as [|[p|p|]|p]; try lia; by destruct l as [|[]]. }
  rewrite (shr_fexp_53 (Z.div2 m)); [|rewrite Z.div2_div; split;
    [apply Z.div_le_lower_bound|apply Z.div_lt_upper_bound]; lia|lia].
  destruct (loc_of_shr_record_of_loc (Z.div2 m)
              (loc_of_shr_record (shr_1 (shr_record_of_loc m l)))) as [-> ->].
  rewrite Hsm. reflexivity.
Qed.

Lemma new_location_spec Y r :
  0 < Y → 0 <= r < Y →
  match new_location Y r with
  | loc_Exact => r = 0
  | loc_Inexact Lt => 0 < r ∧ 2 * r < Y
  | loc_Inexact Eq => 2 * r = Y
  | loc_Inexact Gt => Y < 2 * r
  end.
Proof.
  intros HY Hr. unfold new_location, new_location_even, new_location_odd.
  destruct (Z.even Y) eqn:Hev.
  - destruct (Z.eqb_spec r 0) as [|Hr0]; [done|].
    destruct (Z.compare_spec (2 * r) Y); lia.
  - destruct (Z.eqb_spec r 0) as [|Hr0]; [done|].
    assert (Z.odd Y = true) as Hodd by (by rewrite <- Z.negb_even, Hev).
    apply Z.odd_spec in Hodd as [k Hk].
    destruct (Z.compare_spec (2 * r + 1) Y); lia.
Qed.

Lemma shr_1_loc q l :
  1 < q →
  loc_of_shr_record (shr_1 (shr_record_of_loc q l))
  = match Z.odd q, l with
    | false, loc_Exact => loc_Exact
    | false, loc_Inexact _ => loc_Inexact Lt
    | true, loc_Exact => loc_Inexact Eq
    | true, loc_Inexact _ => loc_Inexact Gt
    end.
Proof.
  intros Hq. destruct q as [|[p|p|]|p]; try lia; by destruct l as [|[]].
Qed.

Lemma div_core_normal X a Y b :
  (2 ^ 52 <= Zpos X < 2 ^ 53)%Z → (2 ^ 52 <= Zpos Y < 2 ^ 53)%Z →
  -1021 <= a - b →
  SFdiv_core_binary 53 1024 (Zpos X) a (Zpos Y) b
  = (Zpos X * 2 ^ 53 / Zpos Y, a - b - 53,
     new_location (Zpos Y) ((Zpos X * 2 ^ 53) mod Zpos Y)).
Proof.
  intros HX HY Hab. unfold SFdiv_core_binary. cbn [Zdigits2].
  rewrite (digits2_pos_eq X 53), (digits2_pos_eq Y 53)
    by (change (53 - 1) with 52; lia).
  unfold fexp, emin.
  replace (Z.min (Z.max (53 + a - (53 + b) - 53) (3 - 1024 - 53)) (a - b))
    with (a - b - 53) by lia.
  replace (a - b - (a - b - 53)) with 53 by lia.
  rewrite Z.shiftl_mul_pow2 by lia.
  unfold Z.div, Z.modulo.
  by destruct (Z.div_eucl (Zpos X * 2 ^ 53) (Zpos Y)) as [q r].
Qed.

(** The quotient of two normal numbers, as SFdiv rounds it: the mantissa
    [M] at exponent [a - b - k] is within half a unit of the quotient, and
    within a quarter below when it is the power of two. *)
Lemma SFdiv_normal X a Y b :
  (2 ^ 52 <= Zpos X < 2 ^ 53)%Z → (2 ^ 52 <= Zpos Y < 2 ^ 53)%Z →
  -1000 <= a - b <= 1000 →
  ∃ M k,
    SFdiv 53 1024 (S754_finite false X a) (S754_finite false Y b)
    = S754_finite false M (a - b - k)
    ∧ (k = 51 ∨ k = 52 ∨ k = 53)
    ∧ (2 ^ 52 <= Zpos M < 2 ^ 53)%Z
    ∧ Zpos X * 2 ^ (k + 1) <= (2 * Zpos M + 1) * Zpos Y
    ∧ (2 ^ 52 < Zpos M → (2 * Zpos M - 1) * Zpos Y <= Zpos X * 2 ^ (k + 1))
    ∧ (Zpos M = 2 ^ 52 → (4 * Zpos M - 1) * Zpos Y <= Zpos X * 2 ^ (k + 2)).
Proof.
  intros HX HY Hab. cbn [SFdiv xorb]. rewrite div_core_normal by lia.
  set (N := Zpos X * 2 ^ 53).
  pose proof (Z.div_mod N (Zpos Y) ltac:(lia)) as Hdiv.
  pose proof (Z.mod_pos_bound N (Zpos Y) ltac:(lia)) as Hr.
  pose proof (new_location_spec (Zpos Y) (N mod Zpos Y) ltac:(lia) Hr) as Hloc.
  set (q := N / Zpos Y) in *. set (r := N mod Zpos Y) in *.
  assert (N = Zpos X * 9007199254740992) as HN by (subst N; reflexivity).
  change (2 ^ 52) with 4503599627370496 in *.
  change (2 ^ 53) with 9007199254740992 in *.
  assert (4503599627370496 <= q < 18014398509481984) as Hq by nia.
  destruct (Z_lt_le_dec q 9007199254740992) as [Hsmall|Hbig].
  - (* the quotient has 53 digits *)
    rewrite binary_round_aux_53
      by (change (2 ^ 52) with 4503599627370496;
          change (2 ^ 53) with 9007199254740992; lia).
    change (2 ^ 52) with 4503599627370496.
    change (2 ^ 53) with 9007199254740992.
    destruct (Z.eqb_spec (round_nearest_even q (new_location (Zpos Y) r))
                9007199254740992) as [Hc|Hc].
    + exists (Z.to_pos 4503599627370496), 52.
      split; [f_equal; lia|]. split; [auto|].
      change (2 ^ (52 + 1)) with 9007199254740992.
      change (2 ^ (52 + 2)) with 18014398509481984.
      change (Zpos (Z.to_pos 4503599627370496)) with 4503599627370496.
      destruct (new_location (Zpos Y) r) as [|[]]; cbn [round_nearest_even] in Hc;
        try destruct (Z.even q); split_and!; intros; nia.
    + exists (Z.to_pos (round_nearest_even q (new_location (Zpos Y) r))), 53.
      split; [done|]. split; [auto|].
      change (2 ^ (53 + 1)) with 18014398509481984.
      change (2 ^ (53 + 2)) with 36028797018963968.
      rewrite Z2Pos.id
        by (destruct (round_nearest_even_cases q (new_location (Zpos Y) r))
              as [E|E]; rewrite E; lia).
      destruct (new_location (Zpos Y) r) as [|[]]; cbn [round_nearest_even] in Hc |- *;
        try destruct (Z.even q); split_and!; intros; nia.
  - (* the quotient has 54 digits: one bit is shifted out *)
    rewrite binary_round_aux_54
      by (change (2 ^ 54) with 18014398509481984;
          change (2 ^ 53) with 9007199254740992; lia).
    rewrite shr_1_loc by lia.
    pose proof (Z.div2_odd q) as Hq2. set (q' := Z.div2 q) in *.
    assert (4503599627370496 <= q' < 9007199254740992) as Hq'
      by (destruct (Z.odd q); unfold Z.b2z in Hq2; lia).
    rewrite binary_round_aux_53
      by (change (2 ^ 52) with 4503599627370496;
          change (2 ^ 53) with 9007199254740992; lia).
    change (2 ^ 52) with 4503599627370496.
    change (2 ^ 53) with 9007199254740992.
    set (l' := match Z.odd q, new_location (Zpos Y) r with
               | false, loc_Exact => loc_Exact
               | false, loc_Inexact _ => loc_Inexact Lt
               | true, loc_Exact => loc_Inexact Eq
               | true, loc_Inexact _ => loc_Inexact Gt
               end).
    destruct (Z.eqb_spec (round_nearest_even q' l') 9007199254740992) as [Hc|Hc].
    + exists (Z.to_pos 4503599627370496), 51.
      split; [f_equal; lia|]. split; [auto|].
      change (2 ^ (51 + 1)) with 4503599627370496.
      change (2 ^ (51 + 2)) with 9007199254740992.
      change (Zpos (Z.to_pos 4503599627370496)) with 4503599627370496.
      subst l'.
      destruct (Z.odd q), (new_location (Zpos Y) r) as [|[]];
        unfold Z.b2z in Hq2; cbn [round_nearest_even] in Hc; try destruct (Z.even q'); split_and!; intros; nia.
    + exists (Z.to_pos (round_nearest_even q' l')), 52.
      split; [f_equal; lia|]. split; [auto|].
      change (2 ^ (52 + 1)) with 9007199254740992.
      change (2 ^ (52 + 2)) with 18014398509481984.
      rewrite Z2Pos.id
        by (destruct (round_nearest_even_cases q' l') as [E|E]; rewrite E; lia).
      subst l'.
      destruct (Z.odd q), (new_location (Zpos Y) r) as [|[]];
        unfold Z.b2z in Hq2; cbn [round_nearest_even] in Hc |- *; try destruct (Z.even q'); split_and!; intros; nia.
Qed.

Lemma SFleb_finite m1 e1 m2 e2 :
  SFleb (S754_finite false m1 e1) (S754_finite false m2 e2) = true
  ↔ e1 < e2 ∨ (e1 = e2 ∧ Zpos m1 <= Zpos m2).
Proof.
  unfold SFleb, SFcompare.
  destruct (Z.compare_spec e1 e2) as [->|?|?].
  - change (Pos.compare_cont Eq m1 m2) with (Pos.compare m1 m2).
    destruct (Pos.compare_spec m1 m2) as [->|?|?]; split; try done;
      try (intros _; right; split; [done|lia]); intros [?|[_ ?]]; lia.
  - split; [auto|done].
  - split; [done|lia].
Qed.

(** Dividing by more gives no more. *)
Lemma SFdiv_antitone X a Y1 b1 Y2 b2 :
  (2 ^ 52 <= Zpos X < 2 ^ 53)%Z →
  (2 ^ 52 <= Zpos Y1 < 2 ^ 53)%Z → (2 ^ 52 <= Zpos Y2 < 2 ^ 53)%Z →
  -1000 <= a - b1 <= 1000 → -1000 <= a - b2 <= 1000 →
  SFleb (S754_finite false Y1 b1) (S754_finite false Y2 b2) = true →
  SFleb (SFdiv 53 1024 (S754_finite false X a) (S754_finite false Y2 b2))
        (SFdiv 53 1024 (S754_finite false X a) (S754_finite false Y1 b1))
  = true.
Proof.
  intros HX HY1 HY2 Hab1 Hab2 Hle. apply SFleb_finite in Hle.
  destruct (decide (b1 = b2 ∧ Y1 = Y2)) as [[-> ->]|Hne].
  { destruct (SFdiv_normal X a Y2 b2 HX HY2 Hab2) as (M & k & -> & _).
    apply SFleb_finite. right. split; [done|lia]. }
  assert (b1 < b2 ∨ (b1 = b2 ∧ Zpos Y1 < Zpos Y2)) as Hlt.
  { destruct Hle as [?|[-> Hy]]; [auto|]. right. split; [done|].
    destruct (decide (Zpos Y1 = Zpos Y2)) as [E|?]; [|lia].
    injection E as ->. by destruct Hne. }
  clear Hle Hne.
  destruct (SFdiv_normal X a Y1 b1 HX HY1 Hab1)
    as (M1 & k1 & -> & Hk1 & HM1 & Hup1 & Hlo1 & Hlow1).
  destruct (SFdiv_normal X a Y2 b2 HX HY2 Hab2)
    as (M2 & k2 & -> & Hk2 & HM2 & Hup2 & Hlo2 & Hlow2).
  apply SFleb_finite.
  change (2 ^ 52) with 4503599627370496 in *.
  change (2 ^ 53) with 9007199254740992 in *.
  assert (Zpos M1 < Zpos M2
          → (2 * Zpos M1 + 1) * Zpos Y1 <= (2 * Zpos M2 - 1) * Zpos Y1) as HA1
    by (intros; apply Z.mul_le_mono_nonneg_r; lia).
  assert ((2 * Zpos M1 + 1) * Zpos Y1 <= 18014398509481983 * Zpos Y1) as HA2
    by (apply Z.mul_le_mono_nonneg_r; lia).
  assert (4503599627370496 < Zpos M2
          → 9007199254740993 * Zpos Y2 <= (2 * Zpos M2 - 1) * Zpos Y2) as HA3
    by (intros; apply Z.mul_le_mono_nonneg_r; lia).
  assert (∀ u v, (2 * Zpos M2 - 1) * u <= (2 * Zpos M2 - 1) * v → u <= v) as HA4
    by (intros u v; apply Z.mul_le_mono_pos_l; lia).
  destruct (Z_lt_le_dec (a - b2 - k2) (a - b1 - k1)) as [?|Hge]; [auto|].
  right.
  assert (Zpos M2 = 4503599627370496 ∨ 4503599627370496 < Zpos M2) as HM2c by lia.
  assert (b2 = b1 ∨ b2 = b1 + 1 ∨ b2 = b1 + 2) as Hb by lia.
  destruct (Z_le_gt_dec (Zpos M2) (Zpos M1)) as [Hm|Hm].
  - (* the mantissas are in order: the exponents cannot be *)
    split; [|done].
    destruct (Z.eq_dec (a - b2 - k2) (a - b1 - k1)) as [|Hgt]; [done|exfalso].
    destruct Hk1 as [Hk1|[Hk1|Hk1]], Hk2 as [Hk2|[Hk2|Hk2]]; subst k1 k2;
      cbn [Z.add Pos.add Pos.succ] in *;
      repeat match goal with
        | H : context [2 ^ ?n] |- _ =>
            let v := eval vm_compute in (2 ^ n) in change (2 ^ n) with v in H
        end;
      try lia;
      destruct Hb as [Hb|[Hb|Hb]]; subst b2; try lia;
      destruct HM2c as [HM2c|HM2c];
      try (specialize (Hlow2 HM2c); rewrite HM2c in Hlow2);
      try specialize (HA3 HM2c); try specialize (Hlo2 HM2c); lia.
  - (* the mantissas are not: nor can the exponents be equal or more *)
    exfalso. specialize (HA1 ltac:(lia)). specialize (Hlo2 ltac:(lia)).
    destruct Hk1 as [Hk1|[Hk1|Hk1]], Hk2 as [Hk2|[Hk2|Hk2]]; subst k1 k2;
      cbn [Z.add Pos.add Pos.succ] in *;
      repeat match goal with
        | H : context [2 ^ ?n] |- _ =>
            let v := eval vm_compute in (2 ^ n) in change (2 ^ n) with v in H
        end;
      try lia;
      destruct Hb as [Hb|[Hb|Hb]]; subst b2; try lia.
    all: try (specialize (HA3 ltac:(lia)); lia).
    all: try (assert (Zpos Y2 <= Zpos Y1) by (apply HA4; lia); lia).
    all: try (assert (2 * Zpos Y2 <= Zpos Y1) by (apply HA4; lia); lia).
    all: try (assert (4 * Zpos Y2 <= Zpos Y1) by (apply HA4; lia); lia).
Qed.

Lemma shr_1_m r : 0 <= shr_m r → shr_m (shr_1 r) = Z.div2 (shr_m r).
Proof. destruct r as [[|[p|p|]|p] rb sb]; cbn; intros; try done; lia. Qed.

Lemma shr_m_iter (n : positive) r :
  0 <= shr_m r → shr_m (SpecFloat.iter_pos shr_1 n r) = shr_m r / 2 ^ Zpos n.
Proof.
  revert r. induction n as [n IH|n IH|]; intros r Hr; cbn [SpecFloat.iter_pos].
  - assert (0 <= shr_m (shr_1 r)) as H1
      by (rewrite shr_1_m, Z.div2_div by done; apply Z.div_pos; lia).
    assert (0 <= shr_m (SpecFloat.iter_pos shr_1 n (shr_1 r))) as H2
      by (rewrite IH by done; apply Z.div_pos; lia).
    rewrite !IH by done. rewrite shr_1_m, Z.div2_div by done.
    rewrite !Z.div_div by lia. f_equal.
    replace (Zpos n~1) with (1 + Zpos n + Zpos n) by lia.
    rewrite !Z.pow_add_r by lia. change (2 ^ 1) with 2. ring.
  - assert (0 <= shr_m (SpecFloat.iter_pos shr_1 n r)) as H2
      by (rewrite IH by done; apply Z.div_pos; lia).
    rewrite !IH by done. rewrite !Z.div_div by lia. f_equal.
    replace (Zpos n~0) with (Zpos n + Zpos n) by lia.
    rewrite !Z.pow_add_r by lia. ring.
  - rewrite shr_1_m, Z.div2_div by done. done.
Qed.

Lemma iter_xO p s : Zpos (Pos.iter xO p s) = Zpos p * 2 ^ Zpos s.
Proof.
  induction s as [|s IH] using Pos.peano_ind.
  - cbn. lia.
  - rewrite Pos.iter_succ, Pos2Z.inj_xO, IH, Pos2Z.inj_succ, Z.pow_succ_r by lia.
    lia.
Qed.

Lemma binary_round_aux_after_shift m e l r e' :
  shr_fexp 53 1024 m e l = (r, e') →
  (2 ^ 52 <= shr_m r < 2 ^ 53)%Z → -1074 <= e' →
  binary_round_aux 53 1024 false m e l
  = binary_round_aux 53 1024 false (shr_m r) e' (loc_of_shr_record r).
Proof.
  intros Hs Hm He. unfold binary_round_aux at 1 2.
  rewrite Hs, (shr_fexp_53 (shr_m r)) by done.
  by rewrite shr_record_of_loc_of_shr.
Qed.

(** float64 of a positive integer below 2^64 is a normal number. *)
Lemma binary_normalize_uint64 T :
  (0 < T < 2 ^ 64)%Z →
  ∃ M E, binary_normalize 53 1024 T 0 false = S754_finite false M E
         ∧ (2 ^ 52 <= Zpos M < 2 ^ 53)%Z ∧ -52 <= E <= 12.
Proof.
  intros HT. destruct T as [|p|p]; [lia| |lia]. cbn [binary_normalize].
  unfold binary_round.
  pose proof (digits2_pos_bounds p) as Hd.
  set (d := Zpos (digits2_pos p)) in *.
  assert (1 <= d <= 64) as Hd64.
  { split; [subst d; lia|].
    assert (d - 1 < 64); [|lia]. apply (Z.pow_lt_mono_r_iff 2); lia. }
  unfold fexp at 1, emin. rewrite Z.max_l by lia.
  unfold shl_align.
  destruct (d + 0 - 53 - 0) as [|s|s] eqn:Es.
  - (* 53 digits: nothing to do *)
    assert (d = 53) as Hd53 by lia. rewrite Hd53 in Hd.
    change (53 - 1) with 52 in Hd.
    rewrite binary_round_aux_53 by lia. cbn [round_nearest_even].
    destruct (Z.eqb_spec (Zpos p) (2 ^ 53)) as [?|_]; [lia|].
    exists p, 0. cbn [Z.to_pos]. split_and!; [done|lia..].
  - (* more than 53 digits: the low bits are rounded away *)
    assert (Zpos s = d - 53) as Hs by lia.
    assert (2 ^ (d - 1) = 2 ^ 52 * 2 ^ Zpos s ∧ 2 ^ d = 2 ^ 53 * 2 ^ Zpos s)
      as [Hp1 Hp2] by (rewrite <- !Z.pow_add_r by lia; split; f_equal; lia).
    assert (0 < 2 ^ Zpos s) as Hpos by (apply Z.pow_pos_nonneg; lia).
    assert (shr_fexp 53 1024 (Zpos p) 0 loc_Exact
            = (SpecFloat.iter_pos shr_1 s (shr_record_of_loc (Zpos p) loc_Exact), Zpos s))
      as Hshr.
    { unfold shr_fexp. cbn [Zdigits2]. fold d. unfold fexp, emin.
      replace (Z.max (d + 0 - 53) (3 - 1024 - 53) - 0) with (Zpos s) by lia.
      reflexivity. }
    assert (shr_m (SpecFloat.iter_pos shr_1 s (shr_record_of_loc (Zpos p) loc_Exact))
            = Zpos p / 2 ^ Zpos s) as Hm
      by (rewrite shr_m_iter; [done|cbn; lia]).
    assert (2 ^ 52 <= Zpos p / 2 ^ Zpos s < 2 ^ 53)%Z as Hrange.
    { split; [apply Z.div_le_lower_bound|apply Z.div_lt_upper_bound]; lia. }
    rewrite (binary_round_aux_after_shift _ _ _ _ _ Hshr) by (rewrite ?Hm; lia).
    rewrite binary_round_aux_53 by (rewrite ?Hm; lia).
    rewrite Hm.
    set (l := loc_of_shr_record _).
    destruct (Z.eqb_spec (round_nearest_even (Zpos p / 2 ^ Zpos s) l) (2 ^ 53))
      as [Hc|Hc].
    + eexists _, _. split; [done|]. split; [by vm_compute|lia].
    + eexists _, _. split; [done|].
      rewrite Z2Pos.id
        by (destruct (round_nearest_even_cases (Zpos p / 2 ^ Zpos s) l)
              as [E|E]; rewrite E; lia).
      split; [|lia].
      destruct (round_nearest_even_cases (Zpos p / 2 ^ Zpos s) l)
        as [E|E]; rewrite E in *; lia.
  - (* fewer than 53 digits: the mantissa is shifted up *)
    assert (Zpos s = 53 - d) as Hs by lia.
    assert (2 ^ 52 = 2 ^ (d - 1) * 2 ^ Zpos s ∧ 2 ^ 53 = 2 ^ d * 2 ^ Zpos s)
      as [Hp1 Hp2] by (rewrite <- !Z.pow_add_r by lia; split; f_equal; lia).
    assert (0 < 2 ^ Zpos s) as Hpos by (apply Z.pow_pos_nonneg; lia).
    assert (2 ^ 52 <= Zpos (Pos.iter xO p s) < 2 ^ 53)%Z as Hrange.
    { rewrite iter_xO, Hp1, Hp2. split.
      - apply Z.mul_le_mono_nonneg_r; lia.
      - apply Z.mul_lt_mono_pos_r; lia. }
    rewrite binary_round_aux_53 by lia. cbn [round_nearest_even].
    destruct (Z.eqb_spec (Zpos (Pos.iter xO p s)) (2 ^ 53)) as [?|_]; [lia|].
    eexists _, _. split; [done|]. cbn [Z.to_pos]. split; [done|lia].
Qed.

Lemma digits2_pos_le p D : Zpos p < 2 ^ D → Zpos (digits2_pos p) <= D.
Proof.
  intros Hp. pose proof (digits2_pos_bounds p) as [Hlo _].
  destruct (Z_lt_le_dec D 0) as [Hneg|Hnn].
  { rewrite Z.pow_neg_r in Hp by done. lia. }
  assert (Zpos (digits2_pos p) - 1 < D); [|lia].
  apply (Z.pow_lt_mono_r_iff 2); lia.
Qed.

Lemma digits2_pos_ge p D : 0 <= D → 2 ^ D <= Zpos p → D < Zpos (digits2_pos p).
Proof.
  intros HD Hp. pose proof (digits2_pos_bounds p) as [_ Hhi].
  apply (Z.pow_lt_mono_r_iff 2); lia.
Qed.

(** Rounding a positive integer times a power of two, the result being
    in the range of the normal numbers: the mantissa has its 53 bits and
    the exponent follows the number of digits. *)
Lemma binary_round_normal p e :
  -1000 <= e + Zpos (digits2_pos p) <= 1000 →
  ∃ M E, binary_round 53 1024 false p e = S754_finite false M E
         ∧ (2 ^ 52 <= Zpos M < 2 ^ 53)%Z
         ∧ e + Zpos (digits2_pos p) - 53 <= E <= e + Zpos (digits2_pos p) - 52.
Proof.
  intros He. unfold binary_round.
  pose proof (digits2_pos_bounds p) as Hd.
  set (d := Zpos (digits2_pos p)) in *.
  assert (1 <= d) as Hd1 by (subst d; lia).
  unfold fexp at 1, emin. rewrite Z.max_l by lia.
  unfold shl_align.
  destruct (d + e - 53 - e) as [|s|s] eqn:Es.
  - (* 53 digits: nothing to do *)
    assert (d = 53) as Hd53 by lia. rewrite Hd53 in Hd.
    change (53 - 1) with 52 in Hd.
    rewrite binary_round_aux_53 by lia. cbn [round_nearest_even].
    destruct (Z.eqb_spec (Zpos p) (2 ^ 53)) as [?|_]; [lia|].
    exists p, e. cbn [Z.to_pos]. split_and!; [done|lia..].
  - (* more than 53 digits: the low bits are rounded away *)
    assert (Zpos s = d - 53) as Hs by lia.
    assert (2 ^ (d - 1) = 2 ^ 52 * 2 ^ Zpos s ∧ 2 ^ d = 2 ^ 53 * 2 ^ Zpos s)
      as [Hp1 Hp2] by (rewrite <- !Z.pow_add_r by lia; split; f_equal; lia).
    assert (0 < 2 ^ Zpos s) as Hpos by (apply Z.pow_pos_nonneg; lia).
    assert (shr_fexp 53 1024 (Zpos p) e loc_Exact
            = (SpecFloat.iter_pos shr_1 s (shr_record_of_loc (Zpos p) loc_Exact),
               e + Zpos s))
      as Hshr.
    { unfold shr_fexp. cbn [Zdigits2]. fold d. unfold fexp, emin.
      replace (Z.max (d + e - 53) (3 - 1024 - 53) - e) with (Zpos s) by lia.
      reflexivity. }
    assert (shr_m (SpecFloat.iter_pos shr_1 s (shr_record_of_loc (Zpos p) loc_Exact))
            = Zpos p / 2 ^ Zpos s) as Hm
      by (rewrite shr_m_iter; [done|cbn; lia]).
    assert (2 ^ 52 <= Zpos p / 2 ^ Zpos s < 2 ^ 53)%Z as Hrange.
    { split; [apply Z.div_le_lower_bound|apply Z.div_lt_upper_bound]; lia. }
    rewrite (binary_round_aux_after_shift _ _ _ _ _ Hshr) by (rewrite ?Hm; lia).
    rewrite binary_round_aux_53 by (rewrite ?Hm; lia).
    rewrite Hm.
    set (l := loc_of_shr_record _).
    destruct (Z.eqb_spec (round_nearest_even (Zpos p / 2 ^ Zpos s) l) (2 ^ 53))
      as [Hc|Hc].
    + eexists _, _. split; [done|]. split; [by vm_compute|lia].
    + eexists _, _. split; [done|].
      rewrite Z2Pos.id
        by (destruct (round_nearest_even_cases (Zpos p / 2 ^ Zpos s) l)
              as [E|E]; rewrite E; lia).
      split; [|lia].
      destruct (round_nearest_even_cases (Zpos p / 2 ^ Zpos s) l)
        as [E|E]; rewrite E in *; lia.
  - (* fewer than 53 digits: the mantissa is shifted up *)
    assert (Zpos s = 53 - d) as Hs by lia.
    assert (2 ^ 52 = 2 ^ (d - 1) * 2 ^ Zpos s ∧ 2 ^ 53 = 2 ^ d * 2 ^ Zpos s)
      as [Hp1 Hp2] by (rewrite <- !Z.pow_add_r by lia; split; f_equal; lia).
    assert (0 < 2 ^ Zpos s) as Hpos by (apply Z.pow_pos_nonneg; lia).
    assert (2 ^ 52 <= Zpos (Pos.iter xO p s) < 2 ^ 53)%Z as Hrange.
    { rewrite iter_xO, Hp1, Hp2. split.
      - apply Z.mul_le_mono_nonneg_r; lia.
      - apply Z.mul_lt_mono_pos_r; lia. }
    rewrite binary_round_aux_53 by lia. cbn [round_nearest_even].
    destruct (Z.eqb_spec (Zpos (Pos.iter xO p s)) (2 ^ 53)) as [?|_]; [lia|].
    eexists _, _. split; [done|]. cbn [Z.to_pos]. split; [done|lia].
Qed.

Lemma shl_align_fst m e e' :
  e' <= e → Zpos (fst (shl_align m e e')) = Zpos m * 2 ^ (e - e').
Proof.
  intros Hle. unfold shl_align. destruct (e' - e) as [|s|s] eqn:Es.
  - replace (e - e') with 0 by lia. cbn [fst]. lia.
  - lia.
  - cbn [fst]. rewrite iter_xO. f_equal. f_equal. lia.
Qed.

(** The sum of two positive normal numbers of moderate size is one. *)
Lemma SFadd_normal mx ex my ey :
  (2 ^ 52 <= Zpos mx < 2 ^ 53)%Z → (2 ^ 52 <= Zpos my < 2 ^ 53)%Z →
  -800 <= ex <= 800 → -800 <= ey <= 800 →
  ∃ M E, SFadd 53 1024 (S754_finite false mx ex) (S754_finite false my ey)
         = S754_finite false M E
         ∧ (2 ^ 52 <= Zpos M < 2 ^ 53)%Z
         ∧ Z.min ex ey <= E <= Z.max ex ey + 2.
Proof.
  intros Hmx Hmy Hex Hey. cbn [SFadd cond_Zopp].
  set (ez := Z.min ex ey).
  rewrite !shl_align_fst by lia.
  assert (0 < 2 ^ (ex - ez) ∧ 0 < 2 ^ (ey - ez)) as [Hpx Hpy]
    by (split; apply Z.pow_pos_nonneg; lia).
  set (S := Zpos mx * 2 ^ (ex - ez) + Zpos my * 2 ^ (ey - ez)).
  assert (2 ^ 52 <= S) as Hlo.
  { subst S. destruct (Z.min_spec ex ey) as [[_ Hz]|[_ Hz]]; fold ez in Hz.
    - rewrite Hz, Z.sub_diag. change (2 ^ 0) with 1. nia.
    - rewrite Hz, Z.sub_diag. change (2 ^ 0) with 1. nia. }
  assert (S < 2 ^ (Z.max ex ey - ez + 54)) as Hhi.
  { replace (Z.max ex ey - ez + 54) with (1 + 53 + (Z.max ex ey - ez)) by lia.
    rewrite !Z.pow_add_r by lia. change (2 ^ 1) with 2.
    assert (2 ^ (ex - ez) <= 2 ^ (Z.max ex ey - ez)) by (apply Z.pow_le_mono_r; lia).
    assert (2 ^ (ey - ez) <= 2 ^ (Z.max ex ey - ez)) by (apply Z.pow_le_mono_r; lia).
    subst S. nia. }
  destruct S as [|s|s] eqn:ES; [lia| |lia]. cbn [binary_normalize].
  pose proof (digits2_pos_le s _ Hhi) as Hd1.
  pose proof (digits2_pos_ge s 52 ltac:(lia) Hlo) as Hd2.
  destruct (binary_round_normal s ez ltac:(lia)) as (M & E & -> & HM & HE).
  exists M, E. split_and!; [done|lia..].
Qed.

Lemma shr_1_eq r :
  0 <= shr_m r →
  shr_1 r = Build_shr_record (Z.div2 (shr_m r)) (Z.odd (shr_m r))
              (shr_r r || shr_s r).
Proof. destruct r as [[|[p|p|]|p] rb sb]; cbn; intros; try done; lia. Qed.

(** After [k] shifts of [m0]: the mantissa is the quotient by 2^k and the
    two bits say where the remainder lies in the interval of length 2^k. *)
Lemma shr_1_location m0 k r :
  0 <= m0 → 0 <= k →
  shr_m r = m0 / 2 ^ k →
  loc_of_shr_record r
  = (if m0 mod 2 ^ k =? 0 then loc_Exact
     else loc_Inexact (2 * (m0 mod 2 ^ k) ?= 2 ^ k)) →
  shr_m (shr_1 r) = m0 / 2 ^ (k + 1)
  ∧ loc_of_shr_record (shr_1 r)
    = (if m0 mod 2 ^ (k + 1) =? 0 then loc_Exact
       else loc_Inexact (2 * (m0 mod 2 ^ (k + 1)) ?= 2 ^ (k + 1))).
Proof.
  intros Hm0 Hk Hm Hloc.
  assert (0 < 2 ^ k) as Hpk by (apply Z.pow_pos_nonneg; lia).
  assert (0 <= shr_m r) as Hnn by (rewrite Hm; apply Z.div_pos; lia).
  rewrite shr_1_eq by done. cbn [shr_m].
  rewrite Z.pow_add_r by lia. change (2 ^ 1) with 2.
  split.
  { rewrite Z.div2_div, Hm, Z.div_div by lia. done. }
  rewrite (Z.rem_mul_r m0 (2 ^ k) 2) by lia.
  rewrite <- Hm.
  pose proof (Z.mod_pos_bound m0 (2 ^ k) Hpk) as Hrho.
  set (rho := m0 mod 2 ^ k) in *.
  assert (shr_r r || shr_s r = negb (rho =? 0)) as Hst.
  { destruct r as [m rb sb]. cbn [loc_of_shr_record shr_r shr_s] in *.
    destruct (Z.eqb_spec rho 0); destruct rb, sb; done. }
  rewrite Hst. rewrite Zmod_odd.
  destruct (Z.odd (shr_m r)); cbn [loc_of_shr_record negb];
    destruct (Z.eqb_spec rho 0) as [Hz|Hz]; cbn [negb].
  - destruct (Z.eqb_spec (rho + 2 ^ k * 1) 0); [lia|].
    f_equal. symmetry. apply Z.compare_eq_iff. lia.
  - destruct (Z.eqb_spec (rho + 2 ^ k * 1) 0); [lia|].
    f_equal. symmetry. apply Z.compare_gt_iff. lia.
  - destruct (Z.eqb_spec (rho + 2 ^ k * 0) 0); [done|lia].
  - destruct (Z.eqb_spec (rho + 2 ^ k * 0) 0); [lia|].
    f_equal. symmetry. apply Z.compare_lt_iff. lia.
Qed.

Lemma shr_iter_location (n : positive) m0 k r :
  0 <= m0 → 0 <= k →
  shr_m r = m0 / 2 ^ k →
  loc_of_shr_record r
  = (if m0 mod 2 ^ k =? 0 then loc_Exact
     else loc_Inexact (2 * (m0 mod 2 ^ k) ?= 2 ^ k)) →
  shr_m (SpecFloat.iter_pos shr_1 n r) = m0 / 2 ^ (k + Zpos n)
  ∧ loc_of_shr_record (SpecFloat.iter_pos shr_1 n r)
    = (if m0 mod 2 ^ (k + Zpos n) =? 0 then loc_Exact
       else loc_Inexact (2 * (m0 mod 2 ^ (k + Zpos n)) ?= 2 ^ (k + Zpos n))).
Proof.
  intros Hm0. revert k r.
  induction n as [n IH|n IH|]; intros k r Hk Hm Hloc; cbn [SpecFloat.iter_pos].
  - destruct (shr_1_location m0 k r Hm0 Hk Hm Hloc) as [Hm1 Hl1].
    destruct (IH (k + 1) _ ltac:(lia) Hm1 Hl1) as [Hm2 Hl2].
    destruct (IH (k + 1 + Zpos n) _ ltac:(lia) Hm2 Hl2) as [Hm3 Hl3].
    replace (k + Zpos n~1) with (k + 1 + Zpos n + Zpos n) by lia. done.
  - destruct (IH k _ Hk Hm Hloc) as [Hm2 Hl2].
    destruct (IH (k + Zpos n) _ ltac:(lia) Hm2 Hl2) as [Hm3 Hl3].
    replace (k + Zpos n~0) with (k + Zpos n + Zpos n) by lia. done.
  - by apply shr_1_location.
Qed.

(** Round to nearest, ties to even, on a number [m * P + rho] located by
    [l] in its interval of length [P]. *)
Lemma round_bounds m rho P l :
  (2 ^ 52 <= m < 2 ^ 53)%Z → 0 <= rho < P →
  match l with
  | loc_Exact => rho = 0
  | loc_Inexact Lt => 0 < rho ∧ 2 * rho < P
  | loc_Inexact Eq => 2 * rho = P
  | loc_Inexact Gt => P < 2 * rho
  end →
  let R := round_nearest_even m l in
  if R =? 2 ^ 53
  then (2 ^ 54 - 1) * (2 * P) <= 4 * (m * P + rho)
       ∧ 2 * (m * P + rho) <= (2 ^ 53 + 1) * (2 * P)
  else (2 ^ 52 <= R < 2 ^ 53)%Z
       ∧ 2 * (m * P + rho) <= (2 * R + 1) * P
       ∧ (2 ^ 52 < R → (2 * R - 1) * P <= 2 * (m * P + rho))
       ∧ (R = 2 ^ 52 → (4 * R - 1) * P <= 4 * (m * P + rho)).
Proof.
  intros Hm Hrho Hl. cbn zeta.
  change (2 ^ 52) with 4503599627370496 in *.
  change (2 ^ 53) with 9007199254740992 in *.
  change (2 ^ 54) with 18014398509481984 in *.
  destruct (Z.eqb_spec (round_nearest_even m l) 9007199254740992) as [Hc|Hc];
    destruct l as [|[]]; cbn [round_nearest_even] in Hc |- *;
    try destruct (Z.even m); split_and!; intros; nia.
Qed.

Lemma binary_round_spec p e :
  -1000 <= e + Zpos (digits2_pos p) <= 1000 → -1900 <= e →
  ∃ M E, binary_round 53 1024 false p e = S754_finite false M E
         ∧ (2 ^ 52 <= Zpos M < 2 ^ 53)%Z
         ∧ e + Zpos (digits2_pos p) - 53 <= E <= e + Zpos (digits2_pos p) - 52
         ∧ Stats.nearest64 M E (Zpos p * 2 ^ (e + 2000)) 1
         ∧ (Zpos (digits2_pos p) <= 53
            → Zpos M * 2 ^ (E + 2000) = Zpos p * 2 ^ (e + 2000)).
Proof.
  intros He He'. unfold binary_round.
  pose proof (digits2_pos_bounds p) as Hd.
  set (d := Zpos (digits2_pos p)) in *.
  assert (1 <= d) as Hd1 by (subst d; lia).
  assert (0 < 2 ^ (e + 2000)) as HW by (apply Z.pow_pos_nonneg; lia).
  assert (∀ M E, (2 ^ 52 <= Zpos M)%Z →
                 Zpos M * 2 ^ (E + 2000) = Zpos p * 2 ^ (e + 2000) →
                 0 < 2 ^ (E + 2000) →
                 Stats.nearest64 M E (Zpos p * 2 ^ (e + 2000)) 1) as Hexact.
  { intros M E HM Heq HU. unfold Stats.nearest64. rewrite <- Heq.
    split_and!; intros; nia. }
  unfold fexp at 1, emin. rewrite Z.max_l by lia.
  unfold shl_align.
  destruct (d + e - 53 - e) as [|s|s] eqn:Es.
  - (* 53 digits: nothing to do *)
    assert (d = 53) as Hd53 by lia. rewrite Hd53 in Hd.
    change (53 - 1) with 52 in Hd.
    rewrite binary_round_aux_53 by lia. cbn [round_nearest_even].
    destruct (Z.eqb_spec (Zpos p) (2 ^ 53)) as [?|_]; [lia|].
    exists p, e. cbn [Z.to_pos]. split_and!; [done|lia..| |done].
    apply Hexact; (done || lia).
  - (* more than 53 digits: the low bits are rounded away *)
    assert (Zpos s = d - 53) as Hs by lia.
    assert (2 ^ (d - 1) = 2 ^ 52 * 2 ^ Zpos s ∧ 2 ^ d = 2 ^ 53 * 2 ^ Zpos s)
      as [Hp1 Hp2] by (rewrite <- !Z.pow_add_r by lia; split; f_equal; lia).
    assert (0 < 2 ^ Zpos s) as Hpos by (apply Z.pow_pos_nonneg; lia).
    assert (shr_fexp 53 1024 (Zpos p) e loc_Exact
            = (SpecFloat.iter_pos shr_1 s (shr_record_of_loc (Zpos p) loc_Exact),
               e + Zpos s))
      as Hshr.
    { unfold shr_fexp. cbn [Zdigits2]. fold d. unfold fexp, emin.
      replace (Z.max (d + e - 53) (3 - 1024 - 53) - e) with (Zpos s) by lia.
      reflexivity. }
    destruct (shr_iter_location s (Zpos p) 0
                (shr_record_of_loc (Zpos p) loc_Exact))
      as [Hm Hloc]; [lia|lia|by rewrite Z.div_1_r|by rewrite Z.mod_1_r|].
    rewrite Z.add_0_l in Hm, Hloc.
    assert (2 ^ 52 <= Zpos p / 2 ^ Zpos s < 2 ^ 53)%Z as Hrange.
    { split; [apply Z.div_le_lower_bound|apply Z.div_lt_upper_bound]; lia. }
    rewrite (binary_round_aux_after_shift _ _ _ _ _ Hshr) by (rewrite ?Hm; lia).
    rewrite binary_round_aux_53 by (rewrite ?Hm; lia).
    rewrite Hm, Hloc.
    pose proof (Z.div_mod (Zpos p) (2 ^ Zpos s) ltac:(lia)) as Hdm.
    pose proof (Z.mod_pos_bound (Zpos p) (2 ^ Zpos s) Hpos) as Hrho.
    set (m := Zpos p / 2 ^ Zpos s) in *.
    set (rho := Zpos p mod 2 ^ Zpos s) in *.
    set (P := 2 ^ Zpos s) in *.
    set (l := if rho =? 0 then loc_Exact else loc_Inexact (2 * rho ?= P)).
    assert (match l with
            | loc_Exact => rho = 0
            | loc_Inexact Lt => 0 < rho ∧ 2 * rho < P
            | loc_Inexact Eq => 2 * rho = P
            | loc_Inexact Gt => P < 2 * rho
            end) as Hl.
    { subst l. destruct (Z.eqb_spec rho 0); [done|].
      destruct (Z.compare_spec (2 * rho) P); lia. }
    pose proof (round_bounds m rho P l Hrange Hrho Hl) as Hb. cbn zeta in Hb.
    assert (Zpos p = m * P + rho) as Hp by lia.
    destruct (Z.eqb_spec (round_nearest_even m l) (2 ^ 53)) as [Hc|Hc].
    + exists (Z.to_pos (2 ^ 52)), (e + Zpos s + 1).
      split; [done|]. split; [by vm_compute|]. split; [lia|].
      split; [|lia]. destruct Hb as [Hb1 Hb2]. unfold Stats.nearest64.
      replace (e + Zpos s + 1 + 2000) with (1 + Zpos s + (e + 2000)) by lia.
      rewrite (Z.pow_add_r 2 (1 + Zpos s) (e + 2000)),
              (Z.pow_add_r 2 1 (Zpos s)) by lia.
      fold P. change (2 ^ 1) with 2.
      change (Zpos (Z.to_pos (2 ^ 52))) with 4503599627370496.
      change (2 ^ 52) with 4503599627370496 in *.
      change (2 ^ 53) with 9007199254740992 in *.
      change (2 ^ 54) with 18014398509481984 in *.
      rewrite Hp. set (W := 2 ^ (e + 2000)) in *. split_and!.
      * assert (2 * (m * P + rho) * W <= 9007199254740993 * (2 * P) * W)
          by (apply Z.mul_le_mono_nonneg_r; lia). lia.
      * intros; lia.
      * intros _.
        assert (18014398509481983 * (2 * P) * W <= 4 * (m * P + rho) * W)
          by (apply Z.mul_le_mono_nonneg_r; lia). lia.
    + destruct Hb as (HR & Hb1 & Hb2 & Hb3).
      exists (Z.to_pos (round_nearest_even m l)), (e + Zpos s).
      split; [done|]. rewrite Z2Pos.id by lia.
      split; [done|]. split; [lia|]. split; [|lia]. unfold Stats.nearest64.
      rewrite Z2Pos.id by lia.
      replace (e + Zpos s + 2000) with (Zpos s + (e + 2000)) by lia.
      rewrite (Z.pow_add_r 2 (Zpos s) (e + 2000)) by lia. fold P.
      rewrite Hp. set (R := round_nearest_even m l) in *.
      set (W := 2 ^ (e + 2000)) in *.
      split_and!.
      * assert (2 * (m * P + rho) * W <= (2 * R + 1) * P * W)
          by (apply Z.mul_le_mono_nonneg_r; lia). lia.
      * intros HR1. specialize (Hb2 HR1).
        assert ((2 * R - 1) * P * W <= 2 * (m * P + rho) * W)
          by (apply Z.mul_le_mono_nonneg_r; lia). lia.
      * intros HR1. specialize (Hb3 HR1).
        assert ((4 * R - 1) * P * W <= 4 * (m * P + rho) * W)
          by (apply Z.mul_le_mono_nonneg_r; lia). lia.
  - (* fewer than 53 digits: the mantissa is shifted up *)
    assert (Zpos s = 53 - d) as Hs by lia.
    assert (2 ^ 52 = 2 ^ (d - 1) * 2 ^ Zpos s ∧ 2 ^ 53 = 2 ^ d * 2 ^ Zpos s)
      as [Hp1 Hp2] by (rewrite <- !Z.pow_add_r by lia; split; f_equal; lia).
    assert (0 < 2 ^ Zpos s) as Hpos by (apply Z.pow_pos_nonneg; lia).
    assert (2 ^ 52 <= Zpos (Pos.iter xO p s) < 2 ^ 53)%Z as Hrange.
    { rewrite iter_xO, Hp1, Hp2. split.
      - apply Z.mul_le_mono_nonneg_r; lia.
      - apply Z.mul_lt_mono_pos_r; lia. }
    rewrite binary_round_aux_53 by lia. cbn [round_nearest_even].
    destruct (Z.eqb_spec (Zpos (Pos.iter xO p s)) (2 ^ 53)) as [?|_]; [lia|].
    exists (Pos.iter xO p s), (d + e - 53).
    split; [done|]. split; [done|]. split; [lia|].
    assert (Zpos (Pos.iter xO p s) * 2 ^ (d + e - 53 + 2000)
            = Zpos p * 2 ^ (e + 2000)) as Heq.
    { rewrite iter_xO.
      replace (e + 2000) with (Zpos s + (d + e - 53 + 2000)) by lia.
      rewrite (Z.pow_add_r 2 (Zpos s) (d + e - 53 + 2000)) by lia. ring. }
    split; [|done]. apply Hexact; [lia|done|].
    apply Z.pow_pos_nonneg; lia.
Qed.

(** Nearest numbers of ordered numbers are in order. *)
Lemma nearest64_order M1 E1 N1 M2 E2 N2 :
  (2 ^ 52 <= Zpos M1 < 2 ^ 53)%Z → (2 ^ 52 <= Zpos M2 < 2 ^ 53)%Z →
  -2000 <= E1 → -2000 <= E2 →
  Stats.nearest64 M1 E1 N1 1 → Stats.nearest64 M2 E2 N2 1 →
  N1 < N2 →
  E1 < E2 ∨ (E1 = E2 ∧ Zpos M1 <= Zpos M2).
Proof.
  intros HM1 HM2 HE1 HE2 (Hup1 & Hlo1 & Hlow1) (Hup2 & Hlo2 & Hlow2) HN.
  change (2 ^ 52) with 4503599627370496 in *.
  change (2 ^ 53) with 9007199254740992 in *.
  assert (0 < 2 ^ (E1 + 2000)) as HU1 by (apply Z.pow_pos_nonneg; lia).
  assert (0 < 2 ^ (E2 + 2000)) as HU2 by (apply Z.pow_pos_nonneg; lia).
  destruct (Z_lt_le_dec E1 E2) as [?|Hge]; [auto|right].
  destruct (Z.eq_dec E1 E2) as [->|Hne].
  - split; [done|].
    destruct (Z_le_gt_dec (Zpos M1) (Zpos M2)) as [?|Hgt]; [done|exfalso].
    specialize (Hlo1 ltac:(lia)).
    set (U := 2 ^ (E2 + 2000)) in *.
    assert ((2 * Zpos M2 + 1) * U <= (2 * Zpos M1 - 1) * U)
      by (apply Z.mul_le_mono_nonneg_r; lia).
    lia.
  - exfalso.
    assert (2 ^ (E1 + 2000) = 2 ^ (E1 - E2 - 1) * (2 * 2 ^ (E2 + 2000))) as HU.
    { replace (E1 + 2000) with (E1 - E2 - 1 + (1 + (E2 + 2000))) by lia.
      rewrite (Z.pow_add_r 2 (E1 - E2 - 1)), (Z.pow_add_r 2 1) by lia.
      done. }
    assert (0 < 2 ^ (E1 - E2 - 1)) as HP by (apply Z.pow_pos_nonneg; lia).
    set (U1 := 2 ^ (E1 + 2000)) in *. set (U2 := 2 ^ (E2 + 2000)) in *.
    assert (2 * U2 <= U1) as HUU by nia.
    assert (18014398509481983 * U1 <= 4 * N1) as HL.
    { destruct (Z.eq_dec (Zpos M1) 4503599627370496) as [Heq|Hneq].
      - specialize (Hlow1 Heq). rewrite Heq in Hlow1. lia.
      - specialize (Hlo1 ltac:(lia)).
        assert (9007199254740993 * U1 <= (2 * Zpos M1 - 1) * U1)
          by (apply Z.mul_le_mono_nonneg_r; lia).
        lia. }
    assert ((2 * Zpos M2 + 1) * U2 <= 18014398509481983 * U2)
      by (apply Z.mul_le_mono_nonneg_r; lia).
    lia.
Qed.

(** Dividing more gives no less. *)
Lemma SFdiv_monotone X1 a1 X2 a2 Y b :
  (2 ^ 52 <= Zpos X1 < 2 ^ 53)%Z → (2 ^ 52 <= Zpos X2 < 2 ^ 53)%Z →
  (2 ^ 52 <= Zpos Y < 2 ^ 53)%Z →
  -1000 <= a1 - b <= 1000 → -1000 <= a2 - b <= 1000 →
  SFleb (S754_finite false X1 a1) (S754_finite false X2 a2) = true →
  SFleb (SFdiv 53 1024 (S754_finite false X1 a1) (S754_finite false Y b))
        (SFdiv 53 1024 (S754_finite false X2 a2) (S754_finite false Y b))
  = true.
Proof.
  intros HX1 HX2 HY Hab1 Hab2 Hle. apply SFleb_finite in Hle.
  destruct (decide (a1 = a2 ∧ X1 = X2)) as [[-> ->]|Hne].
  { destruct (SFdiv_normal X2 a2 Y b HX2 HY Hab2) as (M & k & -> & _).
    apply SFleb_finite. right. split; [done|lia]. }
  assert (a1 < a2 ∨ (a1 = a2 ∧ Zpos X1 < Zpos X2)) as Hlt.
  { destruct Hle as [?|[-> Hx]]; [auto|]. right. split; [done|].
    destruct (decide (Zpos X1 = Zpos X2)) as [E|?]; [|lia].
    injection E as ->. by destruct Hne. }
  clear Hle Hne.
  destruct (SFdiv_normal X1 a1 Y b HX1 HY Hab1)
    as (M1 & k1 & -> & Hk1 & HM1 & Hup1 & Hlo1 & Hlow1).
  destruct (SFdiv_normal X2 a2 Y b HX2 HY Hab2)
    as (M2 & k2 & -> & Hk2 & HM2 & Hup2 & Hlo2 & Hlow2).
  apply SFleb_finite.
  change (2 ^ 52) with 4503599627370496 in *.
  change (2 ^ 53) with 9007199254740992 in *.
  assert (Zpos M2 < Zpos M1
          → (2 * Zpos M2 + 1) * Zpos Y <= (2 * Zpos M1 - 1) * Zpos Y) as HA1
    by (intros; apply Z.mul_le_mono_nonneg_r; lia).
  assert ((2 * Zpos M2 + 1) * Zpos Y <= 18014398509481983 * Zpos Y) as HA2
    by (apply Z.mul_le_mono_nonneg_r; lia).
  assert (4503599627370496 < Zpos M1
          → 9007199254740993 * Zpos Y <= (2 * Zpos M1 - 1) * Zpos Y) as HA3
    by (intros; apply Z.mul_le_mono_nonneg_r; lia).
  destruct (Z_lt_le_dec (a1 - b - k1) (a2 - b - k2)) as [?|Hge]; [auto|].
  right.
  assert (Zpos M1 = 4503599627370496 ∨ 4503599627370496 < Zpos M1) as HM1c by lia.
  assert (a2 = a1 ∨ a2 = a1 + 1 ∨ a2 = a1 + 2) as Hb by lia.
  destruct (Z_le_gt_dec (Zpos M1) (Zpos M2)) as [Hm|Hm].
  - split; [|done].
    destruct (Z.eq_dec (a1 - b - k1) (a2 - b - k2)) as [|Hgt]; [done|exfalso].
    destruct Hk1 as [Hk1|[Hk1|Hk1]], Hk2 as [Hk2|[Hk2|Hk2]]; subst k1 k2;
      cbn [Z.add Pos.add Pos.succ] in *;
      repeat match goal with
        | H : context [2 ^ ?n] |- _ =>
            let v := eval vm_compute in (2 ^ n) in change (2 ^ n) with v in H
        end;
      try lia;
      destruct Hb as [Hb|[Hb|Hb]]; subst a2; try lia;
      destruct HM1c as [HM1c|HM1c];
      try (specialize (Hlow1 HM1c); rewrite HM1c in Hlow1);
      try specialize (HA3 HM1c); try specialize (Hlo1 HM1c); lia.
  - exfalso. specialize (HA1 ltac:(lia)). specialize (Hlo1 ltac:(lia)).
    destruct Hk1 as [Hk1|[Hk1|Hk1]], Hk2 as [Hk2|[Hk2|Hk2]]; subst k1 k2;
      cbn [Z.add Pos.add Pos.succ] in *;
      repeat match goal with
        | H : context [2 ^ ?n] |- _ =>
            let v := eval vm_compute in (2 ^ n) in change (2 ^ n) with v in H
        end;
      try lia;
      destruct Hb as [Hb|[Hb|Hb]]; subst a2; lia.
Qed.

Lemma scaled_lt M1 E1 M2 E2 :
  (2 ^ 52 <= Zpos M1 < 2 ^ 53)%Z → (2 ^ 52 <= Zpos M2 < 2 ^ 53)%Z →
  -2000 <= E1 → -2000 <= E2 →
  E1 < E2 ∨ (E1 = E2 ∧ Zpos M1 < Zpos M2) →
  Zpos M1 * 2 ^ (E1 + 2000) < Zpos M2 * 2 ^ (E2 + 2000).
Proof.
  intros HM1 HM2 HE1 HE2 Hlex.
  change (2 ^ 52) with 4503599627370496 in *.
  change (2 ^ 53) with 9007199254740992 in *.
  assert (0 < 2 ^ (E1 + 2000)) as HU1 by (apply Z.pow_pos_nonneg; lia).
  assert (0 < 2 ^ (E2 + 2000)) as HU2 by (apply Z.pow_pos_nonneg; lia).
  destruct Hlex as [Hlt|[-> Hm]].
  - assert (2 * 2 ^ (E1 + 2000) <= 2 ^ (E2 + 2000)) as HUU.
    { rewrite <- Z.pow_succ_r by lia. apply Z.pow_le_mono_r; lia. }
    assert (Zpos M1 * 2 ^ (E1 + 2000) <= 9007199254740991 * 2 ^ (E1 + 2000))
      by (apply Z.mul_le_mono_nonneg_r; lia).
    assert (4503599627370496 * 2 ^ (E2 + 2000) <= Zpos M2 * 2 ^ (E2 + 2000))
      by (apply Z.mul_le_mono_nonneg_r; lia).
    lia.
  - apply Z.mul_lt_mono_pos_r; lia.
Qed.

Lemma scaled_le_lex M1 E1 M2 E2 :
  (2 ^ 52 <= Zpos M1 < 2 ^ 53)%Z → (2 ^ 52 <= Zpos M2 < 2 ^ 53)%Z →
  -2000 <= E1 → -2000 <= E2 →
  Zpos M1 * 2 ^ (E1 + 2000) <= Zpos M2 * 2 ^ (E2 + 2000) →
  E1 < E2 ∨ (E1 = E2 ∧ Zpos M1 <= Zpos M2).
Proof.
  intros HM1 HM2 HE1 HE2 Hle.
  destruct (Z_lt_le_dec E1 E2) as [?|Hge]; [auto|right].
  destruct (Z.eq_dec E1 E2) as [->|Hne].
  - split; [done|].
    destruct (Z_le_gt_dec (Zpos M1) (Zpos M2)) as [?|Hgt]; [done|].
    pose proof (scaled_lt M2 E2 M1 E2 HM2 HM1 HE2 HE2 ltac:(right; lia)). lia.
  - pose proof (scaled_lt M2 E2 M1 E1 HM2 HM1 HE2 HE1 ltac:(left; lia)). lia.
Qed.

Lemma nearest64_exact M E :
  -2000 <= E → Stats.nearest64 M E (Zpos M * 2 ^ (E + 2000)) 1.
Proof.
  intros HE.
  assert (0 < 2 ^ (E + 2000)) as HU by (apply Z.pow_pos_nonneg; lia).
  unfold Stats.nearest64. split_and!; intros; nia.
Qed.

(** The sum of two positive normal numbers of moderate size: a nearest
    number to the sum. *)
Lemma SFadd_spec mx ex my ey :
  (2 ^ 52 <= Zpos mx < 2 ^ 53)%Z → (2 ^ 52 <= Zpos my < 2 ^ 53)%Z →
  -800 <= ex <= 800 → -800 <= ey <= 800 →
  ∃ M E, SFadd 53 1024 (S754_finite false mx ex) (S754_finite false my ey)
         = S754_finite false M E
         ∧ (2 ^ 52 <= Zpos M < 2 ^ 53)%Z
         ∧ Z.min ex ey <= E <= Z.max ex ey + 2
         ∧ Stats.nearest64 M E
             (Zpos mx * 2 ^ (ex + 2000) + Zpos my * 2 ^ (ey + 2000)) 1.
Proof.
  intros Hmx Hmy Hex Hey. cbn [SFadd cond_Zopp].
  set (ez := Z.min ex ey).
  rewrite !shl_align_fst by lia.
  assert (0 < 2 ^ (ex - ez) ∧ 0 < 2 ^ (ey - ez)) as [Hpx Hpy]
    by (split; apply Z.pow_pos_nonneg; lia).
  assert ((Zpos mx * 2 ^ (ex - ez) + Zpos my * 2 ^ (ey - ez)) * 2 ^ (ez + 2000)
          = Zpos mx * 2 ^ (ex + 2000) + Zpos my * 2 ^ (ey + 2000)) as Hval.
  { replace (ex + 2000) with (ex - ez + (ez + 2000)) by lia.
    replace (ey + 2000) with (ey - ez + (ez + 2000)) by lia.
    rewrite (Z.pow_add_r 2 (ex - ez)), (Z.pow_add_r 2 (ey - ez)) by lia.
    ring. }
  set (S := Zpos mx * 2 ^ (ex - ez) + Zpos my * 2 ^ (ey - ez)) in *.
  assert (2 ^ 52 <= S) as Hlo.
  { subst S. destruct (Z.min_spec ex ey) as [[_ Hz]|[_ Hz]]; fold ez in Hz.
    - rewrite Hz, Z.sub_diag. change (2 ^ 0) with 1. nia.
    - rewrite Hz, Z.sub_diag. change (2 ^ 0) with 1. nia. }
  assert (S < 2 ^ (Z.max ex ey - ez + 54)) as Hhi.
  { replace (Z.max ex ey - ez + 54) with (1 + 53 + (Z.max ex ey - ez)) by lia.
    rewrite !Z.pow_add_r by lia. change (2 ^ 1) with 2.
    assert (2 ^ (ex - ez) <= 2 ^ (Z.max ex ey - ez)) by (apply Z.pow_le_mono_r; lia).
    assert (2 ^ (ey - ez) <= 2 ^ (Z.max ex ey - ez)) by (apply Z.pow_le_mono_r; lia).
    subst S. nia. }
  destruct S as [|s|s] eqn:ES; [lia| |lia]. cbn [binary_normalize].
  pose proof (digits2_pos_le s _ Hhi) as Hd1.
  pose proof (digits2_pos_ge s 52 ltac:(lia) Hlo) as Hd2.
  destruct (binary_round_spec s ez ltac:(lia) ltac:(lia))
    as (M & E & -> & HM & HE & Hnear & _).
  exists M, E. rewrite Hval in Hnear.
  split; [done|]. split; [done|]. split; [lia|done].
Qed.

End Binary64Facts.

(** ** statsReporter *)

Section StatsFacts.
Import Stats.

Lemma report_all_lookup {A : RateArith} startTime ticks r i t :
  ticks !! i = Some t →
  report_all startTime ticks r !! i
  = Some (report startTime t
            (match i with
             | O => r
             | S j => match ticks !! j with
                      | Some p => mkReporter (total p) (now p)
                      | None => r
                      end
             end)).1.
Proof.
  revert r i. induction ticks as [|t0 ticks IH]; intros r i Hi; [done|].
  cbn [report_all report]. destruct i as [|i].
  - injection Hi as ->. done.
  - change ((t0 :: ticks) !! S i) with (ticks !! i) in Hi.
    change ((?x :: ?l) !! S i) with (l !! i).
    rewrite (IH _ i Hi). destruct i as [|j]; [done|].
    change ((t0 :: ticks) !! S j) with (ticks !! j).
    destruct (ticks !! j) as [p|] eqn:Ej; [done|].
    apply lookup_ge_None in Ej. apply lookup_lt_Some in Hi. lia.
Qed.

Lemma statsReporter_lookup {A : RateArith} startTime ticks i t :
  ticks !! i = Some t →
  statsReporter startTime ticks !! i
  = Some (report startTime t (baseline startTime ticks i)).1.
Proof.
  intros Hi. unfold statsReporter. rewrite (report_all_lookup _ _ _ _ _ Hi).
  unfold baseline. destruct i as [|j]; [done|].
  destruct (ticks !! j) eqn:Ej; [done|].
  apply lookup_ge_None in Ej. apply lookup_lt_Some in Hi. lia.
Qed.

(** A counter that has not moved over an interval of positive length
    gives the rate +0. *)
Lemma instant_rate_zero_binary64 startTime t r m e :
  total t = lastTotal r →
  seconds (RateArith:=binary64) (now t - lastTime r) = S754_finite false m e →
  instantRate (report (A:=binary64) startTime t r).1 = S754_zero false.
Proof.
  intros Heq Hpos. cbn [report fst instantRate].
  rewrite Heq, Z.sub_diag, Hpos. reflexivity.
Qed.

Lemma normal64_inv f :
  normal64 f = true →
  ∃ m e, f = S754_finite false m e
         ∧ (2 ^ 52 <= Zpos m < 2 ^ 53)%Z ∧ -900 <= e <= 900.
Proof.
  unfold normal64. destruct f as [| | |[] m e]; try done.
  intros H. exists m, e. split; [done|]. lia.
Qed.

(** float64 of a positive uint64: a normal number nearest to it, and the
    number itself below 2^53. *)
Lemma b64_of_Z_spec T :
  (0 < T < 2 ^ 64)%Z →
  ∃ M E, b64_of_Z T = S754_finite false M E
         ∧ (2 ^ 52 <= Zpos M < 2 ^ 53)%Z ∧ -52 <= E <= 12
         ∧ nearest64 M E (T * 2 ^ 2000) 1
         ∧ ((T < 2 ^ 53)%Z → Zpos M * 2 ^ (E + 2000) = T * 2 ^ 2000).
Proof.
  intros HT. destruct T as [|p|p]; [lia| |lia].
  unfold b64_of_Z. cbn [binary_normalize].
  pose proof (digits2_pos_le p 64 ltac:(lia)) as Hd.
  destruct (binary_round_spec p 0 ltac:(lia) ltac:(lia))
    as (M & E & -> & HM & HE & Hnear & Hex).
  exists M, E. change (0 + 2000) with 2000 in *.
  split; [done|]. split; [done|]. split; [lia|]. split; [done|].
  intros Hsmall. apply Hex. by apply digits2_pos_le.
Qed.

Lemma b64_of_Z_normal T :
  (0 < T < 2 ^ 64)%Z →
  ∃ M E, b64_of_Z T = S754_finite false M E
         ∧ (2 ^ 52 <= Zpos M < 2 ^ 53)%Z ∧ -52 <= E <= 12.
Proof.
  intros HT. destruct (b64_of_Z_spec T HT) as (M & E & ? & ? & ? & _). eauto.
Qed.

Lemma sval_finite M E : sval (S754_finite false M E) = Zpos M * 2 ^ (E + 2000).
Proof. done. Qed.

(** The fraction of a second: +0 for no nanosecond, otherwise a normal
    number below one that grows with the nanoseconds. *)
Lemma frac_spec nsec :
  0 <= nsec < 1000000000 →
  (nsec = 0
   ∧ b64_div (b64_of_Z nsec) (b64_of_Z 1000000000) = S754_zero false)
  ∨ (0 < nsec
     ∧ ∃ X a M E,
         b64_of_Z nsec = S754_finite false X a
         ∧ (2 ^ 52 <= Zpos X < 2 ^ 53)%Z ∧ -52 <= a <= -23
         ∧ Zpos X * 2 ^ (a + 2000) = nsec * 2 ^ 2000
         ∧ b64_div (b64_of_Z nsec) (b64_of_Z 1000000000)
           = S754_finite false M E
         ∧ (2 ^ 52 <= Zpos M < 2 ^ 53)%Z ∧ -117 <= E <= -53).
Proof.
  intros Hn. assert (nsec = 0 ∨ 0 < nsec) as [->|Hpos] by lia; [by left|right].
  split; [done|].
  destruct (b64_of_Z_spec nsec) as (X & a & HX_eq & HX & Ha & _ & Hexact).
  { change (2 ^ 64) with 18446744073709551616. lia. }
  specialize (Hexact ltac:(change (2 ^ 53) with 9007199254740992; lia)).
  assert (Zpos X * 2 ^ (a + 2000)
          < 8388608000000000 * 2 ^ (-23 + 2000)) as Hlt.
  { rewrite Hexact. change (-23 + 2000) with 1977.
    replace (2 ^ 2000) with (2 ^ 23 * 2 ^ 1977)
      by (rewrite <- Z.pow_add_r by lia; done).
    assert (0 < 2 ^ 1977) by (apply Z.pow_pos_nonneg; lia).
    change (2 ^ 23) with 8388608. nia. }
  assert (a < -23 ∨ (a = -23 ∧ Zpos X < 8388608000000000)) as Hlex.
  { destruct (Z_lt_le_dec a (-23)) as [?|Hge]; [auto|right].
    destruct (Z.eq_dec a (-23)) as [->|Hne].
    - split; [done|].
      destruct (Z_lt_le_dec (Zpos X) 8388608000000000) as [?|Hxge]; [done|].
      pose proof (scaled_le_lex 8388608000000000 (-23) X (-23)
                    ltac:(by vm_compute) HX ltac:(lia) ltac:(lia)) as Hc.
      assert (8388608000000000 * 2 ^ (-23 + 2000)
              <= Zpos X * 2 ^ (-23 + 2000)); [|lia].
      apply Z.mul_le_mono_nonneg_r; [apply Z.pow_nonneg|]; lia.
    - pose proof (scaled_lt 8388608000000000 (-23) X a
                    ltac:(by vm_compute) HX ltac:(lia) ltac:(lia)
                    ltac:(left; lia)). lia. }
  change (b64_of_Z 1000000000) with (S754_finite false 8388608000000000 (-23)).
  rewrite HX_eq.
  destruct (SFdiv_normal X a 8388608000000000 (-23) HX
              ltac:(by vm_compute) ltac:(lia))
    as (M & k & Hdiv & Hk & HM & Hup & Hlo & Hlow).
  exists X, a, M, (a - -23 - k). unfold b64_div.
  assert (-117 <= a - -23 - k <= -53) as HE.
  { change (2 ^ 52) with 4503599627370496 in *.
    change (2 ^ 53) with 9007199254740992 in *.
    assert (Zpos M = 4503599627370496 ∨ 4503599627370496 < Zpos M)
      as HMc by lia.
    destruct Hk as [Hk|[Hk|Hk]]; subst k;
      cbn [Z.add Pos.add Pos.succ] in *;
      repeat match goal with
        | H : context [2 ^ ?n] |- _ =>
            let v := eval vm_compute in (2 ^ n) in change (2 ^ n) with v in H
        end;
      destruct HMc as [HMc|HMc];
      try (specialize (Hlow HMc); rewrite HMc in Hlow);
      try specialize (Hlo HMc); lia. }
  split_and!; try done; lia.
Qed.

Lemma sval_nonneg f : 0 <= sval f.
Proof.
  destruct f as [| | |[] m e]; cbn [sval]; try done.
  apply Z.mul_nonneg_nonneg; [lia|]. apply Z.pow_nonneg. lia.
Qed.

Lemma frac_mono n1 n2 :
  0 <= n1 <= n2 → n2 < 1000000000 →
  sval (b64_div (b64_of_Z n1) (b64_of_Z 1000000000))
  <= sval (b64_div (b64_of_Z n2) (b64_of_Z 1000000000)).
Proof.
  intros Hn Hn2.
  destruct (frac_spec n1 ltac:(lia)) as [[-> ->]|(Hp1 & X1 & a1 & M1 & E1 & Hx1
    & HX1 & Ha1 & Hex1 & Hf1 & HM1 & HE1)]; [apply sval_nonneg|].
  destruct (frac_spec n2 ltac:(lia)) as [[-> _]|(Hp2 & X2 & a2 & M2 & E2 & Hx2
    & HX2 & Ha2 & Hex2 & Hf2 & HM2 & HE2)]; [lia|].
  assert (SFleb (S754_finite false X1 a1) (S754_finite false X2 a2) = true)
    as Hle.
  { apply SFleb_finite, scaled_le_lex; [done|done|lia|lia|].
    rewrite Hex1, Hex2. apply Z.mul_le_mono_nonneg_r; [apply Z.pow_nonneg|]; lia. }
  pose proof (SFdiv_monotone X1 a1 X2 a2 8388608000000000 (-23) HX1 HX2
                ltac:(by vm_compute) ltac:(lia) ltac:(lia) Hle) as Hdiv.
  change (b64_of_Z 1000000000)
    with (S754_finite false 8388608000000000 (-23)) in *.
  rewrite Hx1 in Hf1. rewrite Hx2 in Hf2. unfold b64_div in *.
  rewrite Hx1, Hx2, Hf1, Hf2. rewrite Hf1, Hf2 in Hdiv.
  apply SFleb_finite in Hdiv. rewrite !sval_finite.
  destruct Hdiv as [Hlt|[-> Hm]].
  - apply Z.lt_le_incl, scaled_lt; [done|done|lia|lia|auto].
  - apply Z.mul_le_mono_nonneg_r; [apply Z.pow_nonneg; lia|done].
Qed.

(** The seconds of a positive Duration: a nearest number to the whole
    seconds plus the fraction. *)
Lemma b64_seconds_spec d :
  (0 < d < 2 ^ 63)%Z →
  ∃ M E, b64_seconds d = S754_finite false M E
         ∧ (2 ^ 52 <= Zpos M < 2 ^ 53)%Z ∧ -200 <= E <= 100
         ∧ nearest64 M E
             (d / 1000000000 * 2 ^ 2000
              + sval (b64_div (b64_of_Z (d mod 1000000000))
                              (b64_of_Z 1000000000))) 1.
Proof.
  intros Hd. unfold b64_seconds.
  assert (Z.quot d 1000000000 = d / 1000000000) as -> by (apply Z.quot_div_nonneg; lia).
  assert (Z.rem d 1000000000 = d mod 1000000000) as -> by (apply Z.rem_mod_nonneg; lia).
  pose proof (Z.div_mod d 1000000000 ltac:(lia)) as Hdm.
  pose proof (Z.mod_pos_bound d 1000000000 ltac:(lia)) as Hmod.
  assert (0 <= d / 1000000000) as Hsec by (apply Z.div_pos; lia).
  assert (d / 1000000000 < 2 ^ 53)%Z as Hsec53.
  { apply Z.div_lt_upper_bound; [lia|].
    change (2 ^ 63) with 9223372036854775808 in Hd.
    change (2 ^ 53) with 9007199254740992. lia. }
  set (sec := d / 1000000000) in *. set (nsec := d mod 1000000000) in *.
  assert (sec = 0 ∨ 0 < sec) as [Hs0|Hspos] by lia.
  - (* less than a second *)
    rewrite Hs0. change (b64_of_Z 0) with (S754_zero false).
    destruct (frac_spec nsec Hmod) as [[Hn0 _]|(_ & X & a & M & E & _ & _ & _
      & _ & -> & HM & HE)]; [lia|].
    cbn [b64_add SFadd]. exists M, E.
    split; [done|]. split; [done|]. split; [lia|].
    rewrite sval_finite. change (0 * 2 ^ 2000) with 0. rewrite Z.add_0_l.
    apply nearest64_exact. lia.
  - destruct (b64_of_Z_spec sec) as (X & a & -> & HX & Ha & Hnear & Hexact).
    { change (2 ^ 53) with 9007199254740992 in Hsec53.
      change (2 ^ 64) with 18446744073709551616. lia. }
    specialize (Hexact Hsec53).
    destruct (frac_spec nsec Hmod) as [[Hn0 ->]|(_ & X' & a' & M & E & _ & _ & _
      & _ & -> & HM & HE)].
    + (* whole seconds *)
      cbn [b64_add SFadd sval]. exists X, a. rewrite Z.add_0_r.
      split; [done|]. split; [done|]. split; [lia|done].
    + unfold b64_add.
      destruct (SFadd_spec X a M E HX HM ltac:(lia) ltac:(lia))
        as (M' & E' & -> & HM' & HE' & Hnear').
      exists M', E'. rewrite sval_finite, <- Hexact.
      split; [done|]. split; [done|]. split; [lia|done].
Qed.

(** The seconds grow with the Duration. *)
Lemma b64_seconds_mono d1 d2 :
  0 < d1 → d1 <= d2 → (d2 < 2 ^ 63)%Z →
  SFleb (b64_seconds d1) (b64_seconds d2) = true.
Proof.
  intros Hd1 Hle Hd2.
  destruct (b64_seconds_spec d1 ltac:(lia)) as (M1 & E1 & Hs1 & HM1 & HE1 & Hn1).
  destruct (b64_seconds_spec d2 ltac:(lia)) as (M2 & E2 & Hs2 & HM2 & HE2 & Hn2).
  pose proof (Z.div_mod d1 1000000000 ltac:(lia)) as Hdm1.
  pose proof (Z.mod_pos_bound d1 1000000000 ltac:(lia)) as Hmod1.
  pose proof (Z.div_mod d2 1000000000 ltac:(lia)) as Hdm2.
  pose proof (Z.mod_pos_bound d2 1000000000 ltac:(lia)) as Hmod2.
  set (sec1 := d1 / 1000000000) in *. set (nsec1 := d1 mod 1000000000) in *.
  set (sec2 := d2 / 1000000000) in *. set (nsec2 := d2 mod 1000000000) in *.
  set (f1 := b64_div (b64_of_Z nsec1) (b64_of_Z 1000000000)) in *.
  set (f2 := b64_div (b64_of_Z nsec2) (b64_of_Z 1000000000)) in *.
  assert (0 < 2 ^ 2000) as HK by (apply Z.pow_pos_nonneg; lia).
  assert (sval f1 < 2 ^ 2000) as Hf1.
  { subst f1. destruct (frac_spec nsec1 Hmod1) as [[_ ->]|(_ & X & a & M & E
      & _ & _ & _ & _ & -> & HM & HE)]; [done|].
    rewrite sval_finite.
    pose proof (scaled_lt M E 4503599627370496 (-52) HM ltac:(by vm_compute)
                  ltac:(lia) ltac:(lia) ltac:(left; lia)) as Hlt.
    replace (4503599627370496 * 2 ^ (-52 + 2000)) with (2 ^ 2000) in Hlt; [done|].
    change 4503599627370496 with (2 ^ 52).
    rewrite <- Z.pow_add_r by lia. done. }
  pose proof (sval_nonneg f2) as Hf2.
  assert (sec1 * 2 ^ 2000 + sval f1 < sec2 * 2 ^ 2000 + sval f2
          ∨ b64_seconds d1 = b64_seconds d2) as [Hlt|Heq].
  { destruct (Z_lt_le_dec sec1 sec2) as [Hsec|Hsec].
    - left. assert ((sec1 + 1) * 2 ^ 2000 <= sec2 * 2 ^ 2000)
        by (apply Z.mul_le_mono_nonneg_r; lia). lia.
    - assert (sec1 = sec2) as Hseq by (subst sec1 sec2; apply Z.le_antisymm;
        [apply Z.div_le_mono; lia|done]).
      assert (nsec1 <= nsec2) as Hns by lia.
      pose proof (frac_mono nsec1 nsec2 ltac:(lia) ltac:(lia)) as Hfm.
      fold f1 f2 in Hfm.
      destruct (Z.eq_dec (sval f1) (sval f2)) as [Hsv|Hsv]; [right|left; lia].
      assert (f1 = f2) as Hff.
      { subst f1 f2.
        destruct (frac_spec nsec1 Hmod1) as [[_ Hz1]|(_ & X1 & a1 & M1' & E1'
          & _ & _ & _ & _ & Hq1 & HM1' & HE1')];
        destruct (frac_spec nsec2 Hmod2) as [[_ Hz2]|(_ & X2 & a2 & M2' & E2'
          & _ & _ & _ & _ & Hq2 & HM2' & HE2')];
        rewrite ?Hz1, ?Hz2, ?Hq1, ?Hq2 in *; [done| | |].
        - cbn [sval] in Hsv.
          assert (0 < Zpos M2' * 2 ^ (E2' + 2000)); [|lia].
          apply Z.mul_pos_pos; [lia|apply Z.pow_pos_nonneg; lia].
        - cbn [sval] in Hsv.
          assert (0 < Zpos M1' * 2 ^ (E1' + 2000)); [|lia].
          apply Z.mul_pos_pos; [lia|apply Z.pow_pos_nonneg; lia].
        - rewrite !sval_finite in Hsv.
          pose proof (scaled_le_lex M1' E1' M2' E2' HM1' HM2' ltac:(lia)
                        ltac:(lia) ltac:(lia)) as Ha.
          pose proof (scaled_le_lex M2' E2' M1' E1' HM2' HM1' ltac:(lia)
                        ltac:(lia) ltac:(lia)) as Hb.
          assert (E1' = E2' ∧ Zpos M1' = Zpos M2') as [-> Hmm] by lia.
          by injection Hmm as ->. }
      unfold b64_seconds.
      rewrite !Z.quot_div_nonneg, !Z.rem_mod_nonneg by lia.
      fold sec1 sec2 nsec1 nsec2 f1 f2. by rewrite Hseq, Hff. }
  - rewrite Hs1, Hs2. apply SFleb_finite.
    apply (nearest64_order M1 E1 _ M2 E2 _ HM1 HM2 ltac:(lia) ltac:(lia)
             Hn1 Hn2 Hlt).
  - rewrite Heq, Hs2. apply SFleb_finite. right. split; [done|lia].
Qed.

(** The seconds of a positive Duration: a positive normal number. *)
Lemma b64_seconds_normal d :
  (0 < d < 2 ^ 63)%Z → normal64 (b64_seconds d) = true.
Proof.
  intros Hd. unfold b64_seconds.
  assert (Z.quot d 1000000000 = d / 1000000000) as -> by (apply Z.quot_div_nonneg; lia).
  assert (Z.rem d 1000000000 = d mod 1000000000) as -> by (apply Z.rem_mod_nonneg; lia).
  pose proof (Z.div_mod d 1000000000 ltac:(lia)) as Hdm.
  pose proof (Z.mod_pos_bound d 1000000000 ltac:(lia)) as Hmod.
  assert (0 <= d / 1000000000) as Hsec by (apply Z.div_pos; lia).
  assert (d / 1000000000 < 2 ^ 64)%Z as Hsec64.
  { apply Z.div_lt_upper_bound; [lia|].
    change (2 ^ 63) with 9223372036854775808 in Hd.
    change (2 ^ 64) with 18446744073709551616. lia. }
  set (sec := d / 1000000000) in *. set (nsec := d mod 1000000000) in *.
  assert (∀ m e, (2 ^ 52 <= Zpos m < 2 ^ 53)%Z → -900 <= e <= 900 →
                 normal64 (S754_finite false m e) = true) as Hnormal.
  { intros m e Hm He. cbn [normal64].
    rewrite !andb_true_iff, !Z.leb_le, Z.ltb_lt. lia. }
  assert (nsec = 0 ∨ 0 < nsec) as [Hn0|Hnpos] by lia;
    (assert (sec = 0 ∨ 0 < sec) as [Hs0|Hspos] by lia).
  - lia.
  - rewrite Hn0.
    destruct (b64_of_Z_normal sec ltac:(lia)) as (X & a & -> & HX & Ha).
    change (b64_div (b64_of_Z 0) (b64_of_Z 1000000000)) with (S754_zero false).
    cbn [b64_add SFadd]. apply Hnormal; lia.
  - rewrite Hs0. change (b64_of_Z 0) with (S754_zero false).
    destruct (b64_of_Z_normal nsec) as (X & a & -> & HX & Ha).
    { change (2 ^ 64) with 18446744073709551616. lia. }
    change (b64_of_Z 1000000000)
      with (S754_finite false 8388608000000000 (-23)).
    destruct (SFdiv_normal X a 8388608000000000 (-23) HX
                ltac:(by vm_compute) ltac:(lia))
      as (M & k & Hdiv & Hk & HM & _).
    unfold b64_div. rewrite Hdiv. cbn [b64_add SFadd]. apply Hnormal; lia.
  - destruct (b64_of_Z_normal sec ltac:(lia)) as (X & a & -> & HX & Ha).
    destruct (b64_of_Z_normal nsec) as (X' & a' & -> & HX' & Ha').
    { change (2 ^ 64) with 18446744073709551616. lia. }
    change (b64_of_Z 1000000000)
      with (S754_finite false 8388608000000000 (-23)).
    destruct (SFdiv_normal X' a' 8388608000000000 (-23) HX'
                ltac:(by vm_compute) ltac:(lia))
      as (M & k & Hdiv & Hk & HM & _).
    unfold b64_div. rewrite Hdiv.
    destruct (SFadd_normal X a M (a' - -23 - k) HX HM ltac:(lia) ltac:(lia))
      as (M' & E' & Hadd & HM' & HE').
    unfold b64_add. rewrite Hadd. apply Hnormal; lia.
Qed.

(** C3 (as amended): on every tick the overall rate is float64 of the
    counter read at the tick divided, in float64, by the seconds since
    [startTime], and the instantaneous rate is float64 of the difference
    to the counter read at the tick before (taken in uint64; it is the
    plain difference when the counter has not gone back) divided by the
    seconds since that tick.  When two consecutive ticks read the same
    counter, the instantaneous rate of the second is +0, and its overall
    rate is not above that of the first as long as the clock has not
    gone back; both are +0 when the counter is 0.  The durations are
    positive and in the range of a Duration. *)
Theorem stats_rates startTime ticks i t :
  ticks !! i = Some t →
  let b := baseline startTime ticks i in
  ∃ line : StatsLine binary64,
    statsReporter startTime ticks !! i = Some line
    ∧ line_total line = total t
    ∧ runtime line = b64_seconds (since_clock t - startTime)
    ∧ overallRate line = b64_div (b64_of_Z (total t)) (runtime line)
    ∧ instantRate line
      = b64_div (b64_of_Z (wrap64 (total t - lastTotal b)))
                (b64_seconds (now t - lastTime b))
    ∧ (0 ≤ lastTotal b ≤ total t ∧ total t < 2 ^ 64 →
       wrap64 (total t - lastTotal b) = total t - lastTotal b)
    ∧ (∀ j p, i = S j → ticks !! j = Some p →
       lastTotal b = total p ∧ lastTime b = now p
       ∧ (total t = total p →
          ((0 < now t - now p < 2 ^ 63)%Z →
           instantRate line = S754_zero false)
          ∧ ∀ lp : StatsLine binary64,
              statsReporter startTime ticks !! j = Some lp →
              (0 < since_clock p - startTime < 2 ^ 63)%Z →
              (0 < since_clock t - startTime < 2 ^ 63)%Z →
              since_clock p <= since_clock t →
              ((0 < total t < 2 ^ 64)%Z →
               SFleb (overallRate line) (overallRate lp) = true)
              ∧ (total t = 0 →
                 overallRate line = S754_zero false
                 ∧ overallRate lp = S754_zero false))).
Proof.
  intros Hi b. eexists. split; [by apply statsReporter_lookup|].
  cbn [report fst line_total overallRate instantRate runtime].
  split_and!; try reflexivity.
  - intros Hrange. apply wrap64_small. lia.
  - intros j p -> Hj. subst b. unfold baseline. rewrite Hj.
    cbn [lastTotal lastTime]. split_and!; [done..|].
    intros Heq. split.
    + intros Hpos. apply b64_seconds_normal, normal64_inv in Hpos
        as (m & e & Hsec & _).
      apply (instant_rate_zero_binary64 startTime t
               (mkReporter (total p) (now p)) m e); [done|exact Hsec].
    + intros lp Hlp Hn1 Hn2 Hclock.
      assert (SFleb (b64_seconds (since_clock p - startTime))
                    (b64_seconds (since_clock t - startTime)) = true) as Hle
        by (apply b64_seconds_mono; lia).
      rewrite (statsReporter_lookup _ _ _ _ Hj) in Hlp. injection Hlp as <-.
      cbn [report fst overallRate runtime] in *.
      cbn [seconds of_uint64 fdiv binary64] in *.
      rewrite Heq in *.
      apply b64_seconds_normal, normal64_inv in Hn1
        as (m1 & e1 & Hs1 & Hm1 & He1).
      apply b64_seconds_normal, normal64_inv in Hn2
        as (m2 & e2 & Hs2 & Hm2 & He2).
      rewrite Hs1, Hs2 in *. split.
      * intros Htot.
        destruct (b64_of_Z_normal (total p) Htot) as (X & a & -> & HX & Ha).
        apply SFdiv_antitone; (done || lia).
      * intros ->. done.
Qed.

End StatsFacts.

(** * Further properties of the code *)

(** ** What the workers submit *)

Section SubmittedFacts.
Import Bufio KeyGen Pipeline Observed.
Context `{Crypto}.
Variable cfg : Config.

Lemma step_submitted l s s' :
  Inv s → step cfg l s = Some s' →
  submitted s' = submitted s ++ option_list (candidate cfg l).
Proof.
  intros HI. unfold step. destruct (exited s); [done|].
  destruct l as [id rng pick| |]; cbn [candidate].
  - destruct (workers s !! id) as [w|] eqn:Ew; [|done].
    destruct (parked w) eqn:Ep; [done|]. intros [= <-].
    destruct rng as [err|key].
    { rewrite worker_iter_fail. cbn. by rewrite app_nil_r. }
    destruct (worker_iter_ok cfg id key pick w s) as [pool' ->]. cbn zeta.
    destruct (ReadAddresses.exists_in _ _).
    + unfold send. cbn [matchChan]. by case_bool_decide.
    + cbn. by rewrite app_nil_r.
  - destruct (consumer s); [|done]. intros [= <-]. unfold writer_open.
    destruct (openOutput cfg); cbn; by rewrite app_nil_r.
  - destruct (consumer s) as [|b f] eqn:Ec; [done|].
    destruct (recv s) as [[m s1]|] eqn:Er; [|done].
    destruct (recv_inv _ _ _ HI ltac:(by rewrite Ec) Er)
      as (_ & _ & _ & _ & _ & _ & _ & _ & Hsub).
    unfold write_match.
    destruct (WriteString (render m) b f) as [[err b1] f1].
    destruct (Flush b1 f1) as [[err2 b2] f2].
    intros [= <-]. cbn [submitted option_list].
    by rewrite Hsub, app_nil_r.
Qed.

Lemma length_omap_le {A B} (f : A → option B) (l : list A) :
  (length (omap f l) ≤ length l)%nat.
Proof.
  induction l as [|x l IH]; cbn; [done|]. destruct (f x); cbn; lia.
Qed.

Lemma run_app_inv t1 t2 s s' :
  run cfg (t1 ++ t2) s = Some s' →
  ∃ s1, run cfg t1 s = Some s1 ∧ run cfg t2 s1 = Some s'.
Proof.
  rewrite run_app. destruct (run cfg t1 s) as [s1|]; [|done].
  cbn. by eauto.
Qed.

Lemma run_submitted t s s' :
  Inv s → run cfg t s = Some s' →
  submitted s' = submitted s ++ matches_of cfg t.
Proof.
  revert s. induction t as [|l t IH]; intros s HI; cbn [run].
  - intros [= <-]. cbn. by rewrite app_nil_r.
  - destruct (step cfg l s) as [s1|] eqn:Es; [|done]. intros Hr.
    rewrite (IH s1 (step_inv cfg _ _ _ HI Es) Hr).
    rewrite (step_submitted _ _ _ HI Es), <- app_assoc.
    unfold matches_of. cbn [omap list_omap].
    f_equal. by destruct (candidate cfg l).
Qed.

(** X1.  The records submitted to the channel are exactly the candidates
    whose derived address is in the index, in the order the iterations
    reached their send statement: none is invented, none is skipped.  Each
    pairs a key with the address derived from that very key. *)
Theorem submitted_are_the_matches n t s :
  run cfg t (initial n) = Some s →
  submitted s = matches_of cfg t
  ∧ Forall (λ r, address r = address_of (privateKey r)
                 ∧ ReadAddresses.exists_in (btcAddresses cfg) (address r) = true)
           (submitted s).
Proof.
  intros Hr. pose proof (run_submitted _ _ _ (initial_inv n) Hr) as Hsub.
  cbn in Hsub. rewrite Hsub. split; [done|].
  unfold matches_of. apply Forall_forall. intros r Hin.
  apply list_elem_of_omap in Hin as (l & _ & Hl).
  destruct l as [id [err|key] pick| |]; cbn [candidate] in Hl; try done.
  destruct (ReadAddresses.exists_in _ _) eqn:Em; [|done].
  injection Hl as <-. done.
Qed.

(** X2.  End to end, while the device accepts the writes: the file holds
    what it held when it was opened, followed by the lines of the first
    matches of the run, as many as the consumer has taken steps to
    receive. *)
Theorem file_holds_first_matches n t s f0 out :
  run cfg t (initial n) = Some s →
  Forall (λ o, o = WriteOk) (write_outcomes cfg) →
  openOutput cfg = inr f0 →
  out_data s = Some out →
  out = data f0
        +:+ render_all (take (length (filter is_recv t)) (matches_of cfg t)).
Proof.
  intros Hr Hdev Hf0 Hout.
  pose proof (reachable_inv cfg _ _ _ Hr) as HI.
  pose proof (run_submitted _ _ _ (initial_inv n) Hr) as Hsub.
  destruct (run_history cfg _ _ _ (initial_inv n) Hr) as (_ & _ & Hlen & _).
  cbn in Hsub, Hlen. rewrite <- Hsub, <- Hlen.
  assert (dequeued s `prefix_of` submitted s) as Hpre
    by (rewrite (inv_conserve s HI); by eexists).
  rewrite <- (prefix_take _ _ Hpre).
  assert (OutInv cfg s) as HO.
  { eapply run_outinv; [done|apply initial_inv| |done]. by cbn. }
  unfold OutInv, out_data in *. destruct (consumer s) as [|b f]; [done|].
  destruct HO as (_ & _ & f0' & Hf0' & Hd). congruence.
Qed.

Lemma can_step s :
  Inv s → (0 < length (workers s))%nat → exited s = None →
  ∃ l s', step cfg l s = Some s'.
Proof.
  intros HI Hlen Hex.
  destruct (consumer s) as [|b f] eqn:Ec.
  { exists WriterOpen. unfold step. rewrite Hex, Ec. by eexists. }
  destruct (matchChan s) as [|m rest] eqn:Ech.
  - assert (sendq s = []) as Hq.
    { destruct (sendq s) eqn:E; [done|].
      pose proof (inv_full s HI) as Hfull. rewrite E, Ech in Hfull.
      by specialize (Hfull ltac:(done)). }
    destruct (workers s !! 0%nat) as [w|] eqn:Ew;
      [|apply lookup_ge_None in Ew; lia].
    exists (WorkerIter 0 (inl ErrRand) None). unfold step. rewrite Hex, Ew.
    destruct (parked w) as [r|] eqn:Ep; [|by eexists].
    assert (0%nat ∈ sendq s) as Hin by (apply (inv_parked s HI); eauto).
    rewrite Hq in Hin. by apply elem_of_nil in Hin.
  - destruct (recv_enabled s HI ltac:(by rewrite Ech)) as (m' & rest' & s1 & _ & Hrecv).
    exists WriterRecv. unfold step. rewrite Hex, Ec, Hrecv.
    destruct (write_match m' b f) as [[[logged printed] b'] f']. by eexists.
Qed.

(** X3.  The goroutines never come to a standstill: in every state a
    running program can reach, with at least one worker, some goroutine can
    take a step.  When every worker is parked the channel is full and the
    consumer can receive. *)
Theorem pipeline_never_stuck n t s :
  run cfg t (initial n) = Some s →
  (0 < n)%nat → exited s = None →
  ∃ l s', step cfg l s = Some s'.
Proof.
  intros Hr Hn Hex. apply can_step; [|rewrite (reachable_workers cfg _ _ _ Hr)|];
    eauto using reachable_inv.
Qed.

(** X4.  Backpressure bounds the backlog: the records submitted and not
    yet received are at most the 100 of the buffer plus one per worker. *)
Theorem backlog_bounded n t s :
  run cfg t (initial n) = Some s →
  (length (submitted s) - length (dequeued s) ≤ matchChanCap + n)%nat
  ∧ (length (waiting s) ≤ n)%nat.
Proof.
  intros Hr. pose proof (reachable_inv cfg _ _ _ Hr) as HI.
  pose proof (reachable_workers cfg _ _ _ Hr) as Hlen.
  assert (length (waiting s) ≤ n)%nat as Hw.
  { unfold waiting. etrans; [apply length_omap_le|].
    trans (length (seq 0 n)); [|by rewrite length_seq].
    apply submseteq_length.
    apply NoDup_submseteq; [apply (inv_nodup s HI)|].
    intros id Hin. apply (inv_parked s HI) in Hin as (w & r & Hw & _).
    apply elem_of_seq. apply lookup_lt_Some in Hw. lia. }
  split; [|done]. rewrite (inv_conserve s HI), !length_app.
  pose proof (inv_cap s HI). lia.
Qed.

End SubmittedFacts.

(** ** The consumer under a failing device *)

Section DeviceFacts.
Import Bufio KeyGen Pipeline Observed.
Context `{Crypto}.
Variable cfg : Config.

Lemma string_of_list_ascii_app (a b : list ascii) :
  string_of_list_ascii (a ++ b) = string_of_list_ascii a +:+ string_of_list_ascii b.
Proof.
  induction a as [|x a IH]; [done|].
  cbn [app string_of_list_ascii]. by rewrite str_app_cons, IH.
Qed.

Lemma stake_sdrop n (p : string) : stake n p +:+ sdrop n p = p.
Proof.
  unfold stake, sdrop. rewrite <- string_of_list_ascii_app, take_drop.
  apply string_of_list_ascii_of_string.
Qed.

Lemma fileWrite_cases p f :
  (∃ rest, fileWrite p f
           = (String.length p, None, mkOutFile (data f +:+ p) rest))
  ∨ (∃ n e rest, fileWrite p f
                 = (Nat.min n (String.length p), Some e,
                    mkOutFile (data f +:+ stake n p) rest)).
Proof.
  unfold fileWrite. destruct (outcomes f) as [|[|n e] rest]; eauto.
Qed.

(** Writing a record through a writer that holds no error and no bytes:
    either the whole line reaches the file and the writer is as before, or
    the device fails, a part of the line reaches the file and the writer
    keeps the error. *)
Lemma write_match_fresh m f :
  ∃ lg b' f',
    write_match m NewWriter f
    = (lg, PrintSavedToFile (Hex.EncodeToString (Serialize (privateKey m)))
             (address m), b', f')
    ∧ ((b' = NewWriter ∧ lg = [] ∧ data f' = data f +:+ render m)
       ∨ (∃ e k rest, werr b' = Some e ∧ data f' = data f +:+ k
                      ∧ render m = k +:+ rest)).
Proof.
  pose proof (render_length m) as Hlen.
  unfold write_match, WriteString.
  cbn [WriteString_loop]. unfold Available, Buffered, NewWriter.
  cbn [wbuf werr String.length].
  rewrite (bool_decide_true (None = None)) by done. rewrite andb_true_r.
  rewrite (bool_decide_true (0%nat = 0%nat)) by done.
  case_bool_decide as Hbig.
  - destruct (fileWrite_cases (render m) f) as [[rest Hw]|(n & e & rest & Hw)];
      rewrite Hw.
    + rewrite sdrop_all. cbn [WriteString_loop werr wbuf].
      cbn [String.length]. unfold Available, Buffered. cbn [wbuf String.length].
      rewrite bool_decide_false by lia. cbn [andb werr wbuf].
      unfold Flush. cbn [werr wbuf]. unfold Buffered. cbn.
      do 3 eexists. split; [done|]. left. done.
    + cbn [WriteString_loop werr wbuf].
      rewrite (bool_decide_false (Some e = None)) by done.
      rewrite andb_false_r. cbn [werr]. unfold Flush. cbn [werr].
      do 3 eexists. split; [done|]. right.
      exists e, (stake n (render m)), (sdrop n (render m)).
      cbn [werr data]. by rewrite stake_sdrop.
  - cbn [werr wbuf]. rewrite str_app_nil_l. unfold Flush. cbn [werr wbuf].
    unfold Buffered. cbn [wbuf].
    rewrite bool_decide_false by lia.
    destruct (fileWrite_cases (render m) f) as [[rest Hw]|(n & e & rest & Hw)];
      rewrite Hw.
    + rewrite bool_decide_false by lia.
      do 3 eexists. split; [done|]. left. done.
    + do 3 eexists. split; [done|]. right.
      exists e, (stake n (render m)), (sdrop n (render m)).
      cbn [werr data]. by rewrite stake_sdrop.
Qed.

Lemma recv_frame s m s1 :
  recv s = Some (m, s1) →
  consumer s1 = consumer s ∧ logs s1 = logs s ∧ stdout s1 = stdout s
  ∧ exited s1 = exited s ∧ submitted s1 = submitted s
  ∧ dequeued s1 = dequeued s ++ [m] ∧ pool s1 = pool s.
Proof.
  unfold recv. destruct (matchChan s) as [|m0 rest]; [done|].
  destruct (sendq s) as [|id q].
  { intros [= <- <-]. done. }
  destruct (workers s !! id) as [w|]; [|done].
  destruct (parked w); [|done]. intros [= <- <-]. done.
Qed.

Lemma worker_iter_quiet id rng pick w s :
  let s' := worker_iter cfg id rng pick w s in
  filter write_failure (logs s') = filter write_failure (logs s)
  ∧ omap reported (stdout s') = omap reported (stdout s).
Proof.
  cbn zeta. destruct rng as [err|key].
  { rewrite worker_iter_fail. cbn [logs stdout].
    rewrite filter_app. cbn. by rewrite app_nil_r. }
  destruct (worker_iter_ok cfg id key pick w s) as [pool' ->]. cbn zeta.
  destruct (ReadAddresses.exists_in _ _).
  - unfold send. cbn [matchChan].
    case_bool_decide; cbn [logs stdout]; rewrite omap_app; cbn;
      by rewrite app_nil_r.
  - done.
Qed.

Lemma step_fileinv l s s' :
  FileInv cfg s → step cfg l s = Some s' → FileInv cfg s'.
Proof.
  unfold step. destruct (exited s); [done|].
  destruct l as [id rng pick| |].
  - destruct (workers s !! id) as [w|]; [|done].
    destruct (parked w); [done|]. intros HF [= <-].
    destruct (worker_iter_frame cfg id rng pick w s) as (Hc & Hd & _).
    unfold FileInv in *. by rewrite Hc, Hd.
  - destruct (consumer s) eqn:Ec; [|done]. intros HF [= <-].
    unfold FileInv in *. rewrite Ec in HF. unfold writer_open.
    destruct (openOutput cfg) as [err|f0] eqn:Eo; cbn [consumer dequeued].
    + by rewrite Ec.
    + exists f0, "", "". rewrite HF, str_app_nil_r. done.
  - destruct (consumer s) as [|b f] eqn:Ec; [done|].
    destruct (recv s) as [[m s1]|] eqn:Er; [|done].
    destruct (recv_frame _ _ _ Er) as (_ & _ & _ & _ & _ & Hdq & _).
    intros HF. unfold FileInv in HF. rewrite Ec in HF.
    destruct HF as (f0 & k & rest & Hf0 & Hdata & Hall & Hclean).
    destruct b as [buf [e|]].
    + rewrite write_match_sticky. intros [= <-].
      unfold FileInv. cbn [consumer dequeued werr].
      exists f0, k, (rest +:+ render m).
      rewrite Hdq, render_all_snoc, Hall, str_app_assoc. done.
    + destruct (Hclean eq_refl) as [-> ->].
      destruct (write_match_fresh m f) as (lg & b' & f' & -> & Hcase).
      intros [= <-]. unfold FileInv. cbn [consumer dequeued].
      rewrite Hdq, render_all_snoc, Hall, str_app_nil_r.
      destruct Hcase as [(-> & _ & Hd')|(e & k2 & rest2 & He & Hd' & Hr)].
      * exists f0, (k +:+ render m), "".
        rewrite Hd', Hdata, str_app_assoc, str_app_nil_r. done.
      * exists f0, (k +:+ k2), rest2.
        rewrite Hd', Hdata, Hr, !str_app_assoc, He. done.
Qed.

Lemma run_fileinv t s s' :
  FileInv cfg s → run cfg t s = Some s' → FileInv cfg s'.
Proof.
  revert s. induction t as [|l t IH]; intros s HF; cbn [run].
  - by intros [= <-].
  - destruct (step cfg l s) as [s1|] eqn:Es; [|done].
    eauto using step_fileinv.
Qed.

(** X5.  Whatever the device does with the writes, the output file is
    never damaged: it holds what it held when it was opened, followed by
    an initial part of the lines of the records received, in the order
    they were received.  While the writer holds no error nothing is
    missing and nothing is left in its buffer. *)
Theorem file_is_prefix_of_received n t s b f :
  run cfg t (initial n) = Some s →
  consumer s = Draining b f →
  ∃ f0 k rest,
    openOutput cfg = inr f0
    ∧ data f = data f0 +:+ k
    ∧ render_all (dequeued s) = k +:+ rest
    ∧ (werr b = None → wbuf b = "" ∧ rest = "").
Proof.
  intros Hr Hc.
  assert (FileInv cfg s) as HF by (eapply run_fileinv; [|done]; done).
  unfold FileInv in HF. rewrite Hc in HF.
  destruct HF as (f0 & k & rest & Hf0 & Hd & Hall & Hclean).
  exists f0, k, rest. split_and!; [done..|].
  intros Hn. by destruct (Hclean Hn) as [-> ->].
Qed.

(** X6.  A write error is for good: once the writer holds an error, the
    file and the writer never change again, however the run goes on, and
    every record received from then on is logged as a failed write. *)
Theorem write_error_is_permanent t s s' b f e :
  consumer s = Draining b f → werr b = Some e →
  run cfg t s = Some s' →
  consumer s' = Draining b f
  ∧ filter write_failure (logs s')
    = filter write_failure (logs s)
      ++ replicate (length (filter is_recv t)) (LogWriteFailed e).
Proof.
  intros Hc He. revert s Hc. induction t as [|l t IH]; intros s Hc; cbn [run].
  - intros [= <-]. cbn. by rewrite app_nil_r.
  - destruct (step cfg l s) as [s1|] eqn:Es; [|done]. intros Hr.
    revert Es. unfold step. destruct (exited s); [done|].
    destruct l as [id rng pick| |].
    + destruct (workers s !! id) as [w|]; [|done].
      destruct (parked w); [done|]. intros [= <-].
      destruct (worker_iter_quiet id rng pick w s) as [Hl _].
      destruct (IH _ ltac:(by rewrite worker_iter_consumer) Hr) as [-> ->].
      by rewrite Hl.
    + by rewrite Hc.
    + rewrite Hc. destruct (recv s) as [[m s1']|] eqn:Erecv; [|done].
      destruct (recv_frame _ _ _ Erecv) as (_ & Hlg & _).
      destruct b as [buf we]. cbn [werr] in He. subst we.
      rewrite write_match_sticky. intros [= <-].
      apply IH in Hr as [-> ->]; [|done]. split; [done|].
      cbn [logs]. rewrite Hlg, filter_app, <- app_assoc. done.
Qed.

(** X7.  The console line SAVED TO FILE is printed for every record
    received, in the order of reception, whether or not the write to the
    file succeeded. *)
Theorem saved_is_printed_for_every_received n t s :
  run cfg t (initial n) = Some s →
  omap reported (stdout s)
  = (λ m, (Hex.EncodeToString (Serialize (privateKey m)), address m))
      <$> dequeued s.
Proof.
  revert s. induction t as [|l t IH] using rev_ind; intros s.
  { cbn [run]. by intros [= <-]. }
  intros (s1 & Hr1 & Hstep)%run_app_inv. specialize (IH _ Hr1).
  cbn [run] in Hstep. destruct (step cfg l s1) as [s2|] eqn:Es; [|done].
  injection Hstep as ->.
  revert Es. unfold step. destruct (exited s1); [done|].
  destruct l as [id rng pick| |].
  - destruct (workers s1 !! id) as [w|]; [|done].
    destruct (parked w); [done|]. intros [= <-].
    destruct (worker_iter_quiet id rng pick w s1) as [_ ->].
    destruct (worker_iter_frame cfg id rng pick w s1) as (_ & -> & _).
    done.
  - destruct (consumer s1); [|done]. intros [= <-]. unfold writer_open.
    by destruct (openOutput cfg).
  - destruct (consumer s1) as [|b f]; [done|].
    destruct (recv s1) as [[m s1']|] eqn:Erecv; [|done].
    destruct (recv_frame _ _ _ Erecv) as (_ & _ & Hout & _ & _ & Hdq & _).
    unfold write_match.
    destruct (WriteString (render m) b f) as [[err b1] f1].
    destruct (Flush b1 f1) as [[err2 b2] f2]. intros [= <-].
    cbn [stdout dequeued]. rewrite Hout, Hdq, omap_app, fmap_app, IH. done.
Qed.

End DeviceFacts.

(** ** The buffer pool along a run *)

Section PoolFacts.
Import Bufio KeyGen Pipeline Observed.
Context `{Crypto}.

Lemma append_next s bs st :
  (next_array st ≤ next_array (append s bs st).2)%nat
  ∧ ((length (elems s) + length bs ≤ capacity s)%nat →
     append s bs st
     = (mkSlice (array s) (elems s ++ bs) (capacity s), st)).
Proof.
  unfold append. case_bool_decide; cbn; split; intros; try done; lia.
Qed.

(** The pool after a call that got a key: the buffer taken, emptied, is
    put back on a pool that differs from the one after Get by the arrays
    the appends allocated. *)
Lemma generateKeyAndAddress_pool key pick st :
  let got := (poolGet pick st).1 in
  let st1 := (poolGet pick st).2 in
  ∃ st4,
    (generateKeyAndAddress (inr key) pick st).2 = poolPut (reslice0 got) st4
    ∧ idle st4 = idle st1 ∧ history st4 = history st1
    ∧ (next_array st1 ≤ next_array st4)%nat
    ∧ ((length (Hash160 (SerializeCompressed key)) + 5 ≤ capacity got)%nat →
       st4 = st1).
Proof.
  cbn zeta. cbn [generateKeyAndAddress].
  destruct (poolGet pick st) as [got st1] eqn:Eg. cbn [fst snd].
  destruct (append (reslice0 got) [x00] st1) as [b1 st2] eqn:E1.
  destruct (append b1 (Hash160 (SerializeCompressed key)) st2) as [b2 st3] eqn:E2.
  destruct (append b2 (take 4 (Sum256 (Sum256 (elems b2)))) st3) as [b3 st4] eqn:E3.
  pose proof (append_history (reslice0 got) [x00] st1) as [Hh1 Hi1].
  pose proof (append_history b1 (Hash160 (SerializeCompressed key)) st2) as [Hh2 Hi2].
  pose proof (append_history b2 (take 4 (Sum256 (Sum256 (elems b2)))) st3) as [Hh3 Hi3].
  pose proof (append_next (reslice0 got) [x00] st1) as [Hn1 Hc1].
  pose proof (append_next b1 (Hash160 (SerializeCompressed key)) st2) as [Hn2 Hc2].
  pose proof (append_next b2 (take 4 (Sum256 (Sum256 (elems b2)))) st3) as [Hn3 Hc3].
  rewrite E1 in Hh1, Hi1, Hn1, Hc1. rewrite E2 in Hh2, Hi2, Hn2, Hc2.
  rewrite E3 in Hh3, Hi3, Hn3, Hc3. cbn [fst snd] in *.
  exists st4. split_and!; [done|congruence|congruence|lia|].
  intros Hfit. cbn [reslice0 elems capacity length] in Hc1.
  specialize (Hc1 ltac:(cbn; lia)). injection Hc1 as -> ->.
  cbn [elems capacity array] in Hc2.
  specialize (Hc2 ltac:(cbn; lia)). injection Hc2 as -> ->.
  cbn [elems capacity array] in Hc3.
  assert (length (take 4 (Sum256 (Sum256 (x00 :: Hash160 (SerializeCompressed key)))))
          ≤ 4)%nat as Hck by (rewrite length_take; lia).
  specialize (Hc3 ltac:(cbn [length] in *; lia)).
  by injection Hc3 as -> ->.
Qed.

Lemma poolGet_cases pick st :
  (∃ i x, pick = Some i ∧ idle st !! i = Some x
          ∧ poolGet pick st
            = (x, mkPool (delete i (idle st)) (next_array st)
                    (history st ++ [PoolGet (array x)])))
  ∨ ((∀ i, pick = Some i → idle st !! i = None)
     ∧ poolGet pick st
       = (mkSlice (next_array st) [] 128,
          mkPool (idle st) (S (next_array st))
            (history st ++ [PoolGet (next_array st)]))).
Proof.
  unfold poolGet. destruct pick as [i|]; cbn.
  - destruct (idle st !! i) as [x|] eqn:Ei; cbn.
    + left. by exists i, x.
    + right. split; [|done]. by intros ? [= <-].
  - right. done.
Qed.

Lemma generateKeyAndAddress_pool_ok rng pick st :
  pool_ok st → pool_ok (generateKeyAndAddress rng pick st).2.
Proof.
  intros (Hidle & Hnd & Hout). destruct rng as [err|key]; [done|].
  destruct (generateKeyAndAddress_pool key pick st)
    as (st4 & -> & Hi4 & Hh4 & Hn4 & _).
  unfold pool_ok. cbn [poolPut idle next_array history].
  rewrite Hi4, Hh4, outstanding_app.
  destruct (poolGet_cases pick st)
    as [(i & x & _ & Hx & Hg)|[_ Hg]]; rewrite Hg in *; cbn [fst snd idle
      next_array history reslice0 array elems capacity] in *.
  - pose proof (delete_Permutation _ _ _ Hx) as Hperm.
    assert (Forall (λ b, elems b = [] ∧ capacity b = 128%nat
                         ∧ (array b < next_array st4)%nat)
              (x :: delete i (idle st))) as HF.
    { rewrite <- Hperm. eapply Forall_impl; [exact Hidle|].
      cbn. intros b (? & ? & ?). split_and!; [done..|lia]. }
    split_and!.
    + apply Forall_cons in HF as [(? & ? & ?) HF]. by constructor.
    + change (NoDup (array <$> x :: delete i (idle st))).
      by rewrite <- Hperm.
    + rewrite outstanding_app. cbn [outstanding]. lia.
  - unfold reslice0. cbn [array elems capacity]. split_and!.
    + constructor; [split_and!; [done..|cbn; lia]|].
      eapply Forall_impl; [exact Hidle|].
      cbn. intros b (? & ? & ?). split_and!; [done..|lia].
    + cbn [fmap list_fmap array]. constructor; [|done].
      intros (b & Hb & Hin)%list_elem_of_fmap.
      rewrite Forall_forall in Hidle. destruct (Hidle b Hin) as (_ & _ & ?).
      cbn in Hb. lia.
    + rewrite outstanding_app. cbn [outstanding]. lia.
Qed.

Variable cfg : Config.

Lemma worker_iter_pool id rng pick w s :
  pool (worker_iter cfg id rng pick w s)
  = (generateKeyAndAddress rng pick (pool s)).2.
Proof.
  unfold worker_iter.
  destruct (generateKeyAndAddress rng pick (pool s)) as [[err|[key a]] pool'];
    [done|]. cbn zeta.
  destruct (ReadAddresses.exists_in _ _); [|done].
  unfold send. cbn [matchChan]. by case_bool_decide.
Qed.

Lemma step_pool l s s' :
  step cfg l s = Some s' →
  pool s' = match l with
            | WorkerIter _ rng pick => (generateKeyAndAddress rng pick (pool s)).2
            | _ => pool s
            end.
Proof.
  unfold step. destruct (exited s); [done|].
  destruct l as [id rng pick| |].
  - destruct (workers s !! id) as [w|]; [|done].
    destruct (parked w); [done|]. intros [= <-]. apply worker_iter_pool.
  - destruct (consumer s); [|done]. intros [= <-]. unfold writer_open.
    by destruct (openOutput cfg).
  - destruct (consumer s) as [|b f]; [done|].
    destruct (recv s) as [[m s1]|] eqn:Er; [|done].
    destruct (recv_frame _ _ _ Er) as (_ & _ & _ & _ & _ & _ & Hp).
    destruct (write_match m b f) as [[[lg pr] b'] f']. by intros [= <-].
Qed.

Lemma run_pool_ok t s s' :
  pool_ok (pool s) → run cfg t s = Some s' → pool_ok (pool s').
Proof.
  revert s. induction t as [|l t IH]; intros s H0; cbn [run].
  - by intros [= <-].
  - destruct (step cfg l s) as [s1|] eqn:Es; [|done]. apply IH.
    rewrite (step_pool _ _ _ Es). destruct l; [|done..].
    by apply generateKeyAndAddress_pool_ok.
Qed.

(** X8.  The buffer pool is sound between the iterations of the workers,
    in every state a run reaches: it holds only empty slices of capacity
    128, no two of them over the same backing array, every buffer taken
    has been given back, and the pool never holds more buffers than
    backing arrays have been allocated. *)
Theorem pool_sound_along_runs n t s :
  run cfg t (initial n) = Some s →
  pool_ok (pool s)
  ∧ (length (idle (pool s)) ≤ next_array (pool s))%nat.
Proof.
  intros Hr.
  assert (pool_ok (pool s)) as Hok.
  { eapply run_pool_ok; [|exact Hr].
    split_and!; [constructor|constructor|done]. }
  split; [done|]. destruct Hok as (Hidle & Hnd & _).
  rewrite <- (length_fmap array).
  trans (length (seq 0 (next_array (pool s)))); [|by rewrite length_seq].
  apply submseteq_length, NoDup_submseteq; [done|].
  intros a (b & -> & Hin)%list_elem_of_fmap.
  rewrite Forall_forall in Hidle. destruct (Hidle b Hin) as (_ & _ & ?).
  apply elem_of_seq. lia.
Qed.

(** X9.  The capacity of 128 is enough: with a pool in order and a hash
    of at most 123 bytes (Hash160 gives 20), the three appends of a call
    stay in the buffer taken from the pool.  A call allocates nothing when
    the pool hands out a buffer, and exactly one buffer, the one New
    makes, when it does not; the bytes encoded are the version byte, the
    hash and the checksum, at most 128 of them. *)
Theorem appends_never_reallocate key pick st :
  pool_ok st →
  (length (Hash160 (SerializeCompressed key)) ≤ 123)%nat →
  let st' := (generateKeyAndAddress (inr key) pick st).2 in
  (generateKeyAndAddress (inr key) pick st).1
  = inr (key, base58Encode (payload_of key))
  ∧ (length (payload_of key) ≤ 128)%nat
  ∧ (∀ i x, pick = Some i → idle st !! i = Some x →
       next_array st' = next_array st
       ∧ length (idle st') = length (idle st))
  ∧ ((∀ i, pick = Some i → idle st !! i = None) →
       next_array st' = S (next_array st)
       ∧ length (idle st') = S (length (idle st))).
Proof.
  intros (Hidle & _ & _) Hlen. cbn zeta.
  split; [by rewrite generateKeyAndAddress_result|].
  destruct (generateKeyAndAddress_pool key pick st)
    as (st4 & -> & _ & _ & _ & Hsame).
  cbn [poolPut idle next_array].
  split_and!.
  - unfold payload_of. rewrite length_app, length_take. cbn [length]. lia.
  - intros i x -> Hx.
    destruct (poolGet_cases (Some i) st)
      as [(i' & x' & [= <-] & Hx' & Hg)|[Hnone _]];
      [|by rewrite (Hnone i eq_refl) in Hx].
    rewrite Hg in Hsame. cbn [fst snd] in Hsame.
    rewrite Forall_forall in Hidle.
    destruct (Hidle x' (list_elem_of_lookup_2 _ _ _ Hx')) as (_ & Hcap & _).
    rewrite Hsame by lia. cbn [next_array idle length].
    split; [done|]. rewrite length_delete by eauto.
    apply lookup_lt_Some in Hx'. lia.
  - intros Hnone.
    destruct (poolGet_cases pick st)
      as [(i' & x' & -> & Hx' & _)|[_ Hg]];
      [by rewrite (Hnone i' eq_refl) in Hx'|].
    rewrite Hg in Hsame. cbn [fst snd capacity] in Hsame.
    rewrite Hsame by lia. done.
Qed.

End PoolFacts.

(** ** readAddresses on files written line by line *)

Section ReadRoundTrip.
Import ReadAddresses Observed.

Lemma maxTokenSize_large : (1024 ≤ maxTokenSize)%nat.
Proof.
  unfold maxTokenSize. change (1 * 1024 ≤ 64 * 1024)%nat.
  apply Nat.mul_le_mono_r. lia.
Qed.

(** A single run of [maxTokenSize] bytes without a line feed is one line
    that does not fit the buffer of the scanner. *)
Lemma oversized_line c :
  c ≠ newline →
  ¬ Forall (λ l, (length l < maxTokenSize)%nat)
      (raw_lines (string_of_list_ascii (replicate maxTokenSize c))).
Proof.
  intros Hc. unfold raw_lines. rewrite list_ascii_of_string_of_list_ascii.
  pose proof maxTokenSize_pos as Hpos.
  rewrite (raw_lines_go_last [] (replicate maxTokenSize c)).
  - rewrite Forall_singleton. cbn [app]. rewrite length_replicate. lia.
  - intros [Heq _]%elem_of_replicate. by symmetry in Heq.
  - cbn [app]. intros Hnil. apply (f_equal length) in Hnil.
    rewrite length_replicate in Hnil. cbn [length] in Hnil. lia.
Qed.

(** Lines of less than 1 KiB pass the bound of the scanner; the test is
    one that can be run. *)
Lemma short_lines (ls : list (list ascii)) :
  forallb (λ l, length l <? 1023)%nat ls = true →
  Forall (λ l, (length l < maxTokenSize)%nat) ls.
Proof.
  pose proof maxTokenSize_large as Hbig.
  induction ls as [|l ls IH]; cbn [forallb]; [constructor|].
  intros [Hl Hls]%andb_true_iff. apply Nat.ltb_lt in Hl.
  constructor; [lia|auto].
Qed.

Lemma plain_short_lines (ls : list (list ascii)) :
  forallb (λ l, bool_decide ((newline ∉ l) ∧ last l ≠ Some carriage_return)
                && (length l <? 1023)%nat) ls = true →
  Forall (λ l, plain l ∧ (S (length l) < maxTokenSize)%nat) ls.
Proof.
  pose proof maxTokenSize_large as Hbig.
  induction ls as [|l ls IH]; cbn [forallb]; [constructor|].
  intros [[Hp Hl]%andb_true_iff Hls]%andb_true_iff.
  apply bool_decide_eq_true_1 in Hp. apply Nat.ltb_lt in Hl.
  constructor; [split; [exact Hp|lia]|auto].
Qed.

Lemma dropCR_plain l : last l ≠ Some carriage_return → dropCR l = l.
Proof.
  unfold dropCR. destruct (last l) as [c|] eqn:El; [|done].
  intros Hne. case_decide; [|done]. by subst c.
Qed.

Lemma dropCR_snoc l : dropCR (l ++ [carriage_return]) = l.
Proof.
  unfold dropCR. rewrite last_snoc. rewrite decide_True by done.
  apply removelast_last.
Qed.

(** The raw lines of a text built from lines, each followed by the
    terminator [cr ++ [newline]], and an unterminated rest. *)
Lemma raw_lines_unlines cr ls rest :
  newline ∉ cr → Forall (λ l, newline ∉ l) ls → newline ∉ rest →
  raw_lines_go [] (unlines (cr ++ [newline]) ls ++ rest)
  = ((λ l, l ++ cr) <$> ls) ++ match rest with [] => [] | _ => [rest] end.
Proof.
  intros Hcr Hls Hrest. induction Hls as [|l ls Hl _ IH]; cbn [unlines fmap list_fmap app].
  - destruct rest as [|c rest']; [done|].
    by rewrite (raw_lines_go_last [] (c :: rest')).
  - replace ((l ++ (cr ++ [newline]) ++ unlines (cr ++ [newline]) ls) ++ rest)
      with ((l ++ cr) ++ newline :: (unlines (cr ++ [newline]) ls ++ rest))
      by (by rewrite <- !app_assoc).
    rewrite raw_lines_go_newline.
    + by rewrite IH.
    + rewrite elem_of_app. tauto.
Qed.

Lemma readAddresses_failure fs filePath f :
  files fs !! filePath = Some f → can_read f = true →
  (¬ Forall (λ l, (length l < maxTokenSize)%nat) (raw_lines (content f)) →
   readAddresses fs filePath = inl ErrTooLong)
  ∧ (Forall (λ l, (length l < maxTokenSize)%nat) (raw_lines (content f)) →
     ∀ e, read_fault f = Some e → readAddresses fs filePath = inl e).
Proof.
  intros Hf Hr. unfold readAddresses, osOpen. rewrite Hf, Hr.
  unfold NewScanner. cbn [unread]. split.
  - intros Hlong.
    pose proof (scanLoop_too_long (S (length (list_ascii_of_string (content f))))
                  (list_ascii_of_string (content f)) (read_fault f) ∅
                  ltac:(lia) Hlong) as Herr.
    destruct (scanLoop _ _ _) as [sc a]. cbn [fst] in Herr. by rewrite Herr.
  - intros Hshort e He.
    rewrite scanLoop_lines by (done || lia). cbn [scan_err].
    by rewrite He.
Qed.

(** X10.  Writing and loading: a readable file made of lines of at most
    65534 bytes (so that a line and its terminator fit the 64 KiB buffer of
    the scanner), each followed by a line feed or by a carriage return and
    a line feed, with possibly a last line that is not terminated, loads as
    the set of exactly these lines.  The terminators are not part of the
    keys, an empty line gives the empty string as a key, and the
    membership test answers for the lines and for nothing else. *)
Theorem readAddresses_of_written_lines fs filePath f eol ls rest :
  files fs !! filePath = Some f →
  can_read f = true → read_fault f = None →
  eol = LF ∨ eol = CRLF →
  Forall (λ l, plain l ∧ (S (length l) < maxTokenSize)%nat) (ls ++ [rest]) →
  content f = string_of_list_ascii (unlines eol ls ++ rest) →
  let keys := string_of_list_ascii
                <$> ls ++ match rest with [] => [] | _ => [rest] end in
  readAddresses fs filePath = inr (gset_to_gmap true (list_to_set keys))
  ∧ ∀ a, exists_in (gset_to_gmap true (list_to_set keys)) a = true ↔ a ∈ keys.
Proof.
  intros Hf Hr Hfault Heol Hall Hcontent. cbn zeta.
  apply Forall_app in Hall as [Hls Hrest]. rewrite Forall_singleton in Hrest.
  destruct Hrest as [[Hrest_nl Hrest_cr] Hrest_len].
  set (cr := if decide (eol = LF) then [] else [carriage_return]).
  assert (eol = cr ++ [newline]) as Heq.
  { subst cr. destruct Heol as [-> | ->]; [by rewrite decide_True|].
    by rewrite decide_False. }
  assert (newline ∉ cr) as Hcr.
  { subst cr. case_decide; [apply not_elem_of_nil|].
    by intros ?%list_elem_of_singleton. }
  assert (length cr ≤ 1)%nat as Hcrlen by (subst cr; case_decide; cbn; lia).
  assert (raw_lines (content f)
          = ((λ l, l ++ cr) <$> ls) ++ match rest with [] => [] | _ => [rest] end)
    as Hraw.
  { unfold raw_lines. rewrite Hcontent, list_ascii_of_string_of_list_ascii, Heq.
    apply raw_lines_unlines; [done| |done].
    eapply Forall_impl; [exact Hls|]. by intros l [[? ?] ?]. }
  assert (lines_of (content f)
          = string_of_list_ascii
              <$> ls ++ match rest with [] => [] | _ => [rest] end) as Hlines.
  { unfold lines_of. rewrite Hraw, !fmap_app. f_equal.
    - rewrite <- list_fmap_compose. apply Forall_fmap_ext_1.
      eapply Forall_impl; [exact Hls|]. intros l [[_ Hl] _]. cbn.
      subst cr. case_decide.
      + by rewrite app_nil_r, dropCR_plain.
      + by rewrite dropCR_snoc.
    - destruct rest as [|c rest']; [done|]. cbn [fmap list_fmap].
      by rewrite dropCR_plain. }
  destruct (readAddresses_loads fs filePath f Hf Hr Hfault)
    as (addresses & Hread & -> & _ & Hmem).
  { rewrite Hraw. apply Forall_app. split.
    - apply Forall_fmap. eapply Forall_impl; [exact Hls|].
      intros l [_ Hl]. unfold compose. rewrite length_app. lia.
    - destruct rest as [|c rest']; [constructor|].
      apply Forall_singleton. lia. }
  rewrite Hlines in Hread, Hmem. done.
Qed.

(** X11.  How loading fails.  A missing file is reported as such and an
    unreadable one as a permission error.  One line of 64 KiB or more
    makes the whole load fail with the error of the scanner, even on a
    sound device; with short lines, an error of the device on reading is
    the error returned.  In none of these cases is a part of the list
    returned. *)
Theorem readAddresses_errors fs filePath :
  (files fs !! filePath = None →
   readAddresses fs filePath = inl ErrNotExist)
  ∧ (∀ f, files fs !! filePath = Some f → can_read f = false →
          readAddresses fs filePath = inl ErrPermission)
  ∧ (∀ f, files fs !! filePath = Some f → can_read f = true →
          ¬ Forall (λ l, (length l < maxTokenSize)%nat) (raw_lines (content f)) →
          readAddresses fs filePath = inl ErrTooLong)
  ∧ (∀ f e, files fs !! filePath = Some f → can_read f = true →
            Forall (λ l, (length l < maxTokenSize)%nat) (raw_lines (content f)) →
            read_fault f = Some e →
            readAddresses fs filePath = inl e).
Proof.
  split_and!.
  - intros Hf. unfold readAddresses, osOpen. by rewrite Hf.
  - intros f Hf Hr. unfold readAddresses, osOpen. by rewrite Hf, Hr.
  - intros f Hf Hr Hlong.
    destruct (readAddresses_failure fs filePath f Hf Hr) as [Hl _]. auto.
  - intros f e Hf Hr Hshort He.
    destruct (readAddresses_failure fs filePath f Hf Hr) as [_ Hs]. auto.
Qed.

End ReadRoundTrip.

(** ** The line of a match can be read back *)

Section LineFormat.
Import Bufio KeyGen Pipeline Observed.
Context `{Crypto}.

Lemma hex_byte_decode (v : byte) :
  let nib := λ c : ascii,
    (if N_of_ascii c <? 58 then N_of_ascii c - 48 else N_of_ascii c - 87)%N in
  (16 * nib (Hex.hexdigit (N.shiftr (Byte.to_N v) 4))
   + nib (Hex.hexdigit (N.land (Byte.to_N v) 15)))%N
  = Byte.to_N v.
Proof. destruct v; vm_compute; reflexivity. Qed.

Lemma byte_of_digits v1 v2 :
  Hex.hexdigit (N.shiftr (Byte.to_N v1) 4) = Hex.hexdigit (N.shiftr (Byte.to_N v2) 4) →
  Hex.hexdigit (N.land (Byte.to_N v1) 15) = Hex.hexdigit (N.land (Byte.to_N v2) 15) →
  v1 = v2.
Proof.
  intros Hhi Hlo.
  pose proof (hex_byte_decode v1) as H1. pose proof (hex_byte_decode v2) as H2.
  cbn zeta in H1, H2. rewrite Hhi, Hlo, H2 in H1.
  pose proof (Byte.of_to_N v1) as E1. pose proof (Byte.of_to_N v2) as E2.
  rewrite <- H1 in E1. congruence.
Qed.

Lemma hexdigit_not_colon n : Hex.hexdigit n ≠ ":"%char.
Proof.
  unfold Hex.hexdigit. generalize (N.to_nat n). intros k.
  do 17 (destruct k as [|k]; [by cbn|]). by cbn.
Qed.

(** The digits end at the first colon: the key and what follows it are
    determined by the text. *)
Lemma hex_colon_split b1 b2 (r1 r2 : string) :
  Hex.EncodeToString b1 +:+ String ":" r1
  = Hex.EncodeToString b2 +:+ String ":" r2 →
  b1 = b2 ∧ r1 = r2.
Proof.
  revert b2. induction b1 as [|v1 b1 IH]; intros [|v2 b2];
    cbn [Hex.EncodeToString]; rewrite ?str_app_cons, ?str_app_nil_l.
  - by intros [= ->].
  - intros [= Hc _]. by destruct (hexdigit_not_colon _ (eq_sym Hc)).
  - intros [= Hc _]. by destruct (hexdigit_not_colon _ Hc).
  - intros [= Hhi Hlo Hrest].
    destruct (IH _ Hrest) as [-> ->].
    by rewrite (byte_of_digits _ _ Hhi Hlo).
Qed.

Lemma str_app_inv_tail (a b c : string) : a +:+ c = b +:+ c → a = b.
Proof.
  intros Heq. apply (f_equal list_ascii_of_string) in Heq.
  rewrite !list_ascii_app in Heq. apply app_inv_tail in Heq.
  rewrite <- (string_of_list_ascii_of_string a),
          <- (string_of_list_ascii_of_string b). by rewrite Heq.
Qed.

Lemma EncodeToString_length bs :
  String.length (Hex.EncodeToString bs) = (2 * length bs)%nat.
Proof.
  induction bs as [|v bs IH]; cbn [Hex.EncodeToString String.length length];
    [done|]. rewrite IH. lia.
Qed.

(** X12.  The line written for a match can be read back without
    ambiguity: two records with the same line have the same key bytes and
    the same address, whatever characters the address holds.  The line
    has two hexadecimal digits for every byte of the key, the colon, the
    address and the line feed. *)
Theorem render_determines_the_match m1 m2 :
  render m1 = render m2 →
  Serialize (privateKey m1) = Serialize (privateKey m2)
  ∧ address m1 = address m2
  ∧ String.length (render m1)
    = (2 * length (Serialize (privateKey m1))
       + String.length (address m1) + 2)%nat.
Proof.
  unfold render. intros Heq.
  rewrite !(str_app_cons ":" "" _), !str_app_nil_l in Heq.
  apply hex_colon_split in Heq as [Hk Ha].
  apply str_app_inv_tail in Ha.
  split_and!; [done..|].
  rewrite !str_length_app, EncodeToString_length. cbn [String.length]. lia.
Qed.

End LineFormat.

(** ** From the command line to the matches *)

Section ProgramFacts.
Import Bufio KeyGen Pipeline Main Observed.
Context `{Crypto}.

Lemma readAddresses_inr fs filePath addresses :
  ReadAddresses.readAddresses fs filePath = inr addresses →
  ∃ f, files fs !! filePath = Some f ∧ can_read f = true
       ∧ ∀ a, ReadAddresses.exists_in addresses a = true
              ↔ a ∈ ReadAddresses.lines_of (content f).
Proof.
  intros Hread.
  assert (∃ f, files fs !! filePath = Some f ∧ can_read f = true)
    as (f & Hf & Hr).
  { revert Hread. unfold ReadAddresses.readAddresses, ReadAddresses.osOpen.
    destruct (files fs !! filePath) as [f|]; [|done].
    destruct (can_read f) eqn:E; [|done]. eauto. }
  exists f. split_and!; [done..|].
  destruct (readAddresses_failure fs filePath f Hf Hr) as [Hlong Hfault].
  destruct (decide (Forall (λ l, (length l < ReadAddresses.maxTokenSize)%nat)
                      (ReadAddresses.raw_lines (content f)))) as [Hshort|Hn];
    [|rewrite (Hlong Hn) in Hread; done].
  destruct (read_fault f) as [e|] eqn:He;
    [rewrite (Hfault Hshort e eq_refl) in Hread; done|].
  destruct (readAddresses_loads fs filePath f Hf Hr He Hshort)
    as (a' & Hread' & _ & _ & Hmem).
  rewrite Hread in Hread'. by injection Hread' as <-.
Qed.

(** X14.  From the command line to the matches: when main starts the
    goroutines, there is at least one worker, the output file is the one
    named by the second argument, and in every state the program reaches
    each record submitted carries an address that is a line of the file
    named by the third argument, derived from the key of the record.  As
    long as the process has not exited some goroutine can go on. *)
Theorem started_program_matches_listed_addresses osArgs fs dev n cfg t s :
  main osArgs fs dev = Started n cfg →
  run cfg t (initial n) = Some s →
  (1 ≤ n)%nat
  ∧ outputFile cfg = default "" (osArgs !! 2%nat)
  ∧ (∃ f, files fs !! default "" (osArgs !! 3%nat) = Some f
          ∧ can_read f = true
          ∧ Forall (λ r, address r ∈ ReadAddresses.lines_of (content f)
                         ∧ address r = address_of (privateKey r))
                   (submitted s))
  ∧ (exited s = None → ∃ l s', step cfg l s = Some s').
Proof.
  unfold main. case_bool_decide as Hargs; cbn [negb]; [|done].
  destruct (Atoi _) as [err|numThreads]; [done|].
  case_bool_decide as Hlow; [done|].
  destruct (ReadAddresses.readAddresses fs _) as [err|addresses] eqn:Hread;
    [done|].
  intros [= <- <-] Hr.
  assert (1 ≤ Z.to_nat numThreads)%nat as Hn by lia.
  destruct (readAddresses_inr _ _ _ Hread) as (f & Hf & Hcr & Hmem).
  pose proof (run_submitted _ _ _ _ (initial_inv _) Hr) as Hsub.
  cbn [initial submitted app] in Hsub.
  split_and!; [done|done| |].
  - exists f. split_and!; [done..|]. rewrite Hsub. unfold matches_of.
    apply Forall_forall. intros r Hin.
    apply list_elem_of_omap in Hin as (l & _ & Hl).
    destruct l as [id [e|key] pick| |]; cbn [candidate btcAddresses] in Hl;
      try done.
    destruct (ReadAddresses.exists_in _ _) eqn:Em; [|done].
    injection Hl as <-. cbn [address privateKey]. split; [|done].
    by apply Hmem.
  - intros Hex. eapply can_step; [by eapply reachable_inv| |done].
    rewrite (reachable_workers _ _ _ _ Hr). lia.
Qed.

End ProgramFacts.

(** ** The program on concrete inputs *)

Import Bufio KeyGen Pipeline Main Demo.
#[local] Existing Instance stubCrypto.

Example address_of_key1 : address_of key1 = key1_address.
Proof. reflexivity. Qed.

Example main_starts : main osArgs fs [] = Started 1 (cfg []).
Proof. vm_compute. reflexivity. Qed.

Example membership_is_case_sensitive :
  ReadAddresses.exists_in addresses "1BvBMSEYstWetqTFn5Au4m4GFg7xJaNVN2" = true
  ∧ ReadAddresses.exists_in addresses "1bvbmseystwetqtfn5au4m4gfg7xjanvn2" = false.
Proof. split; vm_compute; reflexivity. Qed.

Lemma readAddresses_distinct_lines_witness :
  ∃ loaded,
    ReadAddresses.readAddresses fs "addresses.txt" = inr loaded
    ∧ size loaded = 2%nat
    ∧ length (ReadAddresses.lines_of listing) = 3%nat.
Proof.
  destruct (readAddresses_distinct_lines fs "addresses.txt")
    as (Hset & Hloads & _).
  destruct (Hloads (mkFile listing true true None)) as (loaded & Hload).
  - reflexivity.
  - reflexivity.
  - reflexivity.
  - cbn [content].
    let l := eval vm_compute in (ReadAddresses.raw_lines listing) in
    change (ReadAddresses.raw_lines listing) with l.
    repeat (constructor; [apply Nat.ltb_lt; vm_compute; reflexivity|]).
    constructor.
  - exists loaded. split; [exact Hload|].
    destruct (Hset loaded Hload) as (f & Hf & _ & Hsize & _).
    injection Hf as <-. split; [|reflexivity].
    rewrite Hsize. reflexivity.
Defined.

Example first_match_runs :
  run (cfg []) [WriterOpen; found] (initial 1) = Some found_state
  ∧ step (cfg []) WriterRecv found_state = Some saved_state
  ∧ run (cfg []) first_match (initial 1) = Some saved_state.
Proof. split_and!; vm_compute; reflexivity. Qed.



Lemma counter_multiple_of_batch_witness :
  run (cfg []) first_match (initial 1) = Some saved_state
  ∧ total_generated saved_state < 2 ^ 64
  ∧ (updateInterval | counter saved_state).
Proof.
  assert (run (cfg []) first_match (initial 1) = Some saved_state) as Hrun
    by (vm_compute; reflexivity).
  assert (total_generated saved_state < 2 ^ 64) as Hlt by reflexivity.
  destruct (counter_multiple_of_batch (cfg []) 1 first_match saved_state Hrun)
    as (_ & Hdiv & _).
  split; [exact Hrun|]. split; [exact Hlt|]. exact (Hdiv Hlt).
Defined.

Lemma worker_generator_failure_witness :
  run (cfg []) [@WorkerIter stubCrypto 0 (inl ErrRand) None;
                @WorkerIter stubCrypto 0 (inl ErrRand) None] (initial 1)
  = Some (mkSystem 0 [] [] [mkWorker 0 None 0 0] (mkPool [] 0 []) Starting
            [LogGenerateFailed 0 ErrRand; LogGenerateFailed 0 ErrRand]
            [] None [] []).
Proof.
  exact (proj1 (worker_generator_failure (cfg []) 0 (initial 1)
                  (mkWorker 0 None 0 0) [(ErrRand, None); (ErrRand, None)]
                  eq_refl eq_refl eq_refl)).
Defined.

Lemma match_line_appended_and_flushed_witness :
  main osArgs fs [] = Started 1 (cfg [])
  ∧ run (cfg []) [WriterOpen; found] (initial 1) = Some found_state
  ∧ step (cfg []) WriterRecv found_state = Some saved_state
  ∧ out_data saved_state
    = Some (earlier +:+ "01:00010001" +:+ String newline EmptyString)
  ∧ buffered saved_state = Some EmptyString.
Proof.
  assert (main osArgs fs [] = Started 1 (cfg [])) as Hmain
    by (vm_compute; reflexivity).
  assert (run (cfg []) [WriterOpen; found] (initial 1) = Some found_state)
    as Hrun by (vm_compute; reflexivity).
  assert (step (cfg []) WriterRecv found_state = Some saved_state) as Hstep
    by (vm_compute; reflexivity).
  destruct (match_line_appended_and_flushed osArgs fs [] 1 (cfg [])
              [WriterOpen; found] found_state saved_state
              Hmain (Forall_nil_2 _) Hrun Hstep)
    as (m & rest & f0 & body & _ & _ & _ & _ & _ & _ & _ & _ & Hbuf).
  split; [exact Hmain|]. split; [exact Hrun|]. split; [exact Hstep|].
  split; [reflexivity|exact Hbuf].
Defined.

Lemma startup_failures_witness :
  main ["btc-brute-force"; "8"] fs [] = Exit 1 UsageText
  ∧ (main ["btc-brute-force"; "0"; "matches.txt"; "addresses.txt"] fs []
     = Exit 1 FatalThreadsBelowOne
     ∨ ∃ err, main ["btc-brute-force"; "0"; "matches.txt"; "addresses.txt"] fs []
              = Exit 1 (FatalInvalidThreads err)).
Proof.
  split.
  - apply (proj1 (startup_failures ["btc-brute-force"; "8"] fs [])).
    cbn. lia.
  - apply (proj1 (proj2 (startup_failures
             ["btc-brute-force"; "0"; "matches.txt"; "addresses.txt"] fs []))).
    + reflexivity.
    + intros (ds & n & Hs & _ & Hp & Hn). cbn in Hs.
      destruct Hs as [<-|Hs]; [|discriminate].
      vm_compute in Hp. injection Hp as <-. lia.
Defined.

Lemma stats_rates_witness :
  ∃ l1 l2 : Stats.StatsLine Stats.binary64,
    Stats.statsReporter 0 stalled_ticks = [l1; l2]
    ∧ Stats.instantRate l2 = S754_zero false
    ∧ SFleb (Stats.overallRate l2) (Stats.overallRate l1) = true.
Proof.
  destruct (stats_rates 0 stalled_ticks 1 (Stats.mkTick 30000 20000000000 20000000000)
              eq_refl) as (line & Hline & _ & _ & _ & _ & _ & Hprev).
  destruct (Hprev 0%nat (Stats.mkTick 30000 10000000000 10000000000)
              eq_refl eq_refl) as (_ & _ & Hsame).
  destruct (Hsame eq_refl) as [Hzero Hover].
  injection Hline as <-.
  eexists _, _. split; [reflexivity|]. split.
  - apply Hzero. cbn. lia.
  - refine (proj1 (Hover _ eq_refl _ _ _) _).
    + cbn. lia.
    + cbn. lia.
    + cbn. lia.
    + cbn. lia.
Defined.

(** *** Where the claims fail *)

(** The counter of a single worker that finds no match, after [k]
    successful generations. *)
Lemma single_worker_counter k :
  ∃ s, run cfg_empty (replicate k found) (initial 1) = Some s
       ∧ counter s = wrap64 (updateInterval * (Z.of_nat k / updateInterval)).
Proof.
  destruct (run_no_match (H:=stubCrypto) cfg_empty key1 None k (initial 1)
              (mkWorker 0 None 0 0) eq_refl eq_refl eq_refl eq_refl)
    as (s & w & Hrun & _ & Hws & _ & Hgen).
  exists s. split; [exact Hrun|].
  pose proof (reachable_inv _ _ _ _ Hrun) as HI.
  assert (worker_ok w) as Hok.
  { pose proof (inv_workers s HI) as Hall. rewrite Hws in Hall.
    by rewrite Forall_singleton in Hall. }
  destruct (worker_ok_floor w Hok) as [Hadd _].
  cbn [generated] in Hgen. rewrite Z.add_0_l in Hgen.
  rewrite (inv_counter s HI). unfold total_added. rewrite Hws. cbn [sumZ].
  rewrite Hadd, Hgen. f_equal. lia.
Qed.


(** The bound on the true total in the statements about the counter is
    that of its type: the batch that takes the sum past 2^64 makes the
    uint64 drop from 18446744073709550000 to 8384, which is not a multiple
    of 10000. *)
Lemma counter_at_wrap :
  ∃ s1 s2,
    run cfg_empty (replicate (Z.to_nat (past_wrap - 10000)) found) (initial 1)
    = Some s1
    ∧ run cfg_empty (replicate (Z.to_nat 10000) found) s1 = Some s2
    ∧ counter s1 = 18446744073709550000
    ∧ counter s2 = 8384.
Proof.
  destruct (single_worker_counter (Z.to_nat (past_wrap - 10000)))
    as (s1 & Hr1 & Hc1).
  destruct (single_worker_counter
              (Z.to_nat (past_wrap - 10000) + Z.to_nat 10000))
    as (s2 & Hr2 & Hc2).
  rewrite replicate_add, run_app, Hr1 in Hr2. cbn [mbind option_bind] in Hr2.
  rewrite Z2Nat.id in Hc1 by (by vm_compute).
  rewrite Nat2Z.inj_add, !Z2Nat.id in Hc2 by (by vm_compute).
  exists s1, s2. split_and!; [done..| |].
  - rewrite Hc1. by vm_compute.
  - rewrite Hc2. by vm_compute.
Qed.

(** C3, where it fails.  Two ticks that read a counter still at 0 (no
    worker has completed a batch yet): the overall rate is +0 at both, so
    it has not decreased.  Two ticks one nanosecond apart, late in the
    life of the process, that read the same positive counter: the seconds
    elapsed round to the same binary64 number and the overall rate is the
    same at both.  And the rate reported is the quotient rounded: after
    three seconds a counter of 10000 gives a number that, times three, is
    not 10000. *)
Lemma stats_overall_rate_not_strict :
  (∃ l1 l2 : Stats.StatsLine Stats.binary64,
     Stats.statsReporter 0 idle_ticks = [l1; l2]
     ∧ Stats.line_total l1 = Stats.line_total l2
     ∧ Stats.instantRate l2 = S754_zero false
     ∧ Stats.overallRate l1 = S754_zero false
     ∧ Stats.overallRate l2 = S754_zero false
     ∧ SFltb (Stats.overallRate l2) (Stats.overallRate l1) = false)
  ∧ (∃ l1 l2 : Stats.StatsLine Stats.binary64,
       Stats.statsReporter 0 late_ticks = [l1; l2]
       ∧ Stats.line_total l1 = 10000 ∧ Stats.line_total l2 = 10000
       ∧ Stats.overallRate l2 = Stats.overallRate l1
       ∧ SFltb (Stats.overallRate l2) (Stats.overallRate l1) = false)
  ∧ (∃ (l : Stats.StatsLine Stats.binary64) m,
       Stats.statsReporter 0 third_ticks = [l]
       ∧ Stats.runtime l = S754_finite false 6755399441055744 (-51)
       ∧ Stats.overallRate l = S754_finite false m (-41)
       ∧ 3 * Zpos m ≠ 10000 * 2 ^ 41).
Proof.
  split_and!.
  - eexists _, _. split; [reflexivity|]. split_and!; by vm_compute.
  - eexists _, _. split; [reflexivity|]. split_and!; by vm_compute.
  - eexists _, _. split; [reflexivity|]. split_and!; by vm_compute.
Qed.

(** C5, where it fails: a file that can be read without any error and is
    one line of 64 KiB.  The line does not fit the buffer of the Scanner,
    loading returns its error, and there is no set of lines. *)
Lemma readAddresses_long_line_not_loaded :
  files Scenario.fs_oversized !! "oversized.txt" = Some Scenario.oversized
  ∧ can_read Scenario.oversized = true
  ∧ read_fault Scenario.oversized = None
  ∧ ReadAddresses.raw_lines (content Scenario.oversized)
    = [replicate ReadAddresses.maxTokenSize "a"%char]
  ∧ ReadAddresses.readAddresses Scenario.fs_oversized "oversized.txt"
    = inl ErrTooLong
  ∧ ∀ addresses,
      ReadAddresses.readAddresses Scenario.fs_oversized "oversized.txt"
      ≠ inr addresses.
Proof.
  assert (files Scenario.fs_oversized !! "oversized.txt"
          = Some Scenario.oversized) as Hf by apply lookup_insert_eq.
  assert (ReadAddresses.readAddresses Scenario.fs_oversized "oversized.txt"
          = inl ErrTooLong) as Herr.
  { destruct (readAddresses_failure _ _ _ Hf eq_refl) as [Hlong _].
    apply Hlong. by apply (oversized_line "a"). }
  split_and!; [done..| |done|by rewrite Herr].
  unfold ReadAddresses.raw_lines, Scenario.oversized. cbn [content].
  rewrite list_ascii_of_string_of_list_ascii.
  pose proof maxTokenSize_pos as Hpos.
  apply (raw_lines_go_last []).
  - by intros [? _]%elem_of_replicate.
  - cbn [app]. intros Hnil. apply (f_equal length) in Hnil.
    rewrite length_replicate in Hnil. cbn [length] in Hnil. lia.
Qed.

(** C8, the failing input: the device refuses the write that Flush makes
    for the first record.  The record is lost, the console says it was
    saved, and the log has no entry: WriteString only copied the line into
    the buffer and the result of Flush is not looked at.  The error then
    stays in the writer: the next record is logged as failed, although
    its own write was never attempted. *)
Example flush_failure_is_not_logged :
  ∃ s, run (cfg [WriteFail 0 ErrIO]) first_match (initial 1) = Some s
       ∧ dequeued s = [match1]
       ∧ out_data s = Some earlier
       ∧ logs s = []
       ∧ stdout s = [PrintMatchFound key1_address;
                     PrintSavedToFile "01" key1_address]
       ∧ exited s = None
       ∧ ∃ s', run (cfg [WriteFail 0 ErrIO]) [found; WriterRecv] s = Some s'
               ∧ logs s' = [LogWriteFailed ErrIO]
               ∧ out_data s' = Some earlier.
Proof.
  eexists. split; [vm_compute; reflexivity|].
  do 5 (split; [reflexivity|]).
  eexists. split; [vm_compute; reflexivity|]. split; reflexivity.
Qed.


(** *** The further properties on the concrete inputs *)

Import Observed Scenario.

Lemma submitted_are_the_matches_witness :
  submitted saved_state = matches_of (cfg []) first_match.
Proof.
  assert (run (cfg []) first_match (initial 1) = Some saved_state) as Hrun
    by (vm_compute; reflexivity).
  exact (proj1 (submitted_are_the_matches (cfg []) 1 first_match saved_state
                  Hrun)).
Defined.

Lemma file_holds_first_matches_witness :
  earlier +:+ render match1
  = earlier +:+ render_all (take (length (filter is_recv first_match))
                              (matches_of (cfg []) first_match)).
Proof.
  assert (run (cfg []) first_match (initial 1) = Some saved_state) as Hrun
    by (vm_compute; reflexivity).
  exact (file_holds_first_matches (cfg []) 1 first_match saved_state
           (mkOutFile earlier []) (earlier +:+ render match1)
           Hrun (Forall_nil_2 _) eq_refl eq_refl).
Defined.

Lemma pipeline_never_stuck_witness :
  ∃ l s', step (cfg []) l saved_state = Some s'.
Proof.
  assert (run (cfg []) first_match (initial 1) = Some saved_state) as Hrun
    by (vm_compute; reflexivity).
  apply (pipeline_never_stuck (cfg []) 1 first_match saved_state Hrun);
    [lia|reflexivity].
Defined.

Lemma backlog_bounded_witness :
  (length (submitted found_state) - length (dequeued found_state)
   ≤ matchChanCap + 1)%nat
  ∧ (length (waiting found_state) ≤ 1)%nat.
Proof.
  assert (run (cfg []) [WriterOpen; found] (initial 1) = Some found_state)
    as Hrun by (vm_compute; reflexivity).
  exact (backlog_bounded (cfg []) 1 [WriterOpen; found] found_state Hrun).
Defined.

Lemma file_is_prefix_of_received_witness :
  ∃ f0 k rest,
    openOutput failing = inr f0
    ∧ earlier +:+ "01:" = data f0 +:+ k
    ∧ render_all (dequeued torn_state) = k +:+ rest
    ∧ (Some ErrIO = None → "00010001" +:+ String newline "" = "" ∧ rest = "").
Proof.
  assert (run failing first_match (initial 1) = Some torn_state) as Hrun
    by (vm_compute; reflexivity).
  exact (file_is_prefix_of_received failing 1 first_match torn_state
           (mkWriter ("00010001" +:+ String newline "") (Some ErrIO))
           (mkOutFile (earlier +:+ "01:") []) Hrun eq_refl).
Defined.

Lemma write_error_is_permanent_witness :
  consumer torn_again = consumer torn_state
  ∧ filter write_failure (logs torn_again) = [LogWriteFailed ErrIO].
Proof.
  assert (run failing [found; WriterRecv] torn_state = Some torn_again) as Hrun
    by (vm_compute; reflexivity).
  exact (write_error_is_permanent failing [found; WriterRecv] torn_state
           torn_again
           (mkWriter ("00010001" +:+ String newline "") (Some ErrIO))
           (mkOutFile (earlier +:+ "01:") []) ErrIO eq_refl eq_refl Hrun).
Defined.

Lemma saved_is_printed_for_every_received_witness :
  omap reported (stdout torn_state) = [("01", key1_address)].
Proof.
  assert (run failing first_match (initial 1) = Some torn_state) as Hrun
    by (vm_compute; reflexivity).
  exact (saved_is_printed_for_every_received failing 1 first_match torn_state
           Hrun).
Defined.

Lemma pool_sound_along_runs_witness :
  pool_ok (pool torn_again)
  ∧ (length (idle (pool torn_again)) ≤ next_array (pool torn_again))%nat.
Proof.
  assert (run failing (first_match ++ [found; WriterRecv]) (initial 1)
          = Some torn_again) as Hrun by (vm_compute; reflexivity).
  exact (pool_sound_along_runs failing 1 (first_match ++ [found; WriterRecv])
           torn_again Hrun).
Defined.

Lemma used_pool_ok : pool_ok used_pool.
Proof.
  split_and!.
  - apply Forall_singleton. cbn. split_and!; [reflexivity..|lia].
  - apply NoDup_singleton.
  - reflexivity.
Qed.

Lemma appends_never_reallocate_witness :
  next_array (@generateKeyAndAddress stubCrypto (inr key1) (Some 0%nat)
                used_pool).2 = 1%nat
  ∧ next_array (@generateKeyAndAddress stubCrypto (inr key1) None
                  used_pool).2 = 2%nat.
Proof.
  assert (length (@Hash160 stubCrypto (@SerializeCompressed stubCrypto key1))
          ≤ 123)%nat as Hlen by (cbn; lia).
  destruct (@appends_never_reallocate stubCrypto key1 (Some 0%nat) used_pool
              used_pool_ok Hlen)
    as (_ & _ & Hhit & _).
  destruct (@appends_never_reallocate stubCrypto key1 None used_pool
              used_pool_ok Hlen)
    as (_ & _ & _ & Hmiss).
  split.
  - exact (proj1 (Hhit 0%nat (mkSlice 0 [] 128) eq_refl eq_refl)).
  - apply Hmiss. intros i Hi. discriminate Hi.
Defined.

Lemma readAddresses_of_written_lines_witness :
  ReadAddresses.readAddresses fs_bad "crlf.txt"
  = inr (gset_to_gmap true
           (list_to_set ["00010001"; "1BvBMSEYstWetqTFn5Au4m4GFg7xJaNVN2";
                         "00010001"])).
Proof.
  assert (Forall (λ l, plain l
                       ∧ (S (length l) < ReadAddresses.maxTokenSize)%nat)
            ((list_ascii_of_string
                <$> ["00010001"; "1BvBMSEYstWetqTFn5Au4m4GFg7xJaNVN2"])
             ++ [list_ascii_of_string "00010001"])) as Hlines
    by (apply plain_short_lines; vm_compute; reflexivity).
  exact (proj1 (readAddresses_of_written_lines fs_bad "crlf.txt"
                  (mkFile listing_crlf true true None) CRLF
                  (list_ascii_of_string
                     <$> ["00010001"; "1BvBMSEYstWetqTFn5Au4m4GFg7xJaNVN2"])
                  (list_ascii_of_string "00010001")
                  eq_refl eq_refl eq_refl (or_intror eq_refl) Hlines eq_refl)).
Defined.

Lemma readAddresses_errors_witness :
  ReadAddresses.readAddresses fs_bad "missing.txt" = inl ErrNotExist
  ∧ ReadAddresses.readAddresses fs_bad "locked.txt" = inl ErrPermission
  ∧ ReadAddresses.readAddresses fs_oversized "oversized.txt" = inl ErrTooLong
  ∧ ReadAddresses.readAddresses fs_bad "faulty.txt" = inl ErrIO.
Proof.
  assert (Forall (λ l, (length l < ReadAddresses.maxTokenSize)%nat)
            (ReadAddresses.raw_lines listing)) as Hshort
    by (apply short_lines; vm_compute; reflexivity).
  assert (¬ Forall (λ l, (length l < ReadAddresses.maxTokenSize)%nat)
            (ReadAddresses.raw_lines (content oversized))) as Hlong
    by (by apply oversized_line).
  split_and!.
  - exact (proj1 (readAddresses_errors fs_bad "missing.txt") eq_refl).
  - exact (proj1 (proj2 (readAddresses_errors fs_bad "locked.txt"))
             (mkFile listing false true None) eq_refl eq_refl).
  - exact (proj1 (proj2 (proj2 (readAddresses_errors fs_oversized "oversized.txt")))
             oversized (lookup_insert_eq _ _ _) eq_refl Hlong).
  - exact (proj2 (proj2 (proj2 (readAddresses_errors fs_bad "faulty.txt")))
             (mkFile listing true true (Some ErrIO)) ErrIO
             eq_refl eq_refl Hshort eq_refl).
Defined.

Lemma render_determines_the_match_witness :
  String.length (render match1) = 12%nat.
Proof.
  exact (proj2 (proj2 (render_determines_the_match match1 match1 eq_refl))).
Defined.

Lemma started_program_matches_listed_addresses_witness :
  ∃ f, files fs !! "addresses.txt" = Some f
       ∧ Forall (λ r, address r ∈ ReadAddresses.lines_of (content f)
                      ∧ address r = address_of (privateKey r))
                (submitted saved_state).
Proof.
  assert (main osArgs fs [] = Started 1 (cfg [])) as Hmain
    by (vm_compute; reflexivity).
  assert (run (cfg []) first_match (initial 1) = Some saved_state) as Hrun
    by (vm_compute; reflexivity).
  destruct (started_program_matches_listed_addresses osArgs fs [] 1 (cfg [])
              first_match saved_state Hmain Hrun)
    as (_ & _ & (f & Hf & _ & Hall) & _).
  exists f. split; [exact Hf|exact Hall].
Defined.
